(** * Chat session state of the front end

    A shallow embedding of [src/frontend/src/App.tsx]: the thread collection,
    the live message view, the model list, the delete dialogue, the streaming
    send and the copy of the collection kept in [localStorage]; and of the
    components around it: the message pane ([components/Chat.tsx], with the
    splitting of a message into text and code), the thread list (Sidebar)
    and the dialogue (Modal), as far as they decide which handler of [App]
    is called with which arguments.

    Conventions.
    - A JavaScript string is a Rocq [string] holding its UTF-8 bytes (a lone
      surrogate as the three bytes of its code point).
    - A thread id is a [Z]: ids are [Date.now()] timestamps, whole numbers.
      The code holds numbers as binary64.  A [Z] stands for the number that
      the code holds when it is a safe integer (of magnitude up to
      2^53 - 1), as every time value is; what the code holds for the other
      numbers that a stored text can spell is given by [JSValue], and the
      statements on what is saved and loaded are made for safe ids.
    - React state is a record; every [setX] becomes a functional update of
      the record, applied in program order.  The effect that depends on
      [chats] runs at the commit that follows every [setChats], so it is
      folded into [setChats].
    - [Date.now()], [toLocaleDateString()], the bytes read from the network
      and the outcome of a [fetch] are inputs of the handlers.
    - A call of [handleSendMessage] is followed through its steps
      ([startSend], [onChunk] for every read, [onDone]).  The call is
      asynchronous: it waits for [fetch] and for every read, and any
      handler or other call may run in between.  [happen] and [play] are
      the code as it runs, one handler or one end of a wait at a time;
      [handleSendMessage], [step] and [run] are the runs in which every
      call has all its waits before anything else happens
      ([step_in_turn], [run_in_turn]). *)

From Stdlib Require Import ZArith NArith List String Ascii Bool Lia.
From stdpp Require Import base list strings gmap.

Open Scope string_scope.
Open Scope list_scope.
Set Warnings "-register-all".

(** ** Data model (App.tsx, lines 9-14) *)

Record Message := mkMessage { text : string; isUser : bool }.

Module ChatType.
Record t := mk { id : Z; name : string; date : string; messages : list Message }.
End ChatType.
Abbreviation ChatType := ChatType.t.

(** ** Numbers and text as JavaScript prints them *)

Definition dquote : ascii := ascii_of_N 34.
Definition backslash : ascii := ascii_of_N 92.

Definition digit_char (d : N) : ascii := ascii_of_N (48 + d).

(** Decimal digits of [n], most significant first; [fuel] bounds the number
    of digits. *)
Fixpoint digits_from (fuel : nat) (n : N) (acc : list N) : list N :=
  match fuel with
  | O => acc
  | S fuel' =>
      if (n / 10 =? 0)%N then (n mod 10)%N :: acc
      else digits_from fuel' (n / 10)%N ((n mod 10)%N :: acc)
  end.

Definition decimal_digits (n : N) : list N :=
  digits_from (S (N.to_nat (N.log2 n))) n [].

Definition N_to_string (n : N) : string :=
  string_of_list_ascii (map digit_char (decimal_digits n)).

(** [String(z)] for a whole number [z]: plain decimal, as JavaScript prints
    whole numbers below 10^21. *)
Definition Z_to_string (z : Z) : string :=
  match z with
  | Zneg p => String "-" (N_to_string (Npos p))
  | _ => N_to_string (Z.to_N z)
  end.

(** The hexadecimal digit [d], in lower case. *)
Definition hex_char (d : N) : ascii :=
  if (d <? 10)%N then ascii_of_N (48 + d) else ascii_of_N (87 + d).

(** ** JSON, as [JSON.stringify] and [JSON.parse] treat a thread collection

    Both are functions of the platform.  [stringify] is given at the type
    [ChatType[]], the only type it is called at; [parse] reads any text by
    the JSON grammar.  A number is kept as the exact decimal its literal
    denotes, without the rounding to a binary64; the number that the code
    holds for it is given by [JSValue.of_number] below.  A string with a
    lone surrogate is printed by [JSON.stringify] with an escape for it,
    and here as the three bytes that stand for it: the stored text differs
    there, and reads back as the same string. *)

Module JSON.

Inductive value :=
| Null
| Bool (b : bool)
| Number (mantissa exponent : Z)   (* mantissa * 10^exponent, normalised *)
| Str (s : string)
| Array (items : list value)
| Object (members : list (string * value)).

(** *** Printing *)

(** A character inside a string literal: the quote, the backslash and the
    control characters are escaped.  (The three bytes that stand for a
    lone surrogate are copied like any other byte; [JSON.stringify] writes
    an escape for it, which reads back as the same three bytes.) *)
Definition escape (c : ascii) : string :=
  if Ascii.eqb c dquote then String backslash (String dquote EmptyString)
  else if Ascii.eqb c backslash then String backslash (String backslash EmptyString)
  else match N_of_ascii c with
       | 8%N => String backslash "b"
       | 9%N => String backslash "t"
       | 10%N => String backslash "n"
       | 12%N => String backslash "f"
       | 13%N => String backslash "r"
       | n => if (n <? 32)%N
              then String backslash
                     (String "u" (String "0" (String "0"
                        (String (hex_char (n / 16)) (String (hex_char (n mod 16)) EmptyString)))))
              else String c EmptyString
       end.

Fixpoint escape_all (s : string) : string :=
  match s with
  | EmptyString => EmptyString
  | String c r => escape c +:+ escape_all r
  end.

Definition quote (s : string) : string :=
  String dquote (escape_all s +:+ String dquote EmptyString).

Definition print_bool (b : bool) : string := if b then "true" else "false".

(** [{"text":...,"isUser":...}] *)
Definition print_message (m : Message) : string :=
  "{" +:+ quote "text" +:+ ":" +:+ quote (text m) +:+ ","
      +:+ quote "isUser" +:+ ":" +:+ print_bool (isUser m) +:+ "}".

(** Elements separated by commas, without the brackets. *)
Fixpoint print_elements {A : Type} (print : A -> string) (l : list A) : string :=
  match l with
  | [] => EmptyString
  | [x] => print x
  | x :: l' => print x +:+ "," +:+ print_elements print l'
  end.

Definition print_array {A : Type} (print : A -> string) (l : list A) : string :=
  "[" +:+ print_elements print l +:+ "]".

(** [{"id":...,"name":...,"date":...,"messages":[...]}] *)
Definition print_chat (c : ChatType) : string :=
  "{" +:+ quote "id" +:+ ":" +:+ Z_to_string (ChatType.id c) +:+ ","
      +:+ quote "name" +:+ ":" +:+ quote (ChatType.name c) +:+ ","
      +:+ quote "date" +:+ ":" +:+ quote (ChatType.date c) +:+ ","
      +:+ quote "messages" +:+ ":" +:+ print_array print_message (ChatType.messages c) +:+ "}".

(** [JSON.stringify(chats)] at the type [ChatType[]]. *)
Definition stringify (chats : list ChatType) : string :=
  print_array print_chat chats.

(** *** Parsing *)

Inductive parsed (A : Type) : Type :=
| Parsed (a : A) (rest : string)
| Malformed      (* SyntaxError *)
| Exhausted.     (* the recursion bound was reached *)
Arguments Parsed {A} a rest.
Arguments Malformed {A}.
Arguments Exhausted {A}.

Definition bind {A B : Type} (p : parsed A) (k : A -> string -> parsed B) : parsed B :=
  match p with
  | Parsed a rest => k a rest
  | Malformed => Malformed
  | Exhausted => Exhausted
  end.

Definition is_ws (c : ascii) : bool :=
  match N_of_ascii c with
  | 32%N | 9%N | 10%N | 13%N => true
  | _ => false
  end.

Fixpoint skip_ws (s : string) : string :=
  match s with
  | String c r => if is_ws c then skip_ws r else s
  | EmptyString => s
  end.

(** [expect lit s]: [s] without its prefix [lit]. *)
Fixpoint expect (lit s : string) : option string :=
  match lit with
  | EmptyString => Some s
  | String c lit' =>
      match s with
      | String d s' => if Ascii.eqb c d then expect lit' s' else None
      | EmptyString => None
      end
  end.

Definition digit_val (c : ascii) : option N :=
  let n := N_of_ascii c in
  if ((48 <=? n) && (n <=? 57))%N then Some (n - 48)%N else None.

Definition hex_val (c : ascii) : option N :=
  let n := N_of_ascii c in
  if ((48 <=? n) && (n <=? 57))%N then Some (n - 48)%N
  else if ((97 <=? n) && (n <=? 102))%N then Some (n - 87)%N
  else if ((65 <=? n) && (n <=? 70))%N then Some (n - 55)%N
  else None.

Definition hex4 (a b c d : ascii) : option N :=
  match hex_val a, hex_val b, hex_val c, hex_val d with
  | Some x, Some y, Some z, Some w => Some (((x * 16 + y) * 16 + z) * 16 + w)%N
  | _, _, _, _ => None
  end.

(** What a string literal holds: bytes copied from the text, and UTF-16
    code units written as escapes. *)
Inductive item := Raw (c : ascii) | Unit16 (u : N).

Definition push {A : Type} (a : A) (p : parsed (list A)) : parsed (list A) :=
  bind p (fun l rest => Parsed (a :: l) rest).

(** The body of a string literal, after its opening quote. *)
Fixpoint scan_string (s : string) : parsed (list item) :=
  match s with
  | EmptyString => Malformed
  | String c r =>
      if Ascii.eqb c dquote then Parsed [] r
      else if Ascii.eqb c backslash then
        match r with
        | EmptyString => Malformed
        | String e r' =>
            if Ascii.eqb e dquote then push (Raw dquote) (scan_string r')
            else match e with
                 | "\"%char => push (Raw backslash) (scan_string r')
                 | "/"%char => push (Raw "/"%char) (scan_string r')
                 | "b"%char => push (Raw (ascii_of_N 8)) (scan_string r')
                 | "f"%char => push (Raw (ascii_of_N 12)) (scan_string r')
                 | "n"%char => push (Raw (ascii_of_N 10)) (scan_string r')
                 | "r"%char => push (Raw (ascii_of_N 13)) (scan_string r')
                 | "t"%char => push (Raw (ascii_of_N 9)) (scan_string r')
                 | "u"%char =>
                     match r' with
                     | String h1 (String h2 (String h3 (String h4 r''))) =>
                         match hex4 h1 h2 h3 h4 with
                         | Some u => push (Unit16 u) (scan_string r'')
                         | None => Malformed
                         end
                     | _ => Malformed
                     end
                 | _ => Malformed
                 end
        end
      else if (N_of_ascii c <? 32)%N then Malformed
      else push (Raw c) (scan_string r)
  end.

(** UTF-8 bytes of a code point (a lone surrogate is written like any
    other three-byte code point). *)
Definition utf8_encode (cp : N) : string :=
  if (cp <? 128)%N then String (ascii_of_N cp) EmptyString
  else if (cp <? 2048)%N then
    String (ascii_of_N (192 + cp / 64))
      (String (ascii_of_N (128 + cp mod 64)) EmptyString)
  else if (cp <? 65536)%N then
    String (ascii_of_N (224 + cp / 4096))
      (String (ascii_of_N (128 + (cp / 64) mod 64))
         (String (ascii_of_N (128 + cp mod 64)) EmptyString))
  else
    String (ascii_of_N (240 + cp / 262144))
      (String (ascii_of_N (128 + (cp / 4096) mod 64))
         (String (ascii_of_N (128 + (cp / 64) mod 64))
            (String (ascii_of_N (128 + cp mod 64)) EmptyString))).

Definition is_high (u : N) : bool := ((55296 <=? u) && (u <=? 56319))%N.
Definition is_low (u : N) : bool := ((56320 <=? u) && (u <=? 57343))%N.

Fixpoint utf8_of_items (l : list item) : string :=
  match l with
  | [] => EmptyString
  | Raw c :: l' => String c (utf8_of_items l')
  | Unit16 hi :: l' =>
      match l' with
      | Unit16 lo :: l'' =>
          if is_high hi && is_low lo
          then utf8_encode (65536 + (hi - 55296) * 1024 + (lo - 56320)) +:+ utf8_of_items l''
          else utf8_encode hi +:+ utf8_of_items l'
      | _ => utf8_encode hi +:+ utf8_of_items l'
      end
  end.

Definition parse_string (s : string) : parsed string :=
  bind (scan_string s) (fun items rest => Parsed (utf8_of_items items) rest).

(** Digits read from the front of [s]: the number they spell after [acc],
    how many were read, and what follows. *)
Fixpoint read_digits (s : string) (acc : N) (count : nat) : N * nat * string :=
  match s with
  | String c r =>
      match digit_val c with
      | Some d => read_digits r (acc * 10 + d)%N (S count)
      | None => (acc, count, s)
      end
  | EmptyString => (acc, count, s)
  end.

Fixpoint strip_zeros (fuel : nat) (m e : Z) : Z * Z :=
  match fuel with
  | O => (m, e)
  | S fuel' => if (m mod 10 =? 0)%Z then strip_zeros fuel' (m / 10)%Z (e + 1)%Z else (m, e)
  end.

(** The decimal [m * 10^e] in normal form: a whole number has exponent 0,
    any other value has a negative exponent and no trailing zero. *)
Definition normalise (m e : Z) : Z * Z :=
  if (m =? 0)%Z then (0%Z, 0%Z)
  else if (0 <=? e)%Z then ((m * 10 ^ e)%Z, 0%Z)
  else strip_zeros (Z.to_nat (- e)) m e.

Definition parse_int_part (s : string) : parsed N :=
  match s with
  | String "0" r => Parsed 0%N r
  | _ => match read_digits s 0%N 0 with
         | (_, O, _) => Malformed
         | (n, S _, r) => Parsed n r
         end
  end.

Definition parse_fraction (int : N) (s : string) : parsed (N * nat) :=
  match s with
  | String "." r =>
      match read_digits r int 0 with
      | (_, O, _) => Malformed
      | (m, S k, r') => Parsed (m, S k) r'
      end
  | _ => Parsed (int, O) s
  end.

Definition parse_exponent (s : string) : parsed Z :=
  match s with
  | String c r =>
      if Ascii.eqb c "e" || Ascii.eqb c "E" then
        let '(neg, r1) :=
          match r with
          | String "-" r1 => (true, r1)
          | String "+" r1 => (false, r1)
          | _ => (false, r)
          end in
        match read_digits r1 0%N 0 with
        | (_, O, _) => Malformed
        | (e, S _, r2) => Parsed (if neg then (- Z.of_N e)%Z else Z.of_N e) r2
        end
      else Parsed 0%Z s
  | EmptyString => Parsed 0%Z s
  end.

Definition parse_number (s : string) : parsed value :=
  let '(neg, s1) :=
    match s with
    | String "-" r => (true, r)
    | _ => (false, s)
    end in
  bind (parse_int_part s1) (fun int s2 =>
  bind (parse_fraction int s2) (fun '(m, k) s3 =>
  bind (parse_exponent s3) (fun e s4 =>
    let m' := if neg then (- Z.of_N m)%Z else Z.of_N m in
    let '(mant, ex) := normalise m' (e - Z.of_nat k)%Z in
    Parsed (Number mant ex) s4))).

Definition literal (lit : string) (v : value) (s : string) : parsed value :=
  match expect lit s with
  | Some rest => Parsed v rest
  | None => Malformed
  end.

Fixpoint parse_value (fuel : nat) (s : string) : parsed value :=
  match fuel with
  | O => Exhausted
  | S fuel' =>
      match skip_ws s with
      | EmptyString => Malformed
      | String c r =>
          if Ascii.eqb c dquote then bind (parse_string r) (fun k rest => Parsed (Str k) rest)
          else match c with
               | "{"%char =>
                   match skip_ws r with
                   | String "}" r' => Parsed (Object []) r'
                   | _ => bind (parse_members fuel' r) (fun ms rest => Parsed (Object ms) rest)
                   end
               | "["%char =>
                   match skip_ws r with
                   | String "]" r' => Parsed (Array []) r'
                   | _ => bind (parse_elements fuel' r) (fun vs rest => Parsed (Array vs) rest)
                   end
               | "t"%char => literal "rue" (Bool true) r
               | "f"%char => literal "alse" (Bool false) r
               | "n"%char => literal "ull" Null r
               | _ => parse_number (String c r)
               end
      end
  end
(** elements of an array, from the start of an element to the closing
    bracket *)
with parse_elements (fuel : nat) (s : string) : parsed (list value) :=
  match fuel with
  | O => Exhausted
  | S fuel' =>
      bind (parse_value fuel' s) (fun v r =>
        match skip_ws r with
        | String "," r' => push v (parse_elements fuel' r')
        | String "]" r' => Parsed [v] r'
        | _ => Malformed
        end)
  end
(** members of an object, from the start of a key to the closing brace *)
with parse_members (fuel : nat) (s : string) : parsed (list (string * value)) :=
  match fuel with
  | O => Exhausted
  | S fuel' =>
      match skip_ws s with
      | String q r =>
          if Ascii.eqb q dquote then
            bind (parse_string r) (fun k r1 =>
              match skip_ws r1 with
              | String ":" r2 =>
                  bind (parse_value fuel' r2) (fun v r3 =>
                    match skip_ws r3 with
                    | String "," r4 => push (k, v) (parse_members fuel' r4)
                    | String "}" r4 => Parsed [(k, v)] r4
                    | _ => Malformed
                    end)
              | _ => Malformed
              end)
          else Malformed
      | EmptyString => Malformed
      end
  end.

(** [JSON.parse(s)]: one value, then only white space. *)
Definition parse (s : string) : parsed value :=
  bind (parse_value (2 * String.length s + 1) s) (fun v rest =>
    match skip_ws rest with
    | EmptyString => Parsed v EmptyString
    | _ => Malformed
    end).

End JSON.

(** The JavaScript value of a typed message, thread and collection. *)
Definition message_value (m : Message) : JSON.value :=
  JSON.Object [("text", JSON.Str (text m)); ("isUser", JSON.Bool (isUser m))].

Definition chat_value (c : ChatType) : JSON.value :=
  JSON.Object
    [("id", JSON.Number (ChatType.id c) 0);
     ("name", JSON.Str (ChatType.name c));
     ("date", JSON.Str (ChatType.date c));
     ("messages", JSON.Array (map message_value (ChatType.messages c)))].

Definition chats_value (chats : list ChatType) : JSON.value :=
  JSON.Array (map chat_value chats).

(** The typed reading of a parsed value: [useState<ChatType[]>] takes what
    [JSON.parse] returns to be a [ChatType[]]; [None] when it is not one
    as [JSON.stringify] writes them (the members [id], [name], [date],
    [messages] in this order, the id a whole number).  The code takes any
    value as it comes; what it does with another value is not followed. *)
Definition to_message (v : JSON.value) : option Message :=
  match v with
  | JSON.Object [(k1, JSON.Str t); (k2, JSON.Bool b)] =>
      if String.eqb k1 "text" && String.eqb k2 "isUser" then Some (mkMessage t b) else None
  | _ => None
  end.

Fixpoint to_list {A : Type} (f : JSON.value -> option A) (vs : list JSON.value) : option (list A) :=
  match vs with
  | [] => Some []
  | v :: vs' =>
      match f v, to_list f vs' with
      | Some a, Some l => Some (a :: l)
      | _, _ => None
      end
  end.

Definition to_chat (v : JSON.value) : option ChatType :=
  match v with
  | JSON.Object [(k1, JSON.Number n 0); (k2, JSON.Str nm); (k3, JSON.Str d); (k4, JSON.Array ms)] =>
      if String.eqb k1 "id" && String.eqb k2 "name" && String.eqb k3 "date" && String.eqb k4 "messages"
      then match to_list to_message ms with
           | Some l => Some (ChatType.mk n nm d l)
           | None => None
           end
      else None
  | _ => None
  end.

Definition to_chats (v : JSON.value) : option (list ChatType) :=
  match v with
  | JSON.Array vs => to_list to_chat vs
  | _ => None
  end.

(** ** The values that [JSON.parse] returns

    [JSON.parse] reads a number literal as the binary64 number nearest to
    it.  Two kinds of numbers are followed here: the safe integers (the
    whole numbers of magnitude up to 2^53 - 1, which binary64 holds exactly
    and which are printed in plain decimal), and the literals of magnitude
    2^1024 - 2^970 or more, which are read as an infinity and printed as
    [null].  Any other number (a fraction, a larger whole number) is not
    followed, and neither is an object with a repeated key or with a key
    made of digits, whose members JavaScript reorders. *)

Definition safe (z : Z) : bool :=
  ((- (2 ^ 53 - 1) <=? z) && (z <=? 2 ^ 53 - 1))%Z.

Module JSValue.

Inductive t :=
| Null
| Bool (b : bool)
| Whole (z : Z)                  (* a safe integer *)
| Infinity (negative : bool)
| Str (s : string)
| Array (items : list t)
| Object (members : list (string * t)).

(** The magnitude from which a literal is read as an infinity. *)
Definition overflow : Z := 2 ^ 1024 - 2 ^ 970.

(** The number that the literal [mantissa * 10^exponent] is read as: a
    whole number when the exponent is not negative; with a negative
    exponent only the literals read as an infinity are followed. *)
Definition of_number (mantissa exponent : Z) : option t :=
  if (0 <=? exponent)%Z then
    let n := (mantissa * 10 ^ exponent)%Z in
    if safe n then Some (Whole n)
    else if (overflow <=? Z.abs n)%Z then Some (Infinity (n <? 0)%Z)
    else None
  else if (overflow * 10 ^ (- exponent) <=? Z.abs mantissa)%Z
       then Some (Infinity (mantissa <? 0)%Z)
       else None.

Definition digit_key (k : string) : bool :=
  match k with
  | EmptyString => false
  | String _ _ =>
      forallb (fun c => (48 <=? N_of_ascii c)%N && (N_of_ascii c <=? 57)%N)
              (list_ascii_of_string k)
  end.

(** Keys that JavaScript keeps in the order of the text. *)
Fixpoint plain_keys (ks : list string) : bool :=
  match ks with
  | [] => true
  | k :: ks' => negb (digit_key k) && negb (existsb (String.eqb k) ks') && plain_keys ks'
  end.

(** The value that the code holds for a parsed text; [None] when the text
    has a number or an object that is not followed. *)
Fixpoint hold (v : JSON.value) : option t :=
  match v with
  | JSON.Null => Some Null
  | JSON.Bool b => Some (Bool b)
  | JSON.Number mantissa exponent => of_number mantissa exponent
  | JSON.Str s => Some (Str s)
  | JSON.Array items =>
      match
        (fix all (l : list JSON.value) : option (list t) :=
           match l with
           | [] => Some []
           | x :: l' =>
               match hold x, all l' with
               | Some a, Some r => Some (a :: r)
               | _, _ => None
               end
           end) items
      with
      | Some l => Some (Array l)
      | None => None
      end
  | JSON.Object members =>
      if plain_keys (map fst members) then
        match
          (fix all (l : list (string * JSON.value)) : option (list (string * t)) :=
             match l with
             | [] => Some []
             | (k, x) :: l' =>
                 match hold x, all l' with
                 | Some a, Some r => Some ((k, a) :: r)
                 | _, _ => None
                 end
             end) members
        with
        | Some l => Some (Object l)
        | None => None
        end
      else None
  end.

(** [JSON.stringify] of a held value: no white space, the members in
    their order, an infinity as [null]. *)
Fixpoint print (v : t) : string :=
  match v with
  | Null => "null"
  | Bool b => JSON.print_bool b
  | Whole z => Z_to_string z
  | Infinity _ => "null"
  | Str s => JSON.quote s
  | Array items =>
      "[" +:+
      (fix elements (l : list t) : string :=
         match l with
         | [] => EmptyString
         | [x] => print x
         | x :: l' => print x +:+ "," +:+ elements l'
         end) items
      +:+ "]"
  | Object members =>
      "{" +:+
      (fix elements (l : list (string * t)) : string :=
         match l with
         | [] => EmptyString
         | [(k, x)] => JSON.quote k +:+ ":" +:+ print x
         | (k, x) :: l' => JSON.quote k +:+ ":" +:+ print x +:+ "," +:+ elements l'
         end) members
      +:+ "}"
  end.

End JSValue.

Abbreviation JSValue := JSValue.t.

(** A typed message, thread and collection as the values that the code
    holds. *)
Definition messageHeld (m : Message) : JSValue :=
  JSValue.Object [("text", JSValue.Str (text m)); ("isUser", JSValue.Bool (isUser m))].

Definition chatHeld (c : ChatType) : JSValue :=
  JSValue.Object
    [("id", JSValue.Whole (ChatType.id c));
     ("name", JSValue.Str (ChatType.name c));
     ("date", JSValue.Str (ChatType.date c));
     ("messages", JSValue.Array (map messageHeld (ChatType.messages c)))].

Definition chatsHeld (chats : list ChatType) : JSValue :=
  JSValue.Array (map chatHeld chats).

(** ** Component state (App.tsx, lines 17-31) and the browser's store *)

Record State := mkState {
  chats : list ChatType;
  selectedChat : option Z;
  messages : list Message;
  isSidebarOpen : bool;
  models : list string;
  selectedLLM : string;
  isModalOpen : bool;
  isToastVisible : bool;
  toastMessage : string;
  chatToDelete : option Z;
  localStorage : gmap string string
}.

Definition getItem (key : string) (store : gmap string string) : option string :=
  store !! key.

Definition setItem (key value : string) (store : gmap string string) : gmap string string :=
  <[key := value]> store.

(** [saveAll]: the effect of lines 33-35. *)
Definition saveAll (cs : list ChatType) (store : gmap string string) : gmap string string :=
  setItem "chats" (JSON.stringify cs) store.

(** The effect of lines 33-35: it runs after the first render and after
    every render in which [chats] has changed. *)
Definition persist (st : State) : State :=
  mkState (chats st) (selectedChat st) (messages st) (isSidebarOpen st) (models st)
    (selectedLLM st) (isModalOpen st) (isToastVisible st) (toastMessage st)
    (chatToDelete st) (saveAll (chats st) (localStorage st)).

(** [setChats], followed at the next commit by the effect of lines 33-35. *)
Definition setChats (cs : list ChatType) (st : State) : State :=
  persist
    (mkState cs (selectedChat st) (messages st) (isSidebarOpen st) (models st)
       (selectedLLM st) (isModalOpen st) (isToastVisible st) (toastMessage st)
       (chatToDelete st) (localStorage st)).

Definition setSelectedChat (sel : option Z) (st : State) : State :=
  mkState (chats st) sel (messages st) (isSidebarOpen st) (models st)
    (selectedLLM st) (isModalOpen st) (isToastVisible st) (toastMessage st)
    (chatToDelete st) (localStorage st).

Definition setMessages (ms : list Message) (st : State) : State :=
  mkState (chats st) (selectedChat st) ms (isSidebarOpen st) (models st)
    (selectedLLM st) (isModalOpen st) (isToastVisible st) (toastMessage st)
    (chatToDelete st) (localStorage st).

Definition setSidebarOpen (b : bool) (st : State) : State :=
  mkState (chats st) (selectedChat st) (messages st) b (models st)
    (selectedLLM st) (isModalOpen st) (isToastVisible st) (toastMessage st)
    (chatToDelete st) (localStorage st).

Definition setModels (ms : list string) (st : State) : State :=
  mkState (chats st) (selectedChat st) (messages st) (isSidebarOpen st) ms
    (selectedLLM st) (isModalOpen st) (isToastVisible st) (toastMessage st)
    (chatToDelete st) (localStorage st).

Definition setSelectedLLM (llm : string) (st : State) : State :=
  mkState (chats st) (selectedChat st) (messages st) (isSidebarOpen st) (models st)
    llm (isModalOpen st) (isToastVisible st) (toastMessage st)
    (chatToDelete st) (localStorage st).

Definition setModalOpen (b : bool) (st : State) : State :=
  mkState (chats st) (selectedChat st) (messages st) (isSidebarOpen st) (models st)
    (selectedLLM st) b (isToastVisible st) (toastMessage st)
    (chatToDelete st) (localStorage st).

Definition setToastVisible (b : bool) (st : State) : State :=
  mkState (chats st) (selectedChat st) (messages st) (isSidebarOpen st) (models st)
    (selectedLLM st) (isModalOpen st) b (toastMessage st)
    (chatToDelete st) (localStorage st).

Definition setToastMessage (m : string) (st : State) : State :=
  mkState (chats st) (selectedChat st) (messages st) (isSidebarOpen st) (models st)
    (selectedLLM st) (isModalOpen st) (isToastVisible st) m
    (chatToDelete st) (localStorage st).

Definition setChatToDelete (d : option Z) (st : State) : State :=
  mkState (chats st) (selectedChat st) (messages st) (isSidebarOpen st) (models st)
    (selectedLLM st) (isModalOpen st) (isToastVisible st) (toastMessage st)
    d (localStorage st).

(** ** Start-up (lines 17-19, 33-35) *)

(** [loadAll]: [JSON.parse(localStorage.getItem("chats") || "[]")].  An
    absent item and the empty string are both falsy. *)
Definition loadAll (store : gmap string string) : JSON.parsed JSON.value :=
  JSON.parse
    (match getItem "chats" store with
     | Some (String c s) => String c s
     | Some EmptyString | None => "[]"
     end).

Definition initialState (cs : list ChatType) (store : gmap string string) : State :=
  mkState cs None [] true [] EmptyString false false EmptyString None store.

Inductive Mounted :=
| Ready (st : State)
| SyntaxError               (* [JSON.parse] threw inside the initialiser *)
| NotChats (v : JSON.value) (* the stored value is no collection of threads *)
| NoAnswer.                 (* the parser gave up: it never does, see [mount_answers] *)

(** The first render and the first run of the effect of lines 33-35. *)
Definition mount (store : gmap string string) : Mounted :=
  match loadAll store with
  | JSON.Parsed v _ =>
      match to_chats v with
      | Some cs => Ready (persist (initialState cs store))
      | None => NotChats v
      end
  | JSON.Malformed => SyntaxError
  | JSON.Exhausted => NoAnswer
  end.

(** ** The model list (lines 37-54) *)

Inductive ModelsResponse :=
| FetchRejected                      (* network error: [fetch] rejects *)
| NotOk                              (* [response.ok] is false *)
| BadBody                            (* [response.json()] rejects *)
| ModelList (ms : list string).      (* [{ models: [...] }] *)

Definition fetchModels (r : ModelsResponse) (st : State) : State :=
  match r with
  | ModelList ms =>
      let st1 := setModels ms st in
      match ms with
      | m :: _ => setSelectedLLM m st1
      | [] => st1
      end
  | FetchRejected | NotOk | BadBody => st
  end.

Definition handleLLMChange (llm : string) (st : State) : State :=
  setSelectedLLM llm st.

(** What lines 244-278 put in the main panel. *)
Inductive MainPanel :=
| ModelPickerAndChat (options : list string) (value : string)
| NoModelsNotice.

Definition mainPanel (st : State) : MainPanel :=
  if (0 <? length (models st))%nat then ModelPickerAndChat (models st) (selectedLLM st)
  else NoModelsNotice.

(** ** Threads (lines 56-106) *)

Definition handleSelectChat (chatId : Z) (st : State) : State :=
  match find (fun c => (ChatType.id c =? chatId)%Z) (chats st) with
  | Some chat => setMessages (ChatType.messages chat) (setSelectedChat (Some chatId) st)
  | None => st
  end.

Definition handleAddChat (now : Z) (today : string) (st : State) : State :=
  let newChat :=
    ChatType.mk now ("Chat " +:+ N_to_string (N.of_nat (length (chats st) + 1))) today [] in
  setMessages [] (setSelectedChat (Some now) (setChats (chats st ++ [newChat]) st)).

Definition rename (chatId : Z) (newName : string) (chat : ChatType) : ChatType :=
  if (ChatType.id chat =? chatId)%Z
  then ChatType.mk (ChatType.id chat) newName (ChatType.date chat) (ChatType.messages chat)
  else chat.

Definition handleRenameChat (chatId : Z) (newName : string) (st : State) : State :=
  setToastVisible true
    (setToastMessage "Chat renamed successfully!"
       (setChats (map (rename chatId newName) (chats st)) st)).

Definition handleDeleteChat (chatId : Z) (st : State) : State :=
  setChatToDelete (Some chatId) (setModalOpen true st).

Definition confirmDeleteChat (st : State) : State :=
  match chatToDelete st with
  | Some d =>
      setToastVisible true
        (setToastMessage "Chat deleted successfully!"
           (setModalOpen false
              (setChatToDelete None
                 (setMessages []
                    (setSelectedChat None
                       (setChats (filter (fun chat => ChatType.id chat <> d) (chats st)) st))))))
  | None => st
  end.

Definition closeModal (st : State) : State :=
  setChatToDelete None (setModalOpen false st).

(** ** [new TextDecoder("utf-8").decode(value)] (lines 156, 162)

    The decoder is called without the [stream] option: every call starts
    afresh, drops one leading byte order mark, copies each well-formed
    UTF-8 sequence and writes U+FFFD for each ill-formed one, also for a
    sequence cut short by the end of the chunk. *)

Module TextDecoder.

Definition replacement : string :=
  String (ascii_of_N 239) (String (ascii_of_N 191) (String (ascii_of_N 189) EmptyString)).

(** A sequence in progress: the bytes seen, how many are still needed, and
    the range the next byte must lie in. *)
Record partial := mkPartial { seen : string; needed : nat; lower : N; upper : N }.

Definition between (lo n hi : N) : bool := ((lo <=? n) && (n <=? hi))%N.

(** A byte met when no sequence is in progress. *)
Definition lead (b : ascii) : string * option partial :=
  let n := N_of_ascii b in
  let one := String b EmptyString in
  if (n <=? 127)%N then (one, None)
  else if between 194 n 223 then (EmptyString, Some (mkPartial one 1 128 191))
  else if between 224 n 239 then
    (EmptyString,
     Some (mkPartial one 2 (if (n =? 224)%N then 160%N else 128%N)
                           (if (n =? 237)%N then 159%N else 191%N)))
  else if between 240 n 244 then
    (EmptyString,
     Some (mkPartial one 3 (if (n =? 240)%N then 144%N else 128%N)
                           (if (n =? 244)%N then 143%N else 191%N)))
  else (replacement, None).

Fixpoint run (bytes : list ascii) (st : option partial) : string :=
  match bytes with
  | [] =>
      match st with
      | Some _ => replacement
      | None => EmptyString
      end
  | b :: rest =>
      match st with
      | None => let '(out, st') := lead b in out +:+ run rest st'
      | Some p =>
          if between (lower p) (N_of_ascii b) (upper p) then
            match needed p with
            | O | S O => (seen p +:+ String b EmptyString) +:+ run rest None
            | S k => run rest (Some (mkPartial (seen p +:+ String b EmptyString) k 128 191))
            end
          else let '(out, st') := lead b in replacement +:+ out +:+ run rest st'
      end
  end.

Definition strip_bom (bytes : list ascii) : list ascii :=
  match bytes with
  | b1 :: b2 :: b3 :: rest =>
      if ((N_of_ascii b1 =? 239) && (N_of_ascii b2 =? 187) && (N_of_ascii b3 =? 191))%N
      then rest else bytes
  | _ => bytes
  end.

Definition decode (value : list Byte.byte) : string :=
  run (strip_bom (map ascii_of_byte value)) None.

End TextDecoder.

(** ** Sending a message (lines 108-192) *)

(** The body of the POST to [/send-message]. *)
Record Request := mkRequest {
  content : string;
  model : string;
  history : list Message;
  chat_id : Z
}.

(** How the reads of the response body end. *)
Inductive StreamEnd :=
| Done            (* [reader.read()] answers [done] *)
| ReadRejected.   (* [reader.read()] rejects *)

Inductive Response :=
| Rejected                                              (* [fetch] rejects *)
| NoBody                                                (* [!response.ok || !response.body] *)
| Body (chunks : list (list Byte.byte)) (ending : StreamEnd).

(** What the running call keeps in its closure: [selectedChat],
    [updatedChatMessages], [llmResponseIndex] and [llmResponseText]. *)
Record Pending := mkPending {
  target : Z;
  updatedChatMessages : list Message;
  llmResponseIndex : nat;
  llmResponseText : string
}.

Definition replaceMessages (chatId : Z) (ms : list Message) (chat : ChatType) : ChatType :=
  if (ChatType.id chat =? chatId)%Z
  then ChatType.mk (ChatType.id chat) (ChatType.name chat) (ChatType.date chat) ms
  else chat.

(** [a[i] = x] on a fresh copy of [a], as JavaScript does it: within the
    array the element is replaced; at or past the end the array grows to
    length [i+1], and the slots between the old end and [i] stay empty
    ([None]). *)
Definition array_assign {A : Type} (a : list A) (i : nat) (x : A) : list (option A) :=
  if (i <? length a)%nat then Some <$> <[i := x]> a
  else (Some <$> a) ++ replicate (i - length a) None ++ [Some x].

(** An array without empty slots, as a list of its elements. *)
Fixpoint dense {A : Type} (slots : list (option A)) : option (list A) :=
  match slots with
  | [] => Some []
  | Some x :: rest => cons x <$> dense rest
  | None :: _ => None
  end.

(** The assignment, when its result is still an array of elements: an
    array with empty slots is no [Message[]]. *)
Definition array_set {A : Type} (a : list A) (i : nat) (x : A) : option (list A) :=
  dense (array_assign a i x).

(** Lines 112-148: up to the call of [fetch].  [None] for [updatedMessages]
    is the missing argument. *)
Definition startSend (message : string) (updatedMessages : option (list Message))
    (st : State) : State * option (Request * Pending) :=
  match selectedChat st with
  | Some chat =>
      if String.eqb (selectedLLM st) EmptyString then (st, None)
      else
        let '(st1, base) :=
          match updatedMessages with
          | Some ms => (st, ms)
          | None =>
              let ms := messages st ++ [mkMessage message true] in
              (setChats (map (replaceMessages chat ms) (chats st)) (setMessages ms st), ms)
          end in
        let st2 := setMessages (base ++ [mkMessage EmptyString false]) st1 in
        (st2,
         Some (mkRequest message (selectedLLM st) base chat,
               mkPending chat base (length base) EmptyString))
  | None => (st, None)
  end.

(** Lines 160-172: one turn of the loop, for a read that brought [value]. *)
Definition onChunk (value : list Byte.byte) (p : Pending) (st : State) : option (State * Pending) :=
  let text' := llmResponseText p +:+ TextDecoder.decode value in
  match array_set (messages st) (llmResponseIndex p) (mkMessage text' false) with
  | Some newMessages =>
      Some (setMessages newMessages st,
            mkPending (target p) (updatedChatMessages p) (llmResponseIndex p) text')
  | None => None
  end.

(** Lines 175-187: after the last read. *)
Definition onDone (p : Pending) (st : State) : State :=
  setChats
    (map (replaceMessages (target p)
            (updatedChatMessages p ++ [mkMessage (llmResponseText p) false]))
         (chats st))
    st.

(** Lines 159-173: the reads, in order. *)
Fixpoint readAll (chunks : list (list Byte.byte)) (p : Pending) (st : State) : option (State * Pending) :=
  match chunks with
  | [] => Some (st, p)
  | value :: rest =>
      match onChunk value p st with
      | Some (st', p') => readAll rest p' st'
      | None => None
      end
  end.

(** Lines 150-190: what the call does once [fetch] has settled. *)
Definition finishSend (r : Response) (p : Pending) (st : State) : option State :=
  match r with
  | Rejected | NoBody => Some st
  | Body chunks ending =>
      match readAll chunks p st with
      | Some (st', p') =>
          match ending with
          | Done => Some (onDone p' st')
          | ReadRejected => Some st'
          end
      | None => None
      end
  end.

(** A whole call of [handleSendMessage], with nothing else happening
    between its steps.  The call with its waits, between which anything
    may happen, is [launch] and [resume] below. *)
Definition handleSendMessage (message : string) (updatedMessages : option (list Message))
    (r : Response) (st : State) : option State :=
  match startSend message updatedMessages st with
  | (st1, Some (_, p)) => finishSend r p st1
  | (st1, None) => Some st1
  end.

(** The requests a call issues. *)
Definition requests (started : option (Request * Pending)) : list Request :=
  match started with
  | Some (req, _) => [req]
  | None => []
  end.

(** The live view after each step of the stream: before the first read and
    after every read. *)
Fixpoint liveViews (chunks : list (list Byte.byte)) (p : Pending) (st : State) : list (list Message) :=
  messages st ::
  match chunks with
  | [] => []
  | value :: rest =>
      match onChunk value p st with
      | Some (st', p') => liveViews rest p' st'
      | None => []
      end
  end.

(** The text shown at index [i] of a view. *)
Definition textAt (i : nat) (view : list Message) : option string :=
  text <$> view !! i.

(** ** Editing a message (lines 194-218) *)

Inductive Edited :=
| Returned (st : State) (started : option (Request * Pending))
| TypeError (st : State).   (* [truncatedMessages[index]] is undefined *)

Definition updateMessage (index : nat) (newText : string) (st : State) : Edited :=
  match selectedChat st with
  | Some chat =>
      let updatedMessages :=
        imap (fun i msg => if (i =? index)%nat then mkMessage newText (isUser msg) else msg)
             (messages st) in
      let truncatedMessages := take (index + 1) updatedMessages in
      let st1 :=
        setChats (map (replaceMessages chat truncatedMessages) (chats st))
                 (setMessages truncatedMessages st) in
      match truncatedMessages !! index with
      | Some m =>
          let '(st2, started) := startSend (text m) (Some truncatedMessages) st1 in
          Returned st2 started
      | None => TypeError st1
      end
  | None => Returned st None
  end.

(** ** What the user and the network can do, one event at a time *)

Inductive Event :=
| SelectChat (chatId : Z)
| AddChat (now : Z) (today : string)
| RenameChat (chatId : Z) (newName : string)
| DeleteChat (chatId : Z)
| ConfirmDelete
| CancelDelete
| SendMessage (message : string) (r : Response)
| EditMessage (index : nat) (newText : string) (r : Response)
| ChangeLLM (llm : string)
| ModelsFetched (r : ModelsResponse)
| CloseToast
| CloseSidebar
| ToggleSidebar.

Definition step (e : Event) (st : State) : option State :=
  match e with
  | SelectChat chatId => Some (handleSelectChat chatId st)
  | AddChat now today => Some (handleAddChat now today st)
  | RenameChat chatId newName => Some (handleRenameChat chatId newName st)
  | DeleteChat chatId => Some (handleDeleteChat chatId st)
  | ConfirmDelete => Some (confirmDeleteChat st)
  | CancelDelete => Some (closeModal st)
  | SendMessage message r => handleSendMessage message None r st
  | EditMessage index newText r =>
      match updateMessage index newText st with
      | Returned st1 (Some (_, p)) => finishSend r p st1
      | Returned st1 None => Some st1
      | TypeError st1 => Some st1
      end
  | ChangeLLM llm => Some (handleLLMChange llm st)
  | ModelsFetched r => Some (fetchModels r st)
  | CloseToast => Some (setToastVisible false st)
  | CloseSidebar => Some (setSidebarOpen false st)
  | ToggleSidebar => Some (setSidebarOpen (negb (isSidebarOpen st)) st)
  end.

Fixpoint run (es : list Event) (st : State) : option State :=
  match es with
  | [] => Some st
  | e :: es' =>
      match step e st with
      | Some st' => run es' st'
      | None => None
      end
  end.

(** The messages stored for thread [chatId]. *)
Definition storedMessages (chatId : Z) (cs : list ChatType) : option (list Message) :=
  ChatType.messages <$> find (fun c => (ChatType.id c =? chatId)%Z) cs.

(** ** A send in flight (lines 137-190)

    [handleSendMessage] is asynchronous: it gives way at the call of
    [fetch] and at every [reader.read()], and any handler may run in
    between.  What it keeps from one wait to the next is its closure; the
    updates it makes after a wait are functions of the state at that time.
    A flight is a call that has been started: its closure, and what the
    network still has to deliver to it. *)

Inductive Script :=
| ToSettle (r : Response)                                       (* waiting for [fetch] *)
| ToRead (chunks : list (list Byte.byte)) (ending : StreamEnd)  (* waiting for [reader.read()] *)
| Over.                                                         (* returned *)

Record Flight := mkFlight {
  closure : Pending;
  script : Script
}.

(** The state of [App] and the calls of [handleSendMessage] started so far,
    in the order of their start. *)
Record System := mkSystem {
  present : State;
  flights : list Flight
}.

(** The call started by a handler, if it got past the guard, with the
    response [r] that the network has for it. *)
Definition launch (started : option (Request * Pending)) (r : Response)
    (fs : list Flight) : list Flight :=
  match started with
  | Some (_, p) => fs ++ [mkFlight p (ToSettle r)]
  | None => fs
  end.

(** A wait of the flight [f] ends, in the state [st] of that moment.
    [None]: the flight has returned already, or the chunk update leaves
    empty slots in the view (see [array_assign]). *)
Definition resume (f : Flight) (st : State) : option (State * Flight) :=
  match script f with
  | ToSettle Rejected => Some (st, mkFlight (closure f) Over)
  | ToSettle NoBody => Some (st, mkFlight (closure f) Over)
  | ToSettle (Body chunks ending) => Some (st, mkFlight (closure f) (ToRead chunks ending))
  | ToRead (value :: chunks) ending =>
      match onChunk value (closure f) st with
      | Some (st', p') => Some (st', mkFlight p' (ToRead chunks ending))
      | None => None
      end
  | ToRead [] Done => Some (onDone (closure f) st, mkFlight (closure f) Over)
  | ToRead [] ReadRejected => Some (st, mkFlight (closure f) Over)
  | Over => None
  end.

(** What happens, one thing at a time: a handler runs up to its first wait
    (a send or an edit starts a flight), or a wait of flight [k] ends. *)
Inductive Happening :=
| Does (e : Event)
| Resumes (k : nat).

Definition happen (h : Happening) (sys : System) : option System :=
  match h with
  | Does (SendMessage message r) =>
      let '(st1, started) := startSend message None (present sys) in
      Some (mkSystem st1 (launch started r (flights sys)))
  | Does (EditMessage index newText r) =>
      match updateMessage index newText (present sys) with
      | Returned st1 started => Some (mkSystem st1 (launch started r (flights sys)))
      | TypeError st1 => Some (mkSystem st1 (flights sys))
      end
  | Does e =>
      match step e (present sys) with
      | Some st' => Some (mkSystem st' (flights sys))
      | None => None
      end
  | Resumes k =>
      match flights sys !! k with
      | Some f =>
          match resume f (present sys) with
          | Some (st', f') => Some (mkSystem st' (<[k := f']> (flights sys)))
          | None => None
          end
      | None => None
      end
  end.

Fixpoint play (hs : list Happening) (sys : System) : option System :=
  match hs with
  | [] => Some sys
  | h :: hs' =>
      match happen h sys with
      | Some sys' => play hs' sys'
      | None => None
      end
  end.

(** The waits of one flight, one after the other: the number of waits of a
    call whose response is [r]. *)
Definition waits (r : Response) : nat :=
  match r with
  | Rejected | NoBody => 1
  | Body chunks _ => S (S (length chunks))
  end.

(** ** [String.prototype.trim] (Chat.tsx, lines 32 and 46)

    The code points that ECMAScript counts as WhiteSpace or LineTerminator,
    by their UTF-8 bytes: U+0009 to U+000D and U+0020; U+00A0; U+1680,
    U+2000 to U+200A, U+2028, U+2029, U+202F, U+205F, U+3000 and U+FEFF. *)

Definition space1 (c : ascii) : bool :=
  let n := N_of_ascii c in
  (((9 <=? n) && (n <=? 13)) || (n =? 32))%N.

Definition space2 (c1 c2 : ascii) : bool :=
  ((N_of_ascii c1 =? 194) && (N_of_ascii c2 =? 160))%N.

Definition space3 (c1 c2 c3 : ascii) : bool :=
  let n1 := N_of_ascii c1 in
  let n2 := N_of_ascii c2 in
  let n3 := N_of_ascii c3 in
  (((n1 =? 225) && (n2 =? 154) && (n3 =? 128))
   || ((n1 =? 226) && (n2 =? 128)
       && (((128 <=? n3) && (n3 <=? 138)) || (n3 =? 168) || (n3 =? 169) || (n3 =? 175)))
   || ((n1 =? 226) && (n2 =? 129) && (n3 =? 159))
   || ((n1 =? 227) && (n2 =? 128) && (n3 =? 128))
   || ((n1 =? 239) && (n2 =? 187) && (n3 =? 191)))%N.

Fixpoint trimStart (s : string) : string :=
  match s with
  | String c1 r1 =>
      if space1 c1 then trimStart r1
      else
        match r1 with
        | String c2 r2 =>
            if space2 c1 c2 then trimStart r2
            else
              match r2 with
              | String c3 r3 => if space3 c1 c2 c3 then trimStart r3 else s
              | EmptyString => s
              end
        | EmptyString => s
        end
  | EmptyString => s
  end.

(** The longest end of [s] made of white space only is dropped. *)
Fixpoint trimEnd (s : string) : string :=
  match s with
  | String c r =>
      match trimStart s with
      | EmptyString => EmptyString
      | String _ _ => String c (trimEnd r)
      end
  | EmptyString => EmptyString
  end.

Definition trim (s : string) : string := trimEnd (trimStart s).

(** A string used as a condition: the empty string counts as false. *)
Definition truthy (s : string) : bool := negb (String.eqb s EmptyString).

(** ** The message pane (components/Chat.tsx) *)

Module Chat.

(** Lines 17-22. *)
Record Local := mkLocal {
  input : string;
  editingMessageIndex : option nat;
  editedMessage : string;
  isSending : bool
}.

Definition initial : Local := mkLocal EmptyString None EmptyString false.

Definition setInput (v : string) (l : Local) : Local :=
  mkLocal v (editingMessageIndex l) (editedMessage l) (isSending l).

Definition setEditingMessageIndex (v : option nat) (l : Local) : Local :=
  mkLocal (input l) v (editedMessage l) (isSending l).

Definition setEditedMessage (v : string) (l : Local) : Local :=
  mkLocal (input l) (editingMessageIndex l) v (isSending l).

Definition setIsSending (v : bool) (l : Local) : Local :=
  mkLocal (input l) (editingMessageIndex l) (editedMessage l) v.

(** Lines 31-38.  The second component is the argument of the call of
    [sendMessage], when it is called. *)
Definition handleSend (l : Local) : Local * option string :=
  if truthy (trim (input l)) && negb (isSending l)
  then (setIsSending false (setInput EmptyString (setIsSending true l)), Some (input l))
  else (l, None).

(** Lines 40-43. *)
Definition startEditing (index : nat) (currentText : string) (l : Local) : Local :=
  setEditedMessage currentText (setEditingMessageIndex (Some index) l).

(** Lines 45-51.  The second component is the arguments of the call of
    [updateMessage], when it is called. *)
Definition saveEditedMessage (l : Local) : Local * option (nat * string) :=
  match editingMessageIndex l with
  | Some index =>
      if truthy (trim (editedMessage l))
      then (setEditedMessage EmptyString (setEditingMessageIndex None l),
            Some (index, editedMessage l))
      else (l, None)
  | None => (l, None)
  end.

(** Lines 53-56. *)
Definition cancelEditing (l : Local) : Local :=
  setEditedMessage EmptyString (setEditingMessageIndex None l).

(** Line 58: the messages and the input are rendered for a selected thread
    only. *)
Definition bodyShown (selectedChat : option Z) : bool :=
  match selectedChat with
  | Some _ => true
  | None => false
  end.

(** Line 78: the edit icon of a message. *)
Definition editIcon (msg : Message) : bool := isUser msg.

(** Line 91: the editor, with Save and Cancel, in place of message [index]. *)
Definition editorAt (l : Local) (index : nat) (msg : Message) : bool :=
  match editingMessageIndex l with
  | Some e => (e =? index)%nat && isUser msg
  | None => false
  end.

(** Lines 70-120: the editor is on the screen when some message of the view
    shows it. *)
Definition editorShown (l : Local) (messages : list Message) : bool :=
  existsb (fun '(index, msg) => editorAt l index msg) (imap pair messages).

End Chat.

(** ** The thread list (Sidebar: src/unnamed/part_001) *)

Module Sidebar.

(** Lines 30-31. *)
Record Local := mkLocal {
  editingChatId : option Z;
  newChatName : string
}.

Definition initial : Local := mkLocal None EmptyString.

(** Lines 33-36. *)
Definition startEditingChat (chatId : Z) (currentName : string) (l : Local) : Local :=
  mkLocal (Some chatId) currentName.

(** Lines 38-42.  The second component is the arguments of the call of
    [onRenameChat]. *)
Definition handleSaveChatName (chatId : Z) (l : Local) : Local * (Z * string) :=
  (mkLocal None EmptyString, (chatId, newChatName l)).

(** Lines 44-47. *)
Definition handleCancelEdit (l : Local) : Local := mkLocal None EmptyString.

(** Line 92: the item of [chat] shows the name field instead of the name. *)
Definition editing (l : Local) (chat : ChatType) : bool :=
  match editingChatId l with
  | Some e => (e =? ChatType.id chat)%Z
  | None => false
  end.

End Sidebar.

(** ** The screen: what is rendered, and what each control does *)

Record Screen := mkScreen {
  app : State;
  chat : Chat.Local;
  sidebar : Sidebar.Local
}.

(** Every control of the rendered tree, and the two things that happen
    without the user: the answer of [/models] and the timer of the notice.
    An item of the thread list is named by its place [i] in the list. *)
Inductive Action :=
| ClickMenu                                 (* Header: [toggleSidebar] *)
| ClickCloseSidebar                         (* Sidebar, line 63 *)
| ClickNewChat (now : Z) (today : string)   (* Sidebar, line 70 *)
| ClickChat (i : nat) (narrow : bool)       (* line 79; [narrow]: [window.innerWidth < 768] *)
| ClickRename (i : nat)                     (* line 129 *)
| TypeName (i : nat) (value : string)       (* line 98 *)
| ClickSaveName (i : nat)                   (* line 102 *)
| ClickCancelName (i : nat)                 (* line 111 *)
| ClickTrash (i : nat)                      (* line 136 *)
| PickModel (llm : string)                  (* App.tsx, line 256 *)
| TypeInput (value : string)                (* Chat.tsx, line 130 *)
| PressSend (r : Response)                  (* lines 131 and 136 *)
| ClickEdit (index : nat)                   (* line 81 *)
| TypeEdited (value : string)               (* line 96 *)
| ClickSave (r : Response)                  (* line 101 *)
| ClickCancel                               (* line 107 *)
| ClickConfirm                              (* Modal: [onConfirm] *)
| ClickDecline                              (* Modal: [onCancel] *)
| ToastTimeout                              (* Toast: [onClose] *)
| ModelsArrive (r : ModelsResponse).        (* App.tsx, lines 37-54 *)

(** App.tsx, line 244: the picker and the message pane are rendered when
    there are models. *)
Definition paneRendered (st : State) : bool :=
  (0 <? length (models st))%nat && Chat.bodyShown (selectedChat st).

(** What a control does when it is on the screen: the new local states and
    the calls into [App], in order.  [None]: the control is not rendered. *)
Definition fire (a : Action) (s : Screen) : option (Chat.Local * Sidebar.Local * list Event) :=
  let st := app s in
  let same (es : list Event) := Some (chat s, sidebar s, es) in
  let item (i : nat) : option ChatType :=
    if isSidebarOpen st then chats st !! i else None in
  match a with
  | ClickMenu => same [ToggleSidebar]
  | ClickCloseSidebar => if isSidebarOpen st then same [CloseSidebar] else None
  | ClickNewChat now today => if isSidebarOpen st then same [AddChat now today] else None
  | ClickChat i narrow =>
      match item i with
      | Some c => same (SelectChat (ChatType.id c) :: if narrow then [CloseSidebar] else [])
      | None => None
      end
  | ClickRename i =>
      match item i with
      | Some c =>
          if Sidebar.editing (sidebar s) c then None
          else Some (chat s,
                     Sidebar.startEditingChat (ChatType.id c) (ChatType.name c) (sidebar s), [])
      | None => None
      end
  | TypeName i value =>
      match item i with
      | Some c =>
          if Sidebar.editing (sidebar s) c
          then Some (chat s, Sidebar.mkLocal (Sidebar.editingChatId (sidebar s)) value, [])
          else None
      | None => None
      end
  | ClickSaveName i =>
      match item i with
      | Some c =>
          if Sidebar.editing (sidebar s) c
          then let '(l, (chatId, newName)) :=
                 Sidebar.handleSaveChatName (ChatType.id c) (sidebar s) in
               Some (chat s, l, [RenameChat chatId newName])
          else None
      | None => None
      end
  | ClickCancelName i =>
      match item i with
      | Some c =>
          if Sidebar.editing (sidebar s) c
          then Some (chat s, Sidebar.handleCancelEdit (sidebar s), [])
          else None
      | None => None
      end
  | ClickTrash i =>
      match item i with
      | Some c =>
          if Sidebar.editing (sidebar s) c then None else same [DeleteChat (ChatType.id c)]
      | None => None
      end
  | PickModel llm =>
      if (0 <? length (models st))%nat && existsb (String.eqb llm) (models st)
      then same [ChangeLLM llm] else None
  | TypeInput value =>
      if paneRendered st then Some (Chat.setInput value (chat s), sidebar s, []) else None
  | PressSend r =>
      if paneRendered st then
        match Chat.handleSend (chat s) with
        | (l, Some message) => Some (l, sidebar s, [SendMessage message r])
        | (l, None) => Some (l, sidebar s, [])
        end
      else None
  | ClickEdit index =>
      if paneRendered st then
        match messages st !! index with
        | Some msg =>
            if Chat.editIcon msg
            then Some (Chat.startEditing index (text msg) (chat s), sidebar s, [])
            else None
        | None => None
        end
      else None
  | TypeEdited value =>
      if paneRendered st && Chat.editorShown (chat s) (messages st)
      then Some (Chat.setEditedMessage value (chat s), sidebar s, [])
      else None
  | ClickSave r =>
      if paneRendered st && Chat.editorShown (chat s) (messages st) then
        match Chat.saveEditedMessage (chat s) with
        | (l, Some (index, newText)) => Some (l, sidebar s, [EditMessage index newText r])
        | (l, None) => Some (l, sidebar s, [])
        end
      else None
  | ClickCancel =>
      if paneRendered st && Chat.editorShown (chat s) (messages st)
      then Some (Chat.cancelEditing (chat s), sidebar s, [])
      else None
  | ClickConfirm => if isModalOpen st then same [ConfirmDelete] else None
  | ClickDecline => if isModalOpen st then same [CancelDelete] else None
  | ToastTimeout => if isToastVisible st then same [CloseToast] else None
  | ModelsArrive r => same [ModelsFetched r]
  end.

(** The requests an event issues in a state. *)
Definition asked (e : Event) (st : State) : list Request :=
  match e with
  | SendMessage message _ => requests (snd (startSend message None st))
  | EditMessage index newText _ =>
      match updateMessage index newText st with
      | Returned _ started => requests started
      | TypeError _ => []
      end
  | _ => []
  end.

(** An event that ends in an exception. *)
Definition throws (e : Event) (st : State) : bool :=
  match e with
  | EditMessage index newText _ =>
      match updateMessage index newText st with
      | Returned _ _ => false
      | TypeError _ => true
      end
  | _ => false
  end.

(** The message pane is unmounted while there are no models (App.tsx, line
    244), and starts afresh when it is mounted again. *)
Definition remount (s : Screen) : Screen :=
  if (0 <? length (models (app s)))%nat then s
  else mkScreen (app s) Chat.initial (sidebar s).

(** One action: [None] when the control is not on the screen. *)
Definition act (a : Action) (s : Screen) : option Screen :=
  match fire a s with
  | Some (c, sb, es) =>
      match run es (app s) with
      | Some st' => Some (remount (mkScreen st' c sb))
      | None => None
      end
  | None => None
  end.

Fixpoint perform (acts : list Action) (s : Screen) : option Screen :=
  match acts with
  | [] => Some s
  | a :: acts' =>
      match act a s with
      | Some s' => perform acts' s'
      | None => None
      end
  end.

(** The screen right after mounting. *)
Definition firstScreen (st : State) : Screen := mkScreen st Chat.initial Sidebar.initial.

(** ** Splitting a message into text and code ([parseMessage], in the
    message pane with code blocks: src/unnamed/part_002, lines 85-119)

    The expression is [/```(\w+)?\n([\s\S]*?)```/g]: three backquotes, a
    longest run of word characters if there is one, a line feed, then as
    little as possible up to the next three backquotes.  All its literal
    characters are below 128, so it finds the same places in the UTF-8
    bytes as in the UTF-16 units. *)

Module MessagePart.

Inductive kind := Text | Code.

Record t := mk {
  type : kind;
  content : string;
  language : option string
}.

End MessagePart.

Abbreviation MessagePart := MessagePart.t.

Definition fence : string := "```".

Definition newline : ascii := ascii_of_N 10.

(** [\w]: a letter, a digit or the underscore. *)
Definition is_word (c : ascii) : bool :=
  let n := N_of_ascii c in
  (((48 <=? n) && (n <=? 57)) || ((65 <=? n) && (n <=? 90)) || (n =? 95)
   || ((97 <=? n) && (n <=? 122)))%N.

(** [s] without its beginning [p], when it begins with [p]. *)
Fixpoint strip_prefix (p s : string) : option string :=
  match p, s with
  | EmptyString, _ => Some s
  | String a p', String b s' => if Ascii.eqb a b then strip_prefix p' s' else None
  | String _ _, EmptyString => None
  end.

(** The longest run of word characters at the start of [s], and the rest. *)
Fixpoint span_word (s : string) : string * string :=
  match s with
  | String c r =>
      if is_word c then let '(w, rest) := span_word r in (String c w, rest)
      else (EmptyString, s)
  | EmptyString => (EmptyString, EmptyString)
  end.

(** [[\s\S]*?] followed by the fence: what comes before the first fence of
    [s], and what comes after it. *)
Fixpoint until_fence (s : string) : option (string * string) :=
  match strip_prefix fence s with
  | Some rest => Some (EmptyString, rest)
  | None =>
      match s with
      | String c r =>
          match until_fence r with
          | Some (body, rest) => Some (String c body, rest)
          | None => None
          end
      | EmptyString => None
      end
  end.

(** A match of the expression: the first group ([None] when it took no
    part), the second group, and the text after the match. *)
Record Match := mkMatch {
  group1 : option string;
  group2 : string;
  after : string
}.

(** The expression tried at the start of [s].  The run of word characters
    is taken whole: a shorter run, or none, would have to be followed by a
    line feed where a word character stands. *)
Definition match_here (s : string) : option Match :=
  match strip_prefix fence s with
  | Some s1 =>
      let '(w, s2) := span_word s1 in
      match s2 with
      | String c s3 =>
          if Ascii.eqb c newline then
            match until_fence s3 with
            | Some (body, rest) =>
                Some (mkMatch (match w with EmptyString => None | String _ _ => Some w end)
                              body rest)
            | None => None
            end
          else None
      | EmptyString => None
      end
  | None => None
  end.

(** [regex.exec(text)] on what is left of the text from [lastIndex] on: the
    first place where the expression matches, as the text before it and
    the match. *)
Fixpoint exec (s : string) : option (string * Match) :=
  match match_here s with
  | Some m => Some (EmptyString, m)
  | None =>
      match s with
      | String c r =>
          match exec r with
          | Some (before, m) => Some (String c before, m)
          | None => None
          end
      | EmptyString => None
      end
  end.

(** Lines 91-118, on what is left of the text from [lastIndex] on.  Every
    turn of the loop takes a match away from the text; [fuel] bounds the
    number of turns, and [None] means that it ran out. *)
Fixpoint parts_from (fuel : nat) (s : string) : option (list MessagePart) :=
  match fuel with
  | O => None
  | S fuel' =>
      match exec s with
      | Some (before, m) =>
          let textPart :=
            if truthy before then [MessagePart.mk MessagePart.Text before None] else [] in
          let codePart :=
            MessagePart.mk MessagePart.Code (group2 m)
              (Some (match group1 m with Some w => w | None => "plaintext" end)) in
          match parts_from fuel' (after m) with
          | Some parts => Some (textPart ++ codePart :: parts)
          | None => None
          end
      | None =>
          Some (if truthy s then [MessagePart.mk MessagePart.Text s None] else [])
      end
  end.

Definition parseMessage (text : string) : option (list MessagePart) :=
  parts_from (S (String.length text)) text.

(** ** Notions used in the statements *)

(** The texts of [parts] put end to end. *)
Fixpoint joined (parts : list string) : string :=
  match parts with
  | [] => EmptyString
  | s :: parts' => s +:+ joined parts'
  end.


(** A call in mid-stream: the view is the history sent, followed by the
    assistant message that holds the text received so far. *)
Definition streaming (p : Pending) (st : State) : Prop :=
  messages st = updatedChatMessages p ++ [mkMessage (llmResponseText p) false] /\
  llmResponseIndex p = length (updatedChatMessages p).


(** From [st] to [st'] the store has followed the collection: either both
    are as they were, or the store holds what [saveAll] wrote for the new
    collection. *)
Definition tracked (st st' : State) : Prop :=
  (chats st' = chats st /\ localStorage st' = localStorage st) \/
  (exists store, localStorage st' = saveAll (chats st') store).

(** The selected id, if any, is the id of a thread of the collection. *)
Definition selectionExists (st : State) : Prop :=
  forall c, selectedChat st = Some c -> In c (map ChatType.id (chats st)).

(** From [st] to [st'] the ids of the threads and the selection are kept. *)
Definition sameThreads (st st' : State) : Prop :=
  map ChatType.id (chats st') = map ChatType.id (chats st) /\
  selectedChat st' = selectedChat st.

(** Reading one more decimal digit [d] after the number [a]. *)
Definition shift_in (a d : N) : N := (a * 10 + d)%N.

(** The characters a JSON number can start with: the minus sign and the
    digits. *)
Definition starts_number (c : ascii) : bool :=
  ((N_of_ascii c =? 45) || ((48 <=? N_of_ascii c) && (N_of_ascii c <=? 57)))%N.

(** What [JSON.scan_string] reads back for a character printed by
    [JSON.escape]: the control characters without a short escape come back
    as code units, every other character as itself. *)
Definition item_of (c : ascii) : JSON.item :=
  let n := N_of_ascii c in
  if ((n <? 32) && negb ((n =? 8) || (n =? 9) || (n =? 10) || (n =? 12) || (n =? 13)))%N
  then JSON.Unit16 n else JSON.Raw c.

(** A parse that ended, and on success left fewer than [n] characters. *)
Definition rest_below {A : Type} (n : nat) (p : JSON.parsed A) : Prop :=
  match p with
  | JSON.Parsed _ r => String.length r < n
  | JSON.Malformed => True
  | JSON.Exhausted => False
  end.

(** The flight [f] is the call with the closure [p]: the thread, the
    history and the placeholder index are those of [p]. *)
Definition sameCall (p : Pending) (f : Flight) : Prop :=
  target (closure f) = target p /\
  updatedChatMessages (closure f) = updatedChatMessages p /\
  llmResponseIndex (closure f) = llmResponseIndex p.

(** The flight [f] is somewhere in a response with the chunks [chunks]:
    its running text is the decoded chunks read so far, put end to end. *)
Definition reading (chunks : list (list Byte.byte)) (ending : StreamEnd) (f : Flight) : Prop :=
  match script f with
  | ToSettle r => r = Body chunks ending /\ llmResponseText (closure f) = EmptyString
  | ToRead pending e =>
      e = ending /\
      exists read,
        chunks = read ++ pending /\
        llmResponseText (closure f) = joined (map TextDecoder.decode read)
  | Over => True
  end.


(** What a fresh start would hold for [chats]: the value of the stored
    text, when it is followed. *)
Definition loadValue (store : gmap string string) : option JSValue :=
  match loadAll store with
  | JSON.Parsed v _ => JSValue.hold v
  | JSON.Malformed | JSON.Exhausted => None
  end.

(** Every thread of the collection has a safe integer for its id. *)
Definition safeIds (cs : list ChatType) : Prop :=
  Forall (fun c => safe (ChatType.id c) = true) cs.

(** An event in which [Date.now()] gives a safe integer: a time value is
    at most 8.64e15 in magnitude, within the safe integers. *)
Definition timed (e : Event) : Prop :=
  match e with
  | AddChat now _ => safe now = true
  | _ => True
  end.


(** ** Notions used in the further properties *)

(** The state in which a call of [handleSendMessage] leaves [st], the state
    reached at the call of [fetch] with the placeholder shown after [base]:
    what the response [r] makes of it. *)
Definition settled (r : Response) (chat : Z) (base : list Message) (st : State) : State :=
  match r with
  | Rejected | NoBody => st
  | Body chunks ending =>
      let reply := mkMessage (joined (map TextDecoder.decode chunks)) false in
      let shown := setMessages (base ++ [reply]) st in
      match ending with
      | Done => setChats (map (replaceMessages chat (base ++ [reply])) (chats shown)) shown
      | ReadRejected => shown
      end
  end.

(** From [st] to [st'] only the collection, the view and the store may
    have changed. *)
Definition othersKept (st st' : State) : Prop :=
  selectedChat st' = selectedChat st /\ isSidebarOpen st' = isSidebarOpen st /\
  models st' = models st /\ selectedLLM st' = selectedLLM st /\
  isModalOpen st' = isModalOpen st /\ isToastVisible st' = isToastVisible st /\
  toastMessage st' = toastMessage st /\ chatToDelete st' = chatToDelete st.

(** The dialogue is open exactly when a deletion is pending. *)
Definition dialogueConsistent (st : State) : Prop :=
  isModalOpen st = true <-> chatToDelete st <> None.

(** The store holds the text of the collection under its key. *)
Definition stored (st : State) : Prop :=
  getItem "chats" (localStorage st) = Some (JSON.stringify (chats st)).

(** From [st] to [st'] every other key of the store is as it was. *)
Definition otherKeysKept (st st' : State) : Prop :=
  forall key, key <> "chats" -> getItem key (localStorage st') = getItem key (localStorage st).

(** What is shown is what is stored for the selected thread, followed by
    at most one assistant message that is not stored. *)
Definition viewExtendsStored (st : State) : Prop :=
  forall c, selectedChat st = Some c ->
    exists saved, storedMessages c (chats st) = Some saved /\
      (messages st = saved \/ exists t, messages st = saved ++ [mkMessage t false]).

(** Every thread created in the run [es] from [st] gets an id that no
    thread carries at that time. *)
Fixpoint freshAdds (es : list Event) (st : State) : Prop :=
  match es with
  | [] => True
  | e :: es' =>
      match e with
      | AddChat now _ => ~ In now (map ChatType.id (chats st))
      | _ => True
      end /\
      match step e st with
      | Some st' => freshAdds es' st'
      | None => True
      end
  end.

(** A chunk of bytes below 128 only: one byte, one character. *)
Definition plain (value : list Byte.byte) : Prop :=
  Forall (fun b => (Byte.to_N b <= 127)%N) value.

(** A pending deletion names a thread of the collection. *)
Definition pendingExists (st : State) : Prop :=
  forall d, chatToDelete st = Some d -> In d (map ChatType.id (chats st)).

(** When there are models, the selected one is among them. *)
Definition modelChosen (st : State) : Prop :=
  models st <> [] -> In (selectedLLM st) (models st).

(** What a control may ask of [App]: a deletion of a listed thread, a model
    of the list. *)
Definition offered (e : Event) (st : State) : Prop :=
  match e with
  | DeleteChat d => In d (map ChatType.id (chats st))
  | ChangeLLM llm => In llm (models st)
  | _ => True
  end.

(** [s] holds no fence. *)
Definition fenceFree (s : string) : Prop :=
  forall a b, s <> a +:+ fence +:+ b.

(** Every character of [s] is a word character. *)
Fixpoint all_word (s : string) : bool :=
  match s with
  | String c r => is_word c && all_word r
  | EmptyString => true
  end.

(** The text part for [s], if [s] is not empty (lines 93-98 and 111-116). *)
Definition textPart (s : string) : list MessagePart :=
  if truthy s then [MessagePart.mk MessagePart.Text s None] else [].

(** A code block as it is written: the fence, the language, a line feed,
    the code, the fence. *)
Definition block (lang body : string) : string :=
  fence +:+ lang +:+ String newline body +:+ fence.

(** What the loop puts out is well formed: a text part is not empty and
    has no language; a code part holds no fence and has a language, a
    non-empty run of word characters. *)
Definition wellFormed (part : MessagePart) : Prop :=
  match MessagePart.type part with
  | MessagePart.Text =>
      MessagePart.content part <> EmptyString /\ MessagePart.language part = None
  | MessagePart.Code =>
      fenceFree (MessagePart.content part) /\
      exists lang,
        MessagePart.language part = Some lang /\ lang <> EmptyString /\ all_word lang = true
  end.

(** [w] is a way of writing [part]: a text part as its content, a code
    part as a block with its language, or with no language when the
    language is the default. *)
Definition spelled (part : MessagePart) (w : string) : Prop :=
  match MessagePart.type part with
  | MessagePart.Text => w = MessagePart.content part
  | MessagePart.Code =>
      exists lang,
        w = block lang (MessagePart.content part) /\ all_word lang = true /\
        MessagePart.language part = Some (if truthy lang then lang else "plaintext")
  end.

(** The string made of the given bytes. *)
Definition utf8 (bytes : list N) : string :=
  string_of_list_ascii (map ascii_of_N bytes).

(** The white space of ECMAScript, each code point as its UTF-8 bytes:
    U+0009 to U+000D, U+0020, U+00A0, U+1680, U+2000 to U+200A, U+2028,
    U+2029, U+202F, U+205F, U+3000 and U+FEFF. *)
Definition whiteSpace : list string :=
  map utf8
    [[9]; [10]; [11]; [12]; [13]; [32]; [194; 160]; [225; 154; 128];
     [226; 128; 128]; [226; 128; 129]; [226; 128; 130]; [226; 128; 131];
     [226; 128; 132]; [226; 128; 133]; [226; 128; 134]; [226; 128; 135];
     [226; 128; 136]; [226; 128; 137]; [226; 128; 138];
     [226; 128; 168]; [226; 128; 169]; [226; 128; 175]; [226; 129; 159];
     [227; 128; 128]; [239; 187; 191]]%N.

(** The response awaited by the call of [handleSendMessage] that the event
    [e] starts in [st], if it starts one that gets past the guard. *)
Definition awaited (e : Event) (st : State) : option Response :=
  match e with
  | SendMessage message r =>
      match snd (startSend message None st) with
      | Some _ => Some r
      | None => None
      end
  | EditMessage index newText r =>
      match updateMessage index newText st with
      | Returned _ (Some _) => Some r
      | Returned _ None | TypeError _ => None
      end
  | _ => None
  end.

(** The events [es] from [st], one after the other, every call of
    [handleSendMessage] followed by all its waits before anything else
    happens; [n] is the number of calls started before. *)
Fixpoint inTurn (es : list Event) (st : State) (n : nat) : list Happening :=
  match es with
  | [] => []
  | e :: es' =>
      Does e ::
      match awaited e st with
      | Some r => replicate (waits r) (Resumes n)
      | None => []
      end ++
      match step e st with
      | Some st' => inTurn es' st' (match awaited e st with Some _ => S n | None => n end)
      | None => []
      end
  end.

(** A byte that continues a sequence: 128 to 191. *)
Definition continuation (b : Byte.byte) : Prop := (128 <= Byte.to_N b <= 191)%N.

(** A character of more than one byte as UTF-8 writes it: the first byte
    [b1], which tells how many bytes follow and where the first of them
    must lie, and the bytes [conts] that follow it. *)
Definition character (b1 : Byte.byte) (conts : list Byte.byte) : Prop :=
  exists p,
    TextDecoder.lead (ascii_of_byte b1) = (EmptyString, Some p) /\
    length conts = TextDecoder.needed p /\
    Forall continuation conts /\
    match conts with
    | c :: _ =>
        TextDecoder.between (TextDecoder.lower p) (Byte.to_N c) (TextDecoder.upper p) = true
    | [] => False
    end.

(** The three bytes of the byte order mark. *)
Definition byteOrderMark : list Byte.byte := [Byte.xef; Byte.xbb; Byte.xbf].

(** The bytes that may follow in a sequence in progress. *)
Definition follows (p : TextDecoder.partial) (conts : list Byte.byte) : Prop :=
  match conts with
  | c :: rest =>
      TextDecoder.between (TextDecoder.lower p) (Byte.to_N c) (TextDecoder.upper p) = true /\
      Forall continuation rest
  | [] => True
  end.

(** [s] does not end in a backquote. *)
Definition endsPlain (s : string) : Prop :=
  forall a, s <> a +:+ "`".

(** ** States and inputs used as examples *)

(** Two threads loaded, nothing selected, no model. *)
Definition twoThreads : State :=
  initialState
    [ChatType.mk 1 "Chat 1" "1/1/2025" [mkMessage "hello" true; mkMessage "hi there" false];
     ChatType.mk 2 "Chat 2" "1/2/2025" []]
    ∅.

(** An empty store, mounted. *)
Definition freshState : State := persist (initialState [] ∅).

(** Thread 1 selected and shown, but no model chosen. *)
Definition noModel : State := handleSelectChat 1 twoThreads.

(** Thread 1 selected and shown, model [llama3] chosen. *)
Definition chatting : State :=
  setSelectedLLM "llama3" (setModels ["llama3"; "mistral"] noModel).

(** A reply that arrives in three chunks. *)
Definition helloChunks : list (list Byte.byte) :=
  map list_byte_of_string ["Hel"; "lo w"; "orld"].

(** A store whose item is cut off in the middle. *)
Definition brokenStore : gmap string string := {[ "chats" := "[{" ]}.

(** A store holding a number where the collection should be. *)
Definition numberStore : gmap string string := {[ "chats" := "3" ]}.

(** A session: the models arrive, a thread is created and gets a reply, a
    second thread is created, the first is selected again and the deletion
    of the second is asked for. *)
Definition sampleRun : list Event :=
  [ModelsFetched (ModelList ["llama3"]);
   AddChat 1 "11/2/2026";
   SendMessage "hi" (Body helloChunks Done);
   AddChat 2 "11/2/2026";
   SelectChat 1;
   DeleteChat 2].

(** A store that also holds an item of its own under another key. *)
Definition themedStore : gmap string string := {[ "theme" := "dark" ]}.

(** The bytes of [caf], and the two bytes of the letter e with an acute
    accent. *)
Definition cafBytes : list Byte.byte := list_byte_of_string "caf".
Definition eAcute : Byte.byte * Byte.byte := (Byte.xc3, Byte.xa9).

(** A session at the screen: the models arrive, a thread is created, a
    message is sent and answered, the message is opened for editing and a
    new text typed; then a new message is typed and the deletion of the
    thread is asked for. *)
Definition sampleActs : list Action :=
  [ModelsArrive (ModelList ["llama3"]);
   ClickNewChat 1 "11/2/2026";
   TypeInput "hi";
   PressSend (Body helloChunks Done);
   ClickEdit 0;
   TypeEdited "hey";
   TypeInput "more";
   ClickTrash 0].

Definition sampleScreen : Screen :=
  default (firstScreen freshState) (perform sampleActs (firstScreen freshState)).

(** A reply with a code block, and the reply while the block is still
    being received. *)
Definition lineFeed : string := String newline EmptyString.

Definition sampleReply : string :=
  ("Use `map`:" +:+ lineFeed) +:+ block "js" ("xs.map(f)" +:+ lineFeed) +:+ " Done.".

Definition partialReply : string :=
  ("Use `map`:" +:+ lineFeed) +:+ fence +:+ "js" +:+ lineFeed +:+ "xs.ma".

(** Two threads with a message each; the message of the second is being
    edited. *)
Definition editingActs : list Action :=
  [ModelsArrive (ModelList ["llama3"]);
   ClickNewChat 1 "11/2/2026";
   TypeInput "hi";
   PressSend (Body helloChunks Done);
   ClickNewChat 2 "11/2/2026";
   TypeInput "yo";
   PressSend NoBody;
   ClickEdit 0;
   TypeEdited "hey"].

Definition editingScreen : Screen :=
  default (firstScreen freshState) (perform editingActs (firstScreen freshState)).

(** A space, an em space (U+2003) and a line feed. *)
Definition emSpace : string := utf8 [226; 128; 131]%N.

Definition blankInput : string := " " +:+ emSpace +:+ lineFeed.



(** A send in a new thread whose thread is selected again while the reply
    is on its way: the models arrive, a thread is created, a message is
    sent, [fetch] settles, and the thread is clicked in the list. *)
Definition reselected : list Happening :=
  [Does (ModelsFetched (ModelList ["llama3"]));
   Does (AddChat 1 "11/2/2026");
   Does (SendMessage "hi" (Body helloChunks Done));
   Resumes 0;
   Does (SelectChat 1)].

(** A store with the two threads of [twoThreads], and a session at the
    screen in which the only model of the list has the empty name: the
    first thread is selected, its first message opened for editing and a
    new text typed. *)
Definition savedStore : gmap string string := saveAll (chats twoThreads) ∅.

Definition unnamedActs : list Action :=
  [ModelsArrive (ModelList [EmptyString]);
   ClickChat 0 false;
   ClickEdit 0;
   TypeEdited "good morning"].

(** The three bytes of the euro sign (U+20AC). *)
Definition euro : list Byte.byte := [Byte.xe2; Byte.x82; Byte.xac].

(** * Properties *)

(** ** Setters *)

Lemma setMessages_same st : setMessages (messages st) st = st.
Proof. by destruct st. Qed.

(** ** Looking a thread up by id *)

Section Threads.

Implicit Types (cs : list ChatType) (chatId : Z).

Lemma find_id_Some cs chatId chat :
  find (fun c => (ChatType.id c =? chatId)%Z) cs = Some chat ->
  In chat cs /\ ChatType.id chat = chatId.
Proof.
  intros H. apply find_some in H as [Hin Heq]. split; [done | lia].
Qed.

Lemma find_id_None cs chatId :
  ~ In chatId (map ChatType.id cs) ->
  find (fun c => (ChatType.id c =? chatId)%Z) cs = None.
Proof.
  induction cs as [| c cs IH]; simpl; [done |].
  intros Hnot. destruct (Z.eqb_spec (ChatType.id c) chatId) as [Heq | _].
  - exfalso. apply Hnot. by left.
  - apply IH. intros Hin. apply Hnot. by right.
Qed.

Lemma find_id_present cs chatId :
  In chatId (map ChatType.id cs) ->
  exists chat, find (fun c => (ChatType.id c =? chatId)%Z) cs = Some chat.
Proof.
  induction cs as [| c cs IH]; simpl; [done |].
  intros [Hc | Hin].
  - exists c. by rewrite Hc, Z.eqb_refl.
  - destruct (ChatType.id c =? chatId)%Z; eauto.
Qed.

Lemma replaceMessages_id chatId ms (c : ChatType) :
  ChatType.id (replaceMessages chatId ms c) = ChatType.id c.
Proof. unfold replaceMessages. by destruct (ChatType.id c =? chatId)%Z. Qed.

Lemma replaceMessages_hit chatId ms (c : ChatType) :
  ChatType.id c = chatId ->
  ChatType.messages (replaceMessages chatId ms c) = ms.
Proof. intros <-. unfold replaceMessages. by rewrite Z.eqb_refl. Qed.

Lemma replaceMessages_miss chatId ms (c : ChatType) :
  ChatType.id c <> chatId -> replaceMessages chatId ms c = c.
Proof.
  intros Hne. unfold replaceMessages.
  by destruct (Z.eqb_spec (ChatType.id c) chatId).
Qed.

Lemma storedMessages_replace cs chatId ms :
  In chatId (map ChatType.id cs) ->
  storedMessages chatId (map (replaceMessages chatId ms) cs) = Some ms.
Proof.
  unfold storedMessages.
  induction cs as [| c cs IH]; simpl; [done |].
  rewrite replaceMessages_id.
  destruct (Z.eqb_spec (ChatType.id c) chatId) as [Heq | Hne]; simpl.
  - intros _. by rewrite replaceMessages_hit.
  - intros [Hc | Hin]; [done | by apply IH].
Qed.

Lemma storedMessages_replace_other cs chatId other ms :
  other <> chatId ->
  storedMessages other (map (replaceMessages chatId ms) cs) = storedMessages other cs.
Proof.
  intros Hne. unfold storedMessages.
  induction cs as [| c cs IH]; simpl; [done |].
  rewrite replaceMessages_id.
  destruct (Z.eqb_spec (ChatType.id c) other) as [Heq | Hne']; simpl.
  - rewrite replaceMessages_miss; [done | congruence].
  - apply IH.
Qed.

Lemma replaceMessages_ids cs chatId ms :
  map ChatType.id (map (replaceMessages chatId ms) cs) = map ChatType.id cs.
Proof.
  rewrite map_map. apply map_ext. intros c. unfold replaceMessages.
  by destruct (ChatType.id c =? chatId)%Z.
Qed.

End Threads.

(** ** Selecting a thread *)

(** C7.  Selecting an id that some thread of the collection carries makes it
    the selected id and puts that thread's messages in the view, the
    collection staying as it was; selecting an id that no thread carries
    changes nothing at all. *)
Theorem handleSelectChat_spec (st : State) (chatId : Z) :
  (In chatId (map ChatType.id (chats st)) ->
     selectedChat (handleSelectChat chatId st) = Some chatId /\
     storedMessages chatId (chats st) = Some (messages (handleSelectChat chatId st)) /\
     (exists chat, In chat (chats st) /\ ChatType.id chat = chatId /\
                   messages (handleSelectChat chatId st) = ChatType.messages chat) /\
     chats (handleSelectChat chatId st) = chats st /\
     localStorage (handleSelectChat chatId st) = localStorage st) /\
  (~ In chatId (map ChatType.id (chats st)) ->
     handleSelectChat chatId st = st /\
     selectedChat (handleSelectChat chatId st) = selectedChat st /\
     messages (handleSelectChat chatId st) = messages st).
Proof.
  split.
  - intros Hin. destruct (find_id_present _ _ Hin) as [chat Hfind].
    unfold handleSelectChat, storedMessages. rewrite Hfind. simpl.
    destruct (find_id_Some _ _ _ Hfind) as [Hmem Hid].
    repeat split; try done. by exists chat.
  - intros Hnot. unfold handleSelectChat. by rewrite (find_id_None _ _ Hnot).
Qed.

Lemma handleSelectChat_spec_witness :
  (In 1%Z (map ChatType.id (chats twoThreads)) /\
   selectedChat (handleSelectChat 1 twoThreads) = Some 1%Z) /\
  (~ In 5%Z (map ChatType.id (chats twoThreads)) /\
   handleSelectChat 5 twoThreads = twoThreads).
Proof.
  split.
  - assert (Hin : In 1%Z (map ChatType.id (chats twoThreads))) by (simpl; tauto).
    split; [exact Hin |].
    exact (proj1 (proj1 (handleSelectChat_spec twoThreads 1) Hin)).
  - assert (Hnot : ~ In 5%Z (map ChatType.id (chats twoThreads))).
    { simpl. intros [H | [H | []]]; discriminate H. }
    split; [exact Hnot |].
    exact (proj1 (proj2 (handleSelectChat_spec twoThreads 5) Hnot)).
Defined.

(** ** The model list *)

Lemma mount_Ready store st :
  mount store = Ready st ->
  exists cs, st = persist (initialState cs store).
Proof.
  unfold mount. destruct (loadAll store) as [v rest | |]; [| done | done].
  destruct (to_chats v) as [cs |]; [| done].
  intros [= <-]. by exists cs.
Qed.

(** C8.  At start-up, when the request for the models fails (the fetch is
    rejected, the status is not a success, or the body cannot be read), the
    model list stays empty, no model is selected and the panel shows the
    no-models notice; when it answers a non-empty list, the list is kept in
    the order received and its first entry becomes the selected model; when
    it answers the empty list, no model is selected. *)
Theorem fetchModels_startup (store : gmap string string) (st : State) :
  mount store = Ready st ->
  (forall r, r = FetchRejected \/ r = NotOk \/ r = BadBody ->
     models (fetchModels r st) = [] /\
     selectedLLM (fetchModels r st) = EmptyString /\
     mainPanel (fetchModels r st) = NoModelsNotice) /\
  (forall m ms,
     models (fetchModels (ModelList (m :: ms)) st) = m :: ms /\
     selectedLLM (fetchModels (ModelList (m :: ms)) st) = m /\
     mainPanel (fetchModels (ModelList (m :: ms)) st) = ModelPickerAndChat (m :: ms) m) /\
  (models (fetchModels (ModelList []) st) = [] /\
   selectedLLM (fetchModels (ModelList []) st) = EmptyString /\
   mainPanel (fetchModels (ModelList []) st) = NoModelsNotice).
Proof.
  intros Hmount. destruct (mount_Ready _ _ Hmount) as [cs ->].
  split; [| split].
  - by intros r [-> | [-> | ->]].
  - done.
  - done.
Qed.

Lemma fetchModels_startup_witness :
  mount ∅ = Ready freshState /\
  selectedLLM (fetchModels (ModelList ["a"; "b"]) freshState) = "a" /\
  mainPanel (fetchModels (ModelList []) freshState) = NoModelsNotice /\
  mainPanel (fetchModels NotOk freshState) = NoModelsNotice.
Proof.
  assert (Hmount : mount ∅ = Ready freshState) by (vm_compute; reflexivity).
  pose proof (fetchModels_startup ∅ freshState Hmount) as [Hfail [Hsome Hnone]].
  split; [exact Hmount |].
  split; [exact (proj1 (proj2 (Hsome "a" ["b"]))) |].
  split; [exact (proj2 (proj2 Hnone)) |].
  exact (proj2 (proj2 (Hfail NotOk (or_intror (or_introl eq_refl))))).
Defined.

(** ** The guard of a send *)

(** C6.  With no thread selected, or with no model selected, a call of
    [handleSendMessage] issues no request and leaves the whole state as it
    was: the thread collection, the live view and the store. *)
Theorem handleSendMessage_guard (st : State) (message : string)
    (updatedMessages : option (list Message)) (r : Response) :
  selectedChat st = None \/ selectedLLM st = EmptyString ->
  startSend message updatedMessages st = (st, None) /\
  requests (snd (startSend message updatedMessages st)) = [] /\
  handleSendMessage message updatedMessages r st = Some st.
Proof.
  intros Hguard.
  assert (Hstart : startSend message updatedMessages st = (st, None)).
  { unfold startSend. destruct Hguard as [-> | ->]; [done |].
    by destruct (selectedChat st). }
  unfold handleSendMessage. by rewrite Hstart.
Qed.

Lemma handleSendMessage_guard_witness :
  (selectedChat twoThreads = None \/ selectedLLM twoThreads = EmptyString) /\
  handleSendMessage "hello" None NoBody twoThreads = Some twoThreads.
Proof.
  assert (Hguard : selectedChat twoThreads = None \/ selectedLLM twoThreads = EmptyString)
    by (left; reflexivity).
  split; [exact Hguard |].
  exact (proj2 (proj2 (handleSendMessage_guard twoThreads "hello" None NoBody Hguard))).
Defined.

(** ** Deleting a thread *)

(** C4, as amended.  Deletion has two phases.  Asking to delete a thread
    records its id and opens the dialogue, and leaves the collection, the
    selection, the view and the store as they were.  Declining closes the
    dialogue and forgets the id; from a state with no dialogue open, asking
    and declining gives back the very same state.  Confirming removes the
    threads that carry the recorded id and no other, keeps the rest in
    order, stores the new collection, and clears the selection and the view
    whichever thread was selected. *)
Theorem delete_two_phase (st : State) (d : Z) :
  (chats (handleDeleteChat d st) = chats st /\
   selectedChat (handleDeleteChat d st) = selectedChat st /\
   messages (handleDeleteChat d st) = messages st /\
   localStorage (handleDeleteChat d st) = localStorage st /\
   chatToDelete (handleDeleteChat d st) = Some d /\
   isModalOpen (handleDeleteChat d st) = true) /\
  (chats (closeModal (handleDeleteChat d st)) = chats st /\
   selectedChat (closeModal (handleDeleteChat d st)) = selectedChat st /\
   messages (closeModal (handleDeleteChat d st)) = messages st /\
   localStorage (closeModal (handleDeleteChat d st)) = localStorage st /\
   chatToDelete (closeModal (handleDeleteChat d st)) = None /\
   (isModalOpen st = false -> chatToDelete st = None ->
    closeModal (handleDeleteChat d st) = st)) /\
  (chats (confirmDeleteChat (handleDeleteChat d st))
     = filter (fun chat => ChatType.id chat <> d) (chats st) /\
   (forall c, In c (chats (confirmDeleteChat (handleDeleteChat d st)))
              <-> In c (chats st) /\ ChatType.id c <> d) /\
   localStorage (confirmDeleteChat (handleDeleteChat d st))
     = saveAll (filter (fun chat => ChatType.id chat <> d) (chats st)) (localStorage st) /\
   selectedChat (confirmDeleteChat (handleDeleteChat d st)) = None /\
   messages (confirmDeleteChat (handleDeleteChat d st)) = [] /\
   chatToDelete (confirmDeleteChat (handleDeleteChat d st)) = None /\
   isModalOpen (confirmDeleteChat (handleDeleteChat d st)) = false).
Proof.
  split; [| split].
  - by repeat split.
  - repeat split; try done.
    intros Hclosed Hnone. destruct st; simpl in *; subst; reflexivity.
  - split; [done |]. split; [| by repeat split].
    intros c. simpl. rewrite <- !list_elem_of_In, list_elem_of_filter. tauto.
Qed.

Lemma delete_two_phase_witness :
  isModalOpen chatting = false /\ chatToDelete chatting = None /\
  closeModal (handleDeleteChat 2 chatting) = chatting.
Proof.
  assert (Hclosed : isModalOpen chatting = false) by reflexivity.
  assert (Hnone : chatToDelete chatting = None) by reflexivity.
  split; [exact Hclosed |]. split; [exact Hnone |].
  destruct (delete_two_phase chatting 2) as [_ [Hdecline _]].
  exact (proj2 (proj2 (proj2 (proj2 (proj2 Hdecline)))) Hclosed Hnone).
Defined.

(** C4 as stated fails: with thread 1 selected, deleting thread 2 and
    confirming clears the selection and empties the view. *)
Lemma confirmDeleteChat_clears_other_selection :
  selectedChat chatting = Some 1%Z /\
  messages chatting = [mkMessage "hello" true; mkMessage "hi there" false] /\
  map ChatType.id (chats (confirmDeleteChat (handleDeleteChat 2 chatting))) = [1%Z] /\
  selectedChat (confirmDeleteChat (handleDeleteChat 2 chatting)) = None /\
  selectedChat (confirmDeleteChat (handleDeleteChat 2 chatting)) <> selectedChat chatting /\
  messages (confirmDeleteChat (handleDeleteChat 2 chatting)) = [].
Proof. vm_compute. repeat split. discriminate. Qed.

(** ** Text *)

Lemma append_cons (c : ascii) (s t : string) : String c s +:+ t = String c (s +:+ t).
Proof. reflexivity. Qed.

Lemma append_nil_l (s : string) : EmptyString +:+ s = s.
Proof. reflexivity. Qed.

Lemma append_nil_r (s : string) : s +:+ EmptyString = s.
Proof. induction s as [| c s IH]; [done | by rewrite append_cons, IH]. Qed.

Lemma append_assoc (s t u : string) : (s +:+ t) +:+ u = s +:+ t +:+ u.
Proof. induction s as [| c s IH]; [done | by rewrite !append_cons, IH]. Qed.

Lemma length_append (s t : string) :
  String.length (s +:+ t) = String.length s + String.length t.
Proof. induction s as [| c s IH]; [done | rewrite append_cons; simpl; by rewrite IH]. Qed.


(** ** Decoding a chunk *)

(** Text in ASCII is decoded to itself. *)
Example decode_ascii :
  map TextDecoder.decode helloChunks = ["Hel"; "lo w"; "orld"].
Proof. reflexivity. Qed.

(** Every chunk is decoded on its own: the two bytes of one character,
    arriving in two chunks, give two replacement characters. *)
Example decode_split_sequence :
  TextDecoder.decode [Byte.xc3; Byte.xa9]
    = String (ascii_of_N 195) (String (ascii_of_N 169) EmptyString) /\
  TextDecoder.decode [Byte.xc3] +:+ TextDecoder.decode [Byte.xa9]
    = TextDecoder.replacement +:+ TextDecoder.replacement.
Proof. split; reflexivity. Qed.

(** ** One call of [handleSendMessage], step by step *)

Section Send.

Lemma dense_Some {A : Type} (l : list A) : dense (Some <$> l) = Some l.
Proof. induction l as [| x l IH]; [done |]. rewrite fmap_cons. cbn [dense]. by rewrite IH. Qed.

Lemma dense_hole {A : Type} (l : list A) (rest : list (option A)) :
  dense ((Some <$> l) ++ None :: rest) = None.
Proof.
  induction l as [| x l IH]; [done |].
  rewrite fmap_cons, <- app_comm_cons. cbn [dense]. by rewrite IH.
Qed.

(** Within range, [array_set] touches one index and keeps the length. *)
Lemma array_set_frame {A : Type} (a : list A) (i : nat) (x : A) :
  i < length a ->
  exists a', array_set a i x = Some a' /\
             length a' = length a /\
             a' !! i = Some x /\
             forall j, j <> i -> a' !! j = a !! j.
Proof.
  intros Hi. unfold array_set, array_assign.
  destruct (Nat.ltb_spec i (length a)); [| lia].
  rewrite dense_Some. eexists. split; [reflexivity |].
  split; [apply length_insert |].
  split; [by apply list_lookup_insert_eq |].
  intros j Hj. by apply list_lookup_insert_ne.
Qed.

(** At the end it appends; past the end it leaves empty slots, and the
    result is no list of messages. *)
Lemma array_set_end {A : Type} (a : list A) (x : A) :
  array_set a (length a) x = Some (a ++ [x]).
Proof.
  unfold array_set, array_assign. rewrite Nat.ltb_irrefl, Nat.sub_diag. simpl.
  change [Some x] with (Some <$> [x]). by rewrite <- fmap_app, dense_Some.
Qed.

Lemma array_set_past {A : Type} (a : list A) (i : nat) (x : A) :
  length a < i ->
  array_assign a i x = (Some <$> a) ++ replicate (i - length a) None ++ [Some x] /\
  length (array_assign a i x) = S i /\
  array_set a i x = None.
Proof.
  intros Hi. unfold array_set, array_assign.
  destruct (Nat.ltb_spec i (length a)); [lia |].
  split; [done |]. split.
  - rewrite !length_app, length_fmap, length_replicate. simpl. lia.
  - destruct (i - length a) as [| n] eqn:Hn; [lia |]. simpl. apply dense_hole.
Qed.

Example array_assign_past_end :
  array_assign [mkMessage "a" true; mkMessage "b" false] 4 (mkMessage "c" false)
    = [Some (mkMessage "a" true); Some (mkMessage "b" false); None; None;
       Some (mkMessage "c" false)].
Proof. reflexivity. Qed.

Lemma array_set_last {A : Type} (base : list A) (x y : A) :
  array_set (base ++ [x]) (length base) y = Some (base ++ [y]).
Proof.
  unfold array_set, array_assign. rewrite length_app. simpl.
  destruct (Nat.ltb_spec (length base) (length base + 1)); [| lia].
  rewrite dense_Some. f_equal.
  replace (length base) with (length base + 0) at 1 by lia.
  by rewrite insert_app_r.
Qed.

Lemma onChunk_frame value p st :
  llmResponseIndex p < length (messages st) ->
  exists st' p',
    onChunk value p st = Some (st', p') /\
    length (messages st') = length (messages st) /\
    messages st' !! llmResponseIndex p
      = Some (mkMessage (llmResponseText p +:+ TextDecoder.decode value) false) /\
    (forall j, j <> llmResponseIndex p -> messages st' !! j = messages st !! j).
Proof.
  intros Hidx. unfold onChunk.
  destruct (array_set_frame (messages st) (llmResponseIndex p)
              (mkMessage (llmResponseText p +:+ TextDecoder.decode value) false) Hidx)
    as (view & -> & Hlen & Hat & Hother).
  eexists _, _. split; [reflexivity |]. by repeat split.
Qed.

Lemma startSend_Some message updatedMessages st st1 req p :
  startSend message updatedMessages st = (st1, Some (req, p)) ->
  exists chat,
    selectedChat st = Some chat /\ selectedLLM st <> EmptyString /\
    let base := match updatedMessages with
                | Some ms => ms
                | None => messages st ++ [mkMessage message true]
                end in
    req = mkRequest message (selectedLLM st) base chat /\
    p = mkPending chat base (length base) EmptyString /\
    st1 = setMessages (base ++ [mkMessage EmptyString false])
            match updatedMessages with
            | Some _ => st
            | None => setChats (map (replaceMessages chat base) (chats st))
                               (setMessages base st)
            end.
Proof.
  unfold startSend. destruct (selectedChat st) as [chat |]; [| done].
  destruct (String.eqb_spec (selectedLLM st) EmptyString) as [| Hllm]; [done |].
  destruct updatedMessages as [ms |]; intros [= <- <- <-]; by exists chat.
Qed.

Lemma startSend_guarded message updatedMessages st chat :
  selectedChat st = Some chat -> selectedLLM st <> EmptyString ->
  exists st1 req p, startSend message updatedMessages st = (st1, Some (req, p)).
Proof.
  intros Hsel Hllm. unfold startSend. rewrite Hsel.
  destruct (String.eqb_spec (selectedLLM st) EmptyString); [done |].
  destruct updatedMessages; eauto.
Qed.

Lemma startSend_streaming message updatedMessages st st1 req p :
  startSend message updatedMessages st = (st1, Some (req, p)) ->
  streaming p st1 /\ llmResponseText p = EmptyString /\
  updatedChatMessages p = history req /\ target p = chat_id req.
Proof.
  intros H. destruct (startSend_Some _ _ _ _ _ _ H) as (chat & _ & _ & -> & -> & ->).
  by destruct updatedMessages.
Qed.

Lemma onChunk_streaming value p st :
  streaming p st ->
  onChunk value p st =
    Some (setMessages
            (updatedChatMessages p
               ++ [mkMessage (llmResponseText p +:+ TextDecoder.decode value) false]) st,
          mkPending (target p) (updatedChatMessages p) (llmResponseIndex p)
            (llmResponseText p +:+ TextDecoder.decode value)).
Proof.
  intros [Hview Hidx]. unfold onChunk. rewrite Hview, Hidx.
  by rewrite array_set_last.
Qed.

Lemma streaming_next value p st :
  streaming p st ->
  streaming
    (mkPending (target p) (updatedChatMessages p) (llmResponseIndex p)
       (llmResponseText p +:+ TextDecoder.decode value))
    (setMessages
       (updatedChatMessages p
          ++ [mkMessage (llmResponseText p +:+ TextDecoder.decode value) false]) st).
Proof. intros [_ Hidx]. by split. Qed.

Lemma streaming_next_all chunks p st :
  streaming p st ->
  streaming
    (mkPending (target p) (updatedChatMessages p) (llmResponseIndex p)
       (llmResponseText p +:+ joined (map TextDecoder.decode chunks)))
    (setMessages
       (updatedChatMessages p
          ++ [mkMessage (llmResponseText p +:+ joined (map TextDecoder.decode chunks)) false])
       st).
Proof. intros [_ Hidx]. by split. Qed.

Lemma readAll_streaming chunks p st :
  streaming p st ->
  readAll chunks p st =
    Some (setMessages
            (updatedChatMessages p
               ++ [mkMessage (llmResponseText p +:+ joined (map TextDecoder.decode chunks)) false]) st,
          mkPending (target p) (updatedChatMessages p) (llmResponseIndex p)
            (llmResponseText p +:+ joined (map TextDecoder.decode chunks))).
Proof.
  revert p st. induction chunks as [| value chunks IH]; intros p st Hs; simpl.
  - rewrite append_nil_r. destruct Hs as [Hview Hidx].
    rewrite <- Hview, setMessages_same. by destruct p.
  - rewrite (onChunk_streaming _ _ _ Hs).
    rewrite (IH _ _ (streaming_next value _ _ Hs)).
    simpl. by rewrite append_assoc.
Qed.


Lemma liveViews_last chunks p st st' p' :
  readAll chunks p st = Some (st', p') ->
  last (liveViews chunks p st) = Some (messages st').
Proof.
  revert p st. induction chunks as [| value chunks IH]; intros p st; simpl.
  - by intros [= <- _].
  - destruct (onChunk value p st) as [[st1 p1] |]; [| done].
    intros Hrest. specialize (IH _ _ Hrest).
    destruct (liveViews chunks p1 st1) as [| view views] eqn:Hviews; [done |].
    by rewrite last_cons, IH.
Qed.

End Send.

(** ** The selection is always a thread of the collection *)

Section Selection.

Lemma sameThreads_refl st : sameThreads st st.
Proof. by split. Qed.

Lemma sameThreads_trans a b c : sameThreads a b -> sameThreads b c -> sameThreads a c.
Proof. intros [Hi1 Hs1] [Hi2 Hs2]. split; congruence. Qed.

Lemma sameThreads_selection st st' :
  sameThreads st st' -> selectionExists st -> selectionExists st'.
Proof. intros [Hids Hsel] Hex c Hc. rewrite Hids. apply Hex. congruence. Qed.

Lemma startSend_sameThreads message updatedMessages st :
  sameThreads st (fst (startSend message updatedMessages st)).
Proof.
  unfold startSend. destruct (selectedChat st) as [chat |] eqn:Hsel; [| apply sameThreads_refl].
  destruct (String.eqb (selectedLLM st) EmptyString); [apply sameThreads_refl |].
  destruct updatedMessages as [ms |]; split; simpl; try done.
  apply replaceMessages_ids.
Qed.

Lemma readAll_sameThreads chunks p st st' p' :
  readAll chunks p st = Some (st', p') -> sameThreads st st'.
Proof.
  revert p st. induction chunks as [| value chunks IH]; intros p st; simpl.
  - intros [= <- _]. apply sameThreads_refl.
  - unfold onChunk. destruct (array_set _ _ _) as [view |]; [| done].
    intros Hrest. apply IH in Hrest. destruct Hrest as [Hids Hsel]. by split.
Qed.

Lemma finishSend_sameThreads r p st st' :
  finishSend r p st = Some st' -> sameThreads st st'.
Proof.
  unfold finishSend. destruct r as [| | chunks ending].
  - intros [= <-]. apply sameThreads_refl.
  - intros [= <-]. apply sameThreads_refl.
  - destruct (readAll chunks p st) as [[st1 p1] |] eqn:Hread; [| done].
    apply readAll_sameThreads in Hread.
    destruct ending; intros [= <-]; [| done].
    eapply sameThreads_trans; [exact Hread |].
    split; [apply replaceMessages_ids | done].
Qed.

Lemma updateMessage_sameThreads index newText st :
  match updateMessage index newText st with
  | Returned st' _ | TypeError st' => sameThreads st st'
  end.
Proof.
  unfold updateMessage. destruct (selectedChat st) as [chat |]; [| apply sameThreads_refl].
  destruct (_ !! index) as [m |].
  - match goal with
    | |- context [startSend ?t ?u ?s] =>
        pose proof (startSend_sameThreads t u s) as Hstart;
        destruct (startSend t u s) as [st2 started]
    end.
    simpl in Hstart. eapply sameThreads_trans; [| exact Hstart].
    split; [apply replaceMessages_ids | done].
  - split; [apply replaceMessages_ids | done].
Qed.

Lemma step_selection e st st' :
  step e st = Some st' -> selectionExists st -> selectionExists st'.
Proof.
  destruct e; simpl.
  - intros [= <-] Hex. unfold handleSelectChat.
    destruct (find _ (chats st)) as [chat |] eqn:Hfind; [| done].
    destruct (find_id_Some _ _ _ Hfind) as [Hin Hid].
    intros c [= <-]. simpl. rewrite <- Hid. by apply in_map.
  - intros [= <-] _ c [= <-]. simpl. rewrite map_app. apply in_or_app. right. by left.
  - intros [= <-]. apply sameThreads_selection. split; [| done].
    simpl. rewrite map_map. apply map_ext. intros c. unfold rename.
    by destruct (ChatType.id c =? chatId)%Z.
  - intros [= <-]. by apply sameThreads_selection.
  - intros [= <-] Hex. unfold confirmDeleteChat. by destruct (chatToDelete st).
  - intros [= <-]. by apply sameThreads_selection.
  - unfold handleSendMessage.
    pose proof (startSend_sameThreads message None st) as Hstart.
    destruct (startSend message None st) as [st1 [[req p] |]]; simpl in Hstart.
    + intros Hfinish. apply sameThreads_selection.
      eapply sameThreads_trans; [exact Hstart | by eapply finishSend_sameThreads].
    + intros [= <-]. by apply sameThreads_selection.
  - pose proof (updateMessage_sameThreads index newText st) as Hedit.
    destruct (updateMessage index newText st) as [st1 [[req p] |] | st1].
    + intros Hfinish. apply sameThreads_selection.
      eapply sameThreads_trans; [exact Hedit | by eapply finishSend_sameThreads].
    + intros [= <-]. by apply sameThreads_selection.
    + intros [= <-]. by apply sameThreads_selection.
  - intros [= <-]. by apply sameThreads_selection.
  - intros [= <-]. apply sameThreads_selection. unfold fetchModels.
    destruct r as [| | | [| m ms]]; by split.
  - intros [= <-]. by apply sameThreads_selection.
  - intros [= <-]. by apply sameThreads_selection.
  - intros [= <-]. by apply sameThreads_selection.
Qed.

(** In every state reached from a mounted one, the selected id is the id
    of a thread of the collection. *)
Lemma run_selection store st es st' :
  mount store = Ready st -> run es st = Some st' -> selectionExists st'.
Proof.
  intros Hmount. destruct (mount_Ready _ _ Hmount) as [cs ->].
  assert (Hinit : selectionExists (persist (initialState cs store))) by (intros c; done).
  clear Hmount. revert Hinit. generalize (persist (initialState cs store)).
  induction es as [| e es IH]; intros s Hs; simpl.
  - by intros [= <-].
  - destruct (step e s) as [s1 |] eqn:Hstep; [| done].
    apply IH. by eapply step_selection.
Qed.

End Selection.

(** ** Streaming a reply *)

(** ** A send that gets no body *)

(** C3, as amended.  When a fresh send passes the guard and the request
    fails before a body is available (the fetch is rejected, the status is
    not a success, or the body is missing), the stored sequence of the
    selected thread becomes the view as it was followed by the user's
    message, the view becomes that sequence followed by an assistant
    placeholder with empty text, the store holds the new collection, and
    nothing else changes.  So when the view showed exactly the stored
    sequence, the stored sequence gains the user's message and no assistant
    entry. *)
Theorem failed_send (st : State) (chat : Z) (message : string) (r : Response) :
  selectedChat st = Some chat ->
  selectedLLM st <> EmptyString ->
  r = NoBody \/ r = Rejected ->
  exists st',
    handleSendMessage message None r st = Some st' /\
    chats st' = map (replaceMessages chat (messages st ++ [mkMessage message true])) (chats st) /\
    localStorage st' = saveAll (chats st') (localStorage st) /\
    messages st' = messages st ++ [mkMessage message true] ++ [mkMessage EmptyString false] /\
    (selectedChat st' = selectedChat st /\ models st' = models st /\
     selectedLLM st' = selectedLLM st /\ isSidebarOpen st' = isSidebarOpen st /\
     isModalOpen st' = isModalOpen st /\ isToastVisible st' = isToastVisible st /\
     toastMessage st' = toastMessage st /\ chatToDelete st' = chatToDelete st) /\
    (forall other, other <> chat ->
       storedMessages other (chats st') = storedMessages other (chats st)) /\
    (In chat (map ChatType.id (chats st)) ->
       storedMessages chat (chats st') = Some (messages st ++ [mkMessage message true])) /\
    (forall store st0 es,
       mount store = Ready st0 -> run es st0 = Some st ->
       storedMessages chat (chats st') = Some (messages st ++ [mkMessage message true])) /\
    (forall stored, storedMessages chat (chats st) = Some stored -> messages st = stored ->
       storedMessages chat (chats st') = Some (stored ++ [mkMessage message true])).
Proof.
  intros Hsel Hllm Hr.
  destruct (startSend_guarded message None st chat Hsel Hllm) as (st1 & req & p & Hstart).
  destruct (startSend_Some _ _ _ _ _ _ Hstart) as (chat' & Hsel' & _ & _ & _ & Hst1).
  assert (chat' = chat) as -> by congruence. simpl in Hst1.
  exists st1. split.
  { unfold handleSendMessage. rewrite Hstart. by destruct Hr as [-> | ->]. }
  subst st1. simpl. split; [done |]. split; [done |].
  split; [by rewrite <- app_assoc |]. split; [done |].
  split; [intros other Hne; by apply storedMessages_replace_other |].
  split; [apply storedMessages_replace |].
  split.
  { intros store st0 es Hmount Hrun. apply storedMessages_replace.
    by apply (run_selection _ _ _ _ Hmount Hrun). }
  intros stored Hstored <-. apply storedMessages_replace.
  unfold storedMessages in Hstored.
  destruct (find _ (chats st)) as [c |] eqn:Hfind; [| done].
  destruct (find_id_Some _ _ _ Hfind) as [Hin <-]. by apply in_map.
Qed.

Lemma failed_send_witness :
  selectedChat chatting = Some 1%Z /\
  selectedLLM chatting <> EmptyString /\
  exists st',
    handleSendMessage "are you there?" None NoBody chatting = Some st' /\
    storedMessages 1 (chats st')
      = Some [mkMessage "hello" true; mkMessage "hi there" false;
              mkMessage "are you there?" true] /\
    messages st'
      = [mkMessage "hello" true; mkMessage "hi there" false;
         mkMessage "are you there?" true; mkMessage EmptyString false].
Proof.
  assert (Hsel : selectedChat chatting = Some 1%Z) by reflexivity.
  assert (Hllm : selectedLLM chatting <> EmptyString) by discriminate.
  split; [exact Hsel |]. split; [exact Hllm |].
  destruct (failed_send chatting 1 "are you there?" NoBody Hsel Hllm (or_introl eq_refl))
    as (st' & Hrun & _ & _ & Hview & _ & _ & _ & _ & Hgain).
  exists st'. split; [exact Hrun |]. split.
  - exact (Hgain _ eq_refl eq_refl).
  - exact Hview.
Defined.

(** C3 as stated fails: after one failed send the view keeps its empty
    placeholder, and a second failed send stores that placeholder in the
    thread, between the two user messages. *)
Lemma second_failed_send_stores_placeholder :
  (storedMessages 1 ∘ chats) <$> run [SendMessage "first" NoBody] chatting
    = Some (Some [mkMessage "hello" true; mkMessage "hi there" false;
                  mkMessage "first" true]) /\
  (storedMessages 1 ∘ chats)
    <$> run [SendMessage "first" NoBody; SendMessage "second" NoBody] chatting
    = Some (Some [mkMessage "hello" true; mkMessage "hi there" false;
                  mkMessage "first" true; mkMessage EmptyString false;
                  mkMessage "second" true]).
Proof. split; vm_compute; reflexivity. Qed.

(** ** The frame of a chunk update *)

(** ** Editing a message *)

Lemma edit_truncate (ms : list Message) (index : nat) (newText : string) (m : Message) :
  ms !! index = Some m ->
  take (index + 1)
    (imap (fun i msg => if (i =? index)%nat then mkMessage newText (isUser msg) else msg) ms)
    = take index ms ++ [mkMessage newText (isUser m)].
Proof.
  intros Hm. pose proof (lookup_lt_Some _ _ _ Hm) as Hlt.
  apply list_eq. intros i.
  rewrite lookup_take, list_lookup_imap.
  destruct (decide (i < index + 1)) as [Hi | Hi].
  - destruct (decide (i = index)) as [-> | Hne].
    + rewrite Hm. simpl. rewrite Nat.eqb_refl.
      rewrite list_lookup_middle; [done |]. rewrite length_take. lia.
    + rewrite lookup_app_l by (rewrite length_take; lia).
      rewrite lookup_take_lt by lia.
      destruct (ms !! i) as [x |]; simpl; [| done].
      by destruct (Nat.eqb_spec i index).
  - rewrite lookup_ge_None_2; [done |].
    rewrite length_app, length_take. simpl. lia.
Qed.

(** C2, as amended.  With a thread selected, editing the message shown at
    index [i] of a view of length [n > i] replaces its text, cuts the
    sequence to the first [i+1] messages, shows it, stores it as the
    selected thread's sequence and saves the collection.  When the name of
    the selected model is not empty this starts exactly one send, whose
    content is the new text and whose history is the truncated sequence,
    and the view gets the empty assistant placeholder; when it is empty
    (no model, or a model that the list names by the empty string) no send
    is started. *)
Theorem updateMessage_spec (st : State) (chat : Z) (index : nat) (newText : string)
    (m : Message) :
  selectedChat st = Some chat ->
  messages st !! index = Some m ->
  exists st' started,
    updateMessage index newText st = Returned st' started /\
    length (take index (messages st) ++ [mkMessage newText (isUser m)]) = index + 1 /\
    (take index (messages st) ++ [mkMessage newText (isUser m)]) !! index
      = Some (mkMessage newText (isUser m)) /\
    (forall j, j < index ->
       (take index (messages st) ++ [mkMessage newText (isUser m)]) !! j = messages st !! j) /\
    chats st'
      = map (replaceMessages chat (take index (messages st) ++ [mkMessage newText (isUser m)]))
            (chats st) /\
    localStorage st' = saveAll (chats st') (localStorage st) /\
    (In chat (map ChatType.id (chats st)) ->
     storedMessages chat (chats st')
       = Some (take index (messages st) ++ [mkMessage newText (isUser m)])) /\
    (selectedLLM st <> EmptyString ->
     requests started
       = [mkRequest newText (selectedLLM st)
            (take index (messages st) ++ [mkMessage newText (isUser m)]) chat] /\
     messages st'
       = (take index (messages st) ++ [mkMessage newText (isUser m)])
           ++ [mkMessage EmptyString false]) /\
    (selectedLLM st = EmptyString ->
     requests started = [] /\
     messages st' = take index (messages st) ++ [mkMessage newText (isUser m)]).
Proof.
  intros Hsel Hm. pose proof (lookup_lt_Some _ _ _ Hm) as Hlt.
  unfold updateMessage. rewrite Hsel, (edit_truncate _ _ _ _ Hm).
  set (truncated := take index (messages st) ++ [mkMessage newText (isUser m)]).
  assert (Hlen : length truncated = index + 1).
  { unfold truncated. rewrite length_app, length_take. simpl. lia. }
  assert (Hat : truncated !! index = Some (mkMessage newText (isUser m))).
  { unfold truncated. rewrite list_lookup_middle; [done |]. rewrite length_take. lia. }
  rewrite Hat. simpl text.
  unfold startSend. simpl selectedChat. rewrite Hsel. simpl selectedLLM.
  destruct (String.eqb_spec (selectedLLM st) EmptyString) as [Hnone | Hllm].
  - eexists _, _. split; [reflexivity |]. simpl.
    split; [done |]. split; [done |].
    split. { intros j Hj. unfold truncated. rewrite lookup_app_l by (rewrite length_take; lia).
             by rewrite lookup_take_lt. }
    split; [done |]. split; [done |].
    split; [apply storedMessages_replace |].
    split; [done |]. done.
  - eexists _, _. split; [reflexivity |]. simpl.
    split; [done |]. split; [done |].
    split. { intros j Hj. unfold truncated. rewrite lookup_app_l by (rewrite length_take; lia).
             by rewrite lookup_take_lt. }
    split; [done |]. split; [done |].
    split; [apply storedMessages_replace |].
    split; [done |]. done.
Qed.

Lemma updateMessage_spec_witness :
  selectedChat chatting = Some 1%Z /\
  messages chatting !! 0 = Some (mkMessage "hello" true) /\
  exists st' started,
    updateMessage 0 "good morning" chatting = Returned st' started /\
    storedMessages 1 (chats st') = Some [mkMessage "good morning" true] /\
    requests started = [mkRequest "good morning" "llama3" [mkMessage "good morning" true] 1].
Proof.
  assert (Hsel : selectedChat chatting = Some 1%Z) by reflexivity.
  assert (Hm : messages chatting !! 0 = Some (mkMessage "hello" true)) by reflexivity.
  split; [exact Hsel |]. split; [exact Hm |].
  destruct (updateMessage_spec chatting 1 0 "good morning" _ Hsel Hm)
    as (st' & started & Hrun & _ & _ & _ & _ & _ & Hstored & Hsend & _).
  exists st', started. split; [exact Hrun |]. split.
  - apply Hstored. simpl. tauto.
  - apply Hsend. discriminate.
Defined.

(** ** Decimal numerals *)

Section Decimal.

Local Open Scope N_scope.

Lemma digits_from_small fuel n acc :
  Forall (fun d => d < 10) acc -> Forall (fun d => d < 10) (digits_from fuel n acc).
Proof.
  revert n acc. induction fuel as [| fuel IH]; intros n acc Hacc; simpl; [done |].
  assert (n mod 10 < 10) by (apply N.mod_lt; lia).
  destruct (n / 10 =? 0); [by constructor |]. apply IH. by constructor.
Qed.

Lemma digits_from_value fuel n acc :
  n < 2 ^ N.of_nat fuel ->
  fold_left shift_in (digits_from fuel n acc) 0 = fold_left shift_in acc n.
Proof.
  revert n acc. induction fuel as [| fuel IH]; intros n acc Hn.
  - change (2 ^ N.of_nat 0) with 1 in Hn. by replace n with 0 by lia.
  - cbn [digits_from].
    pose proof (N.div_mod n 10 ltac:(lia)) as Hdm.
    destruct (N.eqb_spec (n / 10) 0) as [Hz | Hnz].
    + cbn [fold_left]. unfold shift_in at 2. f_equal. lia.
    + rewrite IH.
      * cbn [fold_left]. unfold shift_in at 2. f_equal. lia.
      * rewrite Nat2N.inj_succ, N.pow_succ_r' in Hn.
        apply N.Div0.div_lt_upper_bound. lia.
Qed.

Lemma digits_from_head fuel n acc :
  0 < n -> n < 2 ^ N.of_nat fuel ->
  exists d ds, digits_from fuel n acc = d :: ds /\ 0 < d.
Proof.
  revert n acc. induction fuel as [| fuel IH]; intros n acc Hpos Hn.
  - change (2 ^ N.of_nat 0) with 1 in Hn. lia.
  - cbn [digits_from].
    pose proof (N.div_mod n 10 ltac:(lia)) as Hdm.
    destruct (N.eqb_spec (n / 10) 0) as [Hz | Hnz].
    + exists (n mod 10), acc. split; [done | lia].
    + apply IH; [by apply N.neq_0_lt_0 |].
      rewrite Nat2N.inj_succ, N.pow_succ_r' in Hn.
      apply N.Div0.div_lt_upper_bound. lia.
Qed.

Lemma decimal_bound n : n < 2 ^ N.of_nat (S (N.to_nat (N.log2 n))).
Proof.
  rewrite Nat2N.inj_succ, N2Nat.id.
  destruct (N.eq_dec n 0) as [-> | Hn]; [done |].
  apply N.log2_spec. lia.
Qed.

Lemma decimal_digits_small n : Forall (fun d => d < 10) (decimal_digits n).
Proof. apply digits_from_small. constructor. Qed.

Lemma decimal_digits_value n : fold_left shift_in (decimal_digits n) 0 = n.
Proof. unfold decimal_digits. by rewrite digits_from_value by apply decimal_bound. Qed.

Lemma decimal_digits_head n :
  0 < n -> exists d ds, decimal_digits n = d :: ds /\ 0 < d.
Proof. intros Hn. apply digits_from_head; [done | apply decimal_bound]. Qed.

End Decimal.

(** ** Reading back a printed number *)

Section Numbers.

Import JSON.
Local Open Scope N_scope.

Lemma N_of_digit_char d : d < 10 -> N_of_ascii (digit_char d) = 48 + d.
Proof. intros Hd. unfold digit_char. apply N_ascii_embedding. lia. Qed.

Lemma digit_val_digit_char d : d < 10 -> digit_val (digit_char d) = Some d.
Proof.
  intros Hd. unfold digit_val. rewrite N_of_digit_char by done.
  destruct (N.leb_spec 48 (48 + d)); [| lia].
  destruct (N.leb_spec (48 + d) 57); [| lia].
  simpl. f_equal. lia.
Qed.

Lemma starts_number_digit d : d < 10 -> starts_number (digit_char d) = true.
Proof.
  intros Hd. unfold starts_number. rewrite N_of_digit_char by done.
  destruct (N.leb_spec 48 (48 + d)); [| lia].
  destruct (N.leb_spec (48 + d) 57); [| lia].
  apply orb_true_r.
Qed.

Lemma string_of_digits_cons d ds :
  string_of_list_ascii (map digit_char (d :: ds))
    = String (digit_char d) (string_of_list_ascii (map digit_char ds)).
Proof. reflexivity. Qed.

Lemma read_digits_numeral ds rest acc cnt :
  Forall (fun d => d < 10) ds ->
  read_digits (string_of_list_ascii (map digit_char ds) +:+ String "," rest) acc cnt
    = (fold_left shift_in ds acc, (cnt + length ds)%nat, String "," rest).
Proof.
  intros Hds. revert acc cnt.
  induction Hds as [| d ds Hd Hds IH]; intros acc cnt.
  - cbn [map string_of_list_ascii fold_left length]. rewrite append_nil_l.
    rewrite Nat.add_0_r. reflexivity.
  - rewrite string_of_digits_cons, append_cons. cbn [read_digits].
    rewrite digit_val_digit_char by done. rewrite IH.
    cbn [fold_left length]. f_equal. f_equal. lia.
Qed.

Lemma parse_int_part_nonzero c r :
  N_of_ascii c <> 48 ->
  parse_int_part (String c r)
    = match read_digits (String c r) 0 0 with
      | (_, O, _) => Malformed
      | (n, S _, r') => Parsed n r'
      end.
Proof.
  intros Hc. destruct c as [[] [] [] [] [] [] [] []];
    first [reflexivity | exfalso; by apply Hc].
Qed.

Lemma parse_int_part_numeral n rest :
  parse_int_part (N_to_string n +:+ String "," rest) = Parsed n (String "," rest).
Proof.
  destruct (N.eq_dec n 0) as [-> | Hn].
  - reflexivity.
  - destruct (decimal_digits_head n) as (d & ds & Hds & Hd); [lia |].
    pose proof (decimal_digits_small n) as Hsmall.
    pose proof (decimal_digits_value n) as Hvalue.
    unfold N_to_string. rewrite Hds in *.
    assert (Hd10 : d < 10) by (by inversion Hsmall).
    rewrite string_of_digits_cons, append_cons.
    rewrite parse_int_part_nonzero by (rewrite N_of_digit_char by done; lia).
    rewrite <- append_cons, <- string_of_digits_cons.
    rewrite read_digits_numeral by done. by rewrite Hvalue.
Qed.

Lemma parse_value_number_start f c r :
  starts_number c = true ->
  parse_value (S f) (String c r) = parse_number (String c r).
Proof.
  intros Hc. destruct c as [[] [] [] [] [] [] [] []];
    first [discriminate Hc | reflexivity].
Qed.

Lemma parse_number_unsigned c r :
  N_of_ascii c <> 45 ->
  parse_number (String c r)
    = bind (parse_int_part (String c r)) (fun int s2 =>
      bind (parse_fraction int s2) (fun '(m, k) s3 =>
      bind (parse_exponent s3) (fun e s4 =>
        let '(mant, ex) := normalise (Z.of_N m) (e - Z.of_nat k)%Z in
        Parsed (Number mant ex) s4))).
Proof.
  intros Hc. destruct c as [[] [] [] [] [] [] [] []];
    first [reflexivity | exfalso; by apply Hc].
Qed.

Lemma normalise_whole (m : Z) : normalise m (0 - Z.of_nat 0) = (m, 0%Z).
Proof.
  unfold normalise. destruct (Z.eqb_spec m 0) as [-> | Hm]; [done |].
  simpl. f_equal. lia.
Qed.

Lemma N_to_string_start n :
  exists c r, N_to_string n = String c r /\ starts_number c = true /\ N_of_ascii c <> 45.
Proof.
  pose proof (decimal_digits_small n) as Hsmall. unfold N_to_string.
  destruct (N.eq_dec n 0) as [-> | Hn].
  - by eexists _, _.
  - destruct (decimal_digits_head n) as (d & ds & Hds & Hd); [lia |].
    rewrite Hds in *. assert (Hd10 : d < 10) by (by inversion Hsmall).
    eexists _, _. split; [apply string_of_digits_cons |].
    split; [by apply starts_number_digit |].
    rewrite N_of_digit_char by done. lia.
Qed.

Lemma parse_number_numeral n rest :
  bind (parse_int_part (N_to_string n +:+ String "," rest)) (fun int s2 =>
  bind (parse_fraction int s2) (fun '(m, k) s3 =>
  bind (parse_exponent s3) (fun e s4 =>
    let '(mant, ex) := normalise (Z.of_N m) (e - Z.of_nat k)%Z in
    Parsed (Number mant ex) s4)))
  = Parsed (Number (Z.of_N n) 0) (String "," rest).
Proof.
  rewrite parse_int_part_numeral. cbn [bind parse_fraction parse_exponent].
  change (Ascii.eqb "," "e" || Ascii.eqb "," "E") with false. cbn [bind].
  by rewrite normalise_whole.
Qed.

(** A printed id, followed by a comma, reads back as that id. *)
Lemma parse_value_Z (z : Z) f rest :
  parse_value (S f) (Z_to_string z +:+ String "," rest)
    = Parsed (Number z 0) (String "," rest).
Proof.
  assert (Hnonneg : forall n, parse_value (S f) (N_to_string n +:+ String "," rest)
                              = Parsed (Number (Z.of_N n) 0) (String "," rest)).
  { intros n. destruct (N_to_string_start n) as (c & r & Hstr & Hstart & Hminus).
    pose proof (parse_number_numeral n rest) as Hnum.
    rewrite Hstr, append_cons in *.
    rewrite parse_value_number_start by done.
    by rewrite parse_number_unsigned. }
  destruct z as [| p | p].
  - apply (Hnonneg 0).
  - apply (Hnonneg (Npos p)).
  - unfold Z_to_string. rewrite append_cons.
    rewrite parse_value_number_start by done.
    pose proof (parse_number_numeral (Npos p) rest) as Hnum.
    unfold parse_number.
    destruct (parse_int_part (N_to_string (N.pos p) +:+ String "," rest))
      as [int s2 | |] eqn:Hint; rewrite parse_int_part_numeral in Hint; [| done | done].
    injection Hint as <- <-.
    cbn [bind parse_fraction parse_exponent].
    change (Ascii.eqb "," "e" || Ascii.eqb "," "E") with false. cbn [bind].
    by rewrite normalise_whole.
Qed.

End Numbers.

(** ** Reading back a printed string *)

Section Strings.

Import JSON.

Ltac each_char c := destruct c as [[] [] [] [] [] [] [] []].

Lemma scan_escape (c : ascii) (t : string) :
  scan_string (escape c +:+ t) = push (item_of c) (scan_string t).
Proof.
  each_char c;
    match goal with
    | |- context [escape ?a] =>
        let e := eval vm_compute in (escape a) in change (escape a) with e
    end;
    rewrite ?append_cons, ?append_nil_l; reflexivity.
Qed.

Lemma utf8_of_item_of (c : ascii) (l : list item) :
  utf8_of_items (item_of c :: l) = String c (utf8_of_items l).
Proof.
  each_char c;
    match goal with
    | |- context [item_of ?a] =>
        let i := eval vm_compute in (item_of a) in change (item_of a) with i
    end;
    first [ reflexivity | destruct l as [| [b | u] l']; reflexivity ].
Qed.

Lemma utf8_of_items_of (s : string) :
  utf8_of_items (map item_of (list_ascii_of_string s)) = s.
Proof.
  induction s as [| c s IH]; [done |].
  cbn [list_ascii_of_string map]. by rewrite utf8_of_item_of, IH.
Qed.

Lemma scan_escape_all (s rest : string) :
  scan_string (escape_all s +:+ String dquote rest)
    = Parsed (map item_of (list_ascii_of_string s)) rest.
Proof.
  induction s as [| c s IH].
  - reflexivity.
  - cbn [escape_all list_ascii_of_string map].
    by rewrite append_assoc, scan_escape, IH.
Qed.

(** A printed string, after its opening quote, reads back as that string. *)
Lemma parse_string_escape_all (s rest : string) :
  parse_string (escape_all s +:+ String dquote rest) = Parsed s rest.
Proof.
  unfold parse_string. rewrite scan_escape_all. cbn [bind].
  by rewrite utf8_of_items_of.
Qed.

Lemma quote_append (s rest : string) :
  quote s +:+ rest = String dquote (escape_all s +:+ String dquote rest).
Proof. unfold quote. by rewrite append_cons, append_assoc. Qed.

Lemma parse_value_quote (s rest : string) f :
  parse_value (S f) (quote s +:+ rest) = Parsed (Str s) rest.
Proof.
  rewrite quote_append.
  change (parse_value (S f) (String dquote (escape_all s +:+ String dquote rest)))
    with (bind (parse_string (escape_all s +:+ String dquote rest))
               (fun k r => Parsed (Str k) r)).
  by rewrite parse_string_escape_all.
Qed.

End Strings.

(** ** Reading back printed objects and arrays *)

(** Settles the white-space tests on the characters at hand. *)
Ltac decide_ws :=
  repeat match goal with
         | |- context [JSON.is_ws ?c] =>
             let b := eval vm_compute in (JSON.is_ws c) in change (JSON.is_ws c) with b
         end;
  cbn iota.

(** Brings a text built with [+:+] into the form [String c (...)]. *)
Ltac flatten := rewrite ?append_assoc, ?append_cons, ?append_nil_l.

Section Objects.

Import JSON.

Lemma parse_members_cons f k vtxt v rest :
  parse_value f (vtxt +:+ String "," rest) = Parsed v (String "," rest) ->
  parse_members (S f) (quote k +:+ String ":" (vtxt +:+ String "," rest))
    = push (k, v) (parse_members f rest).
Proof.
  intros Hv. rewrite quote_append.
  cbn [parse_members skip_ws]. decide_ws.
  change (Ascii.eqb dquote dquote) with true. cbn iota.
  rewrite parse_string_escape_all. cbn [bind skip_ws]. decide_ws.
  rewrite Hv. cbn [bind skip_ws]. decide_ws. reflexivity.
Qed.

Lemma parse_members_last f k vtxt v rest :
  parse_value f (vtxt +:+ String "}" rest) = Parsed v (String "}" rest) ->
  parse_members (S f) (quote k +:+ String ":" (vtxt +:+ String "}" rest))
    = Parsed [(k, v)] rest.
Proof.
  intros Hv. rewrite quote_append.
  cbn [parse_members skip_ws]. decide_ws.
  change (Ascii.eqb dquote dquote) with true. cbn iota.
  rewrite parse_string_escape_all. cbn [bind skip_ws]. decide_ws.
  rewrite Hv. cbn [bind skip_ws]. decide_ws. reflexivity.
Qed.

Lemma parse_value_object_open f k t :
  parse_value (S f) (String "{" (quote k +:+ t))
    = bind (parse_members f (quote k +:+ t)) (fun ms rest => Parsed (Object ms) rest).
Proof. rewrite quote_append. reflexivity. Qed.

Lemma parse_value_array_open f t :
  parse_value (S f) (String "[" (String "{" t))
    = bind (parse_elements f (String "{" t)) (fun vs rest => Parsed (Array vs) rest).
Proof. reflexivity. Qed.

Lemma parse_value_bool f b rest :
  parse_value (S f) (print_bool b +:+ rest) = Parsed (Bool b) rest.
Proof. destruct b; unfold print_bool; rewrite !append_cons, append_nil_l; reflexivity. Qed.

(** A printed message reads back as the value of that message. *)
Lemma parse_value_message f (m : Message) rest :
  parse_value (4 + f) (print_message m +:+ rest) = Parsed (message_value m) rest.
Proof.
  unfold print_message. flatten.
  change (4 + f) with (S (S (S (S f)))).
  rewrite parse_value_object_open.
  rewrite parse_members_cons with (v := Str (text m)) by apply parse_value_quote.
  rewrite parse_members_last with (v := Bool (isUser m)) by apply parse_value_bool.
  reflexivity.
Qed.

Lemma print_message_open (m : Message) : exists t, print_message m = String "{" t.
Proof. unfold print_message. flatten. by eexists. Qed.

Section Arrays.

Context {A : Type} (print : A -> string) (val : A -> value) (need : A -> nat).
Hypothesis print_open : forall x, exists t, print x = String "{" t.
Hypothesis parse_print :
  forall x f rest, need x <= f -> parse_value f (print x +:+ rest) = Parsed (val x) rest.

Lemma print_elements_open (xs : list A) :
  xs <> [] -> exists t, print_elements print xs = String "{" t.
Proof.
  destruct xs as [| x [| y ys]]; [done | |]; intros _;
    destruct (print_open x) as [t Ht]; cbn [print_elements]; rewrite Ht.
  - by eexists.
  - rewrite append_cons. by eexists.
Qed.

Lemma parse_elements_printed (xs : list A) f rest :
  xs <> [] ->
  Forall (fun x => need x + length xs <= f) xs ->
  parse_elements f (print_elements print xs +:+ String "]" rest)
    = Parsed (map val xs) rest.
Proof.
  revert f. induction xs as [| x xs IH]; intros f Hne Hneed; [done |].
  inversion Hneed as [| ? ? Hx Hxs]; subst.
  destruct f as [| f]; [simpl in Hx; lia |].
  cbn [parse_elements]. destruct xs as [| y ys].
  - cbn [print_elements]. rewrite parse_print by (simpl in Hx; lia).
    cbn [bind skip_ws]. decide_ws. reflexivity.
  - change (print_elements print (x :: y :: ys))
      with (print x +:+ "," +:+ print_elements print (y :: ys)).
    flatten. rewrite parse_print by (simpl in Hx; lia).
    cbn [bind skip_ws]. decide_ws.
    rewrite IH; [reflexivity | done |].
    eapply Forall_impl; [exact Hxs |]. simpl. intros; lia.
Qed.

Lemma parse_array_printed (xs : list A) f rest :
  Forall (fun x => need x + length xs <= f) xs ->
  parse_value (S f) (print_array print xs +:+ rest) = Parsed (Array (map val xs)) rest.
Proof.
  intros Hneed. unfold print_array. flatten.
  destruct xs as [| x xs'] eqn:Hxs.
  - cbn [print_elements]. rewrite append_nil_l. reflexivity.
  - rewrite <- Hxs in *.
    assert (Hne : xs <> []) by (by rewrite Hxs).
    destruct (print_elements_open xs Hne) as [t Ht].
    pose proof (parse_elements_printed xs f rest Hne Hneed) as Hparse.
    rewrite Ht, append_cons in *.
    rewrite parse_value_array_open, Hparse. reflexivity.
Qed.

Lemma length_print_elements (xs : list A) :
  (forall x, 1 <= String.length (print x)) ->
  length xs <= String.length (print_elements print xs).
Proof.
  intros Hlen. induction xs as [| x [| y ys] IH]; cbn [print_elements length].
  - done.
  - apply Hlen.
  - rewrite !length_append. cbn [print_elements length] in IH. simpl. lia.
Qed.

Lemma length_print_element (xs : list A) x :
  In x xs -> String.length (print x) <= String.length (print_elements print xs).
Proof.
  induction xs as [| y [| z zs] IH]; cbn [print_elements]; [done | |].
  - intros [-> | []]. done.
  - intros [-> | Hin]; rewrite !length_append; [lia |].
    specialize (IH Hin). cbn [print_elements] in IH. lia.
Qed.

End Arrays.

End Objects.

(** ** Reading back a saved collection *)

Section RoundTrip.

Import JSON.

Lemma parse_value_chat f (c : ChatType) rest :
  length (ChatType.messages c) + 10 <= f ->
  parse_value f (print_chat c +:+ rest) = Parsed (chat_value c) rest.
Proof.
  intros Hf.
  do 6 (destruct f as [| f]; [lia |]).
  unfold print_chat. flatten.
  rewrite parse_value_object_open.
  rewrite parse_members_cons with (v := Number (ChatType.id c) 0) by apply parse_value_Z.
  rewrite parse_members_cons with (v := Str (ChatType.name c)) by apply parse_value_quote.
  rewrite parse_members_cons with (v := Str (ChatType.date c)) by apply parse_value_quote.
  rewrite parse_members_last
    with (v := Array (map message_value (ChatType.messages c))).
  - reflexivity.
  - apply parse_array_printed with (need := fun _ => 4).
    + apply print_message_open.
    + intros m g r Hg. replace g with (4 + (g - 4)) by lia. apply parse_value_message.
    + apply Forall_forall. intros m _. lia.
Qed.

Lemma print_chat_open (c : ChatType) : exists t, print_chat c = String "{" t.
Proof. unfold print_chat. flatten. by eexists. Qed.

Lemma length_print_message (m : Message) : 1 <= String.length (print_message m).
Proof. destruct (print_message_open m) as [t ->]. simpl. lia. Qed.

Lemma length_print_chat (c : ChatType) :
  length (ChatType.messages c) + 10 <= String.length (print_chat c).
Proof.
  pose proof (length_print_elements print_message (ChatType.messages c)
                length_print_message) as Hms.
  unfold print_chat, print_array. rewrite !length_append.
  change (String.length (quote "id")) with 4.
  change (String.length (quote "name")) with 6.
  change (String.length (quote "date")) with 6.
  change (String.length (quote "messages")) with 10.
  simpl String.length. lia.
Qed.

(** [JSON.parse (JSON.stringify chats)] is the value of [chats]. *)
Lemma parse_stringify (cs : list ChatType) :
  parse (stringify cs) = Parsed (chats_value cs) EmptyString.
Proof.
  unfold parse, stringify.
  rewrite Nat.add_1_r.
  rewrite <- (append_nil_r (print_array print_chat cs)) at 2.
  rewrite parse_array_printed with (val := chat_value)
                                   (need := fun c => length (ChatType.messages c) + 10).
  - reflexivity.
  - apply print_chat_open.
  - intros c f rest Hf. by apply parse_value_chat.
  - apply Forall_forall. intros c Hc. apply list_elem_of_In in Hc.
    pose proof (length_print_chat c) as Hchat.
    pose proof (length_print_element print_chat cs c Hc) as Hone.
    assert (Hall : length cs <= String.length (print_elements print_chat cs)).
    { apply length_print_elements. intros x. pose proof (length_print_chat x). lia. }
    unfold print_array. rewrite !length_append. simpl String.length. lia.
Qed.

Lemma to_message_value (m : Message) : to_message (message_value m) = Some m.
Proof. by destruct m. Qed.

Lemma to_list_values {A : Type} (f : value -> option A) (g : A -> value) (l : list A) :
  (forall a, f (g a) = Some a) -> to_list f (map g l) = Some l.
Proof.
  intros Hfg. induction l as [| a l IH]; [done |].
  cbn [map to_list]. by rewrite Hfg, IH.
Qed.

Lemma to_chat_value (c : ChatType) : to_chat (chat_value c) = Some c.
Proof.
  destruct c as [i n d ms]. unfold chat_value, to_chat. cbn [ChatType.id ChatType.name
    ChatType.date ChatType.messages].
  change (String.eqb "id" "id" && String.eqb "name" "name" && String.eqb "date" "date"
          && String.eqb "messages" "messages") with true. cbn iota.
  by rewrite (to_list_values to_message message_value ms to_message_value).
Qed.

Lemma to_chats_value (cs : list ChatType) : to_chats (chats_value cs) = Some cs.
Proof. apply to_list_values, to_chat_value. Qed.

Lemma stringify_open (cs : list ChatType) : exists t, stringify cs = String "[" t.
Proof. unfold stringify, print_array. flatten. by eexists. Qed.

Lemma loadAll_saveAll (cs : list ChatType) (store : gmap string string) :
  loadAll (saveAll cs store) = Parsed (chats_value cs) EmptyString.
Proof.
  unfold loadAll, saveAll, setItem, getItem. rewrite lookup_insert_eq.
  pose proof (parse_stringify cs) as Hparse.
  destruct (stringify_open cs) as [t Ht]. rewrite Ht in *. exact Hparse.
Qed.

End RoundTrip.

(** ** The store follows the collection *)

Section Persistence.


Lemma tracked_refl st : tracked st st.
Proof. by left. Qed.

Lemma tracked_trans a b c : tracked a b -> tracked b c -> tracked a c.
Proof.
  intros [[Hc1 Hs1] | Hsaved1] [[Hc2 Hs2] | Hsaved2].
  - left. split; congruence.
  - by right.
  - right. destruct Hsaved1 as [store Hstore]. exists store. congruence.
  - by right.
Qed.

Lemma tracked_setChats cs st : tracked st (setChats cs st).
Proof. right. by exists (localStorage st). Qed.


Lemma startSend_tracked message updatedMessages st :
  tracked st (fst (startSend message updatedMessages st)).
Proof.
  unfold startSend. destruct (selectedChat st) as [chat |]; [| apply tracked_refl].
  destruct (String.eqb (selectedLLM st) EmptyString); [apply tracked_refl |].
  destruct updatedMessages as [ms |]; simpl.
  - by left.
  - right. by eexists.
Qed.

Lemma onChunk_tracked value p st st' p' :
  onChunk value p st = Some (st', p') -> tracked st st'.
Proof.
  unfold onChunk. destruct (array_set _ _ _); [| done].
  intros [= <- _]. by left.
Qed.

Lemma readAll_tracked chunks p st st' p' :
  readAll chunks p st = Some (st', p') -> tracked st st'.
Proof.
  revert p st. induction chunks as [| value chunks IH]; intros p st; simpl.
  - intros [= <- _]. apply tracked_refl.
  - destruct (onChunk value p st) as [[st1 p1] |] eqn:Hchunk; [| done].
    intros Hrest. eapply tracked_trans; [by eapply onChunk_tracked | by eapply IH].
Qed.

Lemma finishSend_tracked r p st st' :
  finishSend r p st = Some st' -> tracked st st'.
Proof.
  unfold finishSend. destruct r as [| | chunks ending].
  - intros [= <-]. apply tracked_refl.
  - intros [= <-]. apply tracked_refl.
  - destruct (readAll chunks p st) as [[st1 p1] |] eqn:Hread; [| done].
    destruct ending; intros [= <-].
    + eapply tracked_trans; [by eapply readAll_tracked | apply tracked_setChats].
    + by eapply readAll_tracked.
Qed.

Lemma handleSendMessage_tracked message updatedMessages r st st' :
  handleSendMessage message updatedMessages r st = Some st' -> tracked st st'.
Proof.
  unfold handleSendMessage.
  pose proof (startSend_tracked message updatedMessages st) as Hstart.
  destruct (startSend message updatedMessages st) as [st1 [[req p] |]]; simpl in Hstart.
  - intros Hfinish. eapply tracked_trans; [exact Hstart | by eapply finishSend_tracked].
  - by intros [= <-].
Qed.

Lemma updateMessage_tracked index newText st :
  match updateMessage index newText st with
  | Returned st' _ | TypeError st' => tracked st st'
  end.
Proof.
  unfold updateMessage. destruct (selectedChat st) as [chat |]; [| apply tracked_refl].
  destruct (_ !! index) as [m |].
  - match goal with
    | |- context [startSend ?t ?u ?s] =>
        pose proof (startSend_tracked t u s) as Hstart;
        destruct (startSend t u s) as [st2 started]
    end.
    simpl in Hstart. eapply tracked_trans; [| exact Hstart]. right. by eexists.
  - right. by eexists.
Qed.

Lemma step_tracked e st st' : step e st = Some st' -> tracked st st'.
Proof.
  destruct e; simpl; try (intros [= <-]; first [by left | right; by eexists]).
  - unfold handleSelectChat. intros [= <-]. destruct (find _ _); by left.
  - unfold confirmDeleteChat. intros [= <-].
    destruct (chatToDelete st); [right; by eexists | by left].
  - apply handleSendMessage_tracked.
  - pose proof (updateMessage_tracked index newText st) as Hedit.
    destruct (updateMessage index newText st) as [st1 [[req p] |] | st1].
    + intros Hfinish. eapply tracked_trans; [exact Hedit | by eapply finishSend_tracked].
    + by intros [= <-].
    + by intros [= <-].
  - unfold fetchModels. intros [= <-]. destruct r as [| | | [| m ms]]; by left.
Qed.

Lemma run_tracked es st st' : run es st = Some st' -> tracked st st'.
Proof.
  revert st. induction es as [| e es IH]; intros st; simpl.
  - intros [= <-]. apply tracked_refl.
  - destruct (step e st) as [st1 |] eqn:Hstep; [| done].
    intros Hrun. eapply tracked_trans; [by eapply step_tracked | by apply IH].
Qed.


End Persistence.

(** ** The parser always answers *)

Section Totality.

Import JSON.

Lemma rest_below_mono {A : Type} (n m : nat) (p : parsed A) :
  n <= m -> rest_below n p -> rest_below m p.
Proof. destruct p; simpl; [lia | done | done]. Qed.

Lemma rest_below_bind {A B : Type} (n m : nat) (p : parsed A) (k : A -> string -> parsed B) :
  rest_below n p ->
  (forall a r, String.length r < n -> rest_below m (k a r)) ->
  rest_below m (bind p k).
Proof. destruct p; simpl; [by auto | done | done]. Qed.

Lemma rest_below_push {A : Type} (n : nat) (a : A) (p : parsed (list A)) :
  rest_below n p -> rest_below n (push a p).
Proof. by destruct p. Qed.

Lemma skip_ws_length s : String.length (skip_ws s) <= String.length s.
Proof.
  induction s as [| c s IH]; [done |]. cbn [skip_ws].
  destruct (is_ws c); simpl; lia.
Qed.

Lemma expect_length lit s r : expect lit s = Some r -> String.length r <= String.length s.
Proof.
  revert s. induction lit as [| c lit IH]; intros s; cbn [expect].
  - by intros [= <-].
  - destruct s as [| d s]; [done |]. destruct (Ascii.eqb c d); [| done].
    intros H. apply IH in H. simpl. lia.
Qed.

Lemma literal_rest lit v s : rest_below (S (String.length s)) (literal lit v s).
Proof.
  unfold literal. destruct (expect lit s) as [r |] eqn:He; [| done].
  apply expect_length in He. simpl. lia.
Qed.

Lemma read_digits_length s acc cnt :
  let '(n, cnt', r) := read_digits s acc cnt in
  String.length r + cnt' = String.length s + cnt.
Proof.
  revert acc cnt. induction s as [| c s IH]; intros acc cnt; cbn [read_digits].
  - done.
  - destruct (digit_val c) as [d |]; [| done].
    specialize (IH (acc * 10 + d)%N (S cnt)).
    destruct (read_digits s _ _) as [[n cnt'] r]. simpl. lia.
Qed.

Lemma scan_string_rest s : rest_below (String.length s) (scan_string s).
Proof.
  induction s as [s IH] using (induction_ltof1 _ String.length). unfold ltof in IH.
  destruct s as [| c r]; [done |]. cbn [scan_string].
  destruct (Ascii.eqb c dquote); [simpl; lia |].
  destruct (Ascii.eqb c backslash).
  - destruct r as [| e r']; [done |].
    assert (Hnext : forall a, rest_below (String.length (String c (String e r')))
                                (push a (scan_string r'))).
    { intros a. apply rest_below_push.
      eapply rest_below_mono; [| apply IH]; simpl; lia. }
    destruct (Ascii.eqb e dquote); [apply Hnext |].
    destruct e as [[] [] [] [] [] [] [] []]; try done; try apply Hnext.
    destruct r' as [| h1 [| h2 [| h3 [| h4 r'']]]]; try done.
    destruct (hex4 h1 h2 h3 h4); [| done].
    apply rest_below_push. eapply rest_below_mono; [| apply IH]; simpl; lia.
  - destruct (N_of_ascii c <? 32)%N; [done |].
    apply rest_below_push. eapply rest_below_mono; [| apply IH]; simpl; lia.
Qed.

Lemma parse_string_rest s : rest_below (String.length s) (parse_string s).
Proof.
  unfold parse_string. eapply rest_below_bind; [apply scan_string_rest |].
  intros items r Hr. exact Hr.
Qed.

Lemma parse_int_part_rest s : rest_below (String.length s) (parse_int_part s).
Proof.
  assert (Hdigits : rest_below (String.length s)
                      match read_digits s 0%N 0 with
                      | (_, O, _) => Malformed
                      | (n, S _, r) => Parsed n r
                      end).
  { pose proof (read_digits_length s 0%N 0) as Hlen.
    destruct (read_digits s 0%N 0) as [[n [| k]] r]; [done |]. simpl. lia. }
  destruct s as [| c r]; [done |].
  destruct c as [[] [] [] [] [] [] [] []]; try exact Hdigits.
  simpl. lia.
Qed.

Lemma parse_fraction_rest int s : rest_below (S (String.length s)) (parse_fraction int s).
Proof.
  assert (Hplain : rest_below (S (String.length s)) (Parsed (int, O) s)) by (simpl; lia).
  destruct s as [| c r]; [done |].
  destruct c as [[] [] [] [] [] [] [] []]; try exact Hplain.
  cbn [parse_fraction].
  pose proof (read_digits_length r int 0) as Hlen.
  destruct (read_digits r int 0) as [[m [| k]] r']; [done |]. simpl. lia.
Qed.

Lemma parse_exponent_rest s : rest_below (S (String.length s)) (parse_exponent s).
Proof.
  destruct s as [| c r]; [simpl; lia |]. cbn [parse_exponent].
  destruct (Ascii.eqb c "e" || Ascii.eqb c "E"); [| simpl; lia].
  assert (Hdigits : forall (neg : bool) r1, String.length r1 <= String.length r ->
            rest_below (S (String.length (String c r)))
              match read_digits r1 0%N 0 with
              | (_, O, _) => Malformed
              | (e, S _, r2) => Parsed (if neg then (- Z.of_N e)%Z else Z.of_N e) r2
              end).
  { intros neg r1 Hr1. pose proof (read_digits_length r1 0%N 0) as Hlen.
    destruct (read_digits r1 0%N 0) as [[e [| k]] r2]; [done |]. simpl in *. lia. }
  destruct r as [| s1 r1]; [by apply (Hdigits false) |].
  destruct s1 as [[] [] [] [] [] [] [] []];
    first [ apply (Hdigits false); simpl; lia
          | apply (Hdigits true); simpl; lia ].
Qed.

Lemma parse_number_rest s : rest_below (String.length s) (parse_number s).
Proof.
  assert (Hbody : forall (neg : bool) s1, String.length s1 <= String.length s ->
            rest_below (String.length s)
              (bind (parse_int_part s1) (fun int s2 =>
               bind (parse_fraction int s2) (fun '(m, k) s3 =>
               bind (parse_exponent s3) (fun e s4 =>
                 let m' := if neg then (- Z.of_N m)%Z else Z.of_N m in
                 let '(mant, ex) := normalise m' (e - Z.of_nat k)%Z in
                 Parsed (Number mant ex) s4))))).
  { intros neg s1 Hs1.
    eapply rest_below_bind; [apply parse_int_part_rest |]. intros int s2 Hs2.
    eapply rest_below_bind; [apply parse_fraction_rest |]. intros [m k] s3 Hs3.
    eapply rest_below_bind; [apply parse_exponent_rest |]. intros e s4 Hs4.
    cbv zeta. destruct (normalise _ _) as [mant ex]. simpl. lia. }
  unfold parse_number. destruct s as [| c r]; [by apply (Hbody false) |].
  destruct c as [[] [] [] [] [] [] [] []];
    first [ by apply (Hbody false) | apply (Hbody true); simpl; lia ].
Qed.

Lemma skip_ws_cons s c r :
  skip_ws s = String c r -> String.length r < String.length s.
Proof. intros H. pose proof (skip_ws_length s) as Hlen. rewrite H in Hlen. simpl in Hlen. lia. Qed.

Lemma parse_rest fuel :
  (forall s, 2 * String.length s < fuel -> rest_below (String.length s) (parse_value fuel s)) /\
  (forall s, 2 * String.length s + 1 < fuel ->
             rest_below (String.length s) (parse_elements fuel s)) /\
  (forall s, 2 * String.length s + 1 < fuel ->
             rest_below (String.length s) (parse_members fuel s)).
Proof.
  induction fuel as [| fuel (IHv & IHe & IHm)]; [repeat split; intros; lia |].
  split; [| split]; intros s Hfuel.
  - cbn [parse_value]. destruct (skip_ws s) as [| c r] eqn:Hskip; [done |].
    apply skip_ws_cons in Hskip.
    destruct (Ascii.eqb c dquote).
    { eapply rest_below_bind; [apply parse_string_rest |]. intros k r' Hr'. simpl. lia. }
    assert (Hnumber : rest_below (String.length s) (parse_number (String c r))).
    { eapply rest_below_mono; [| apply parse_number_rest]. simpl. lia. }
    assert (Hliteral : forall lit v, rest_below (String.length s) (literal lit v r)).
    { intros lit v. eapply rest_below_mono; [| apply literal_rest]. lia. }
    assert (Hobject : rest_below (String.length s)
              match skip_ws r with
              | String "}" r' => Parsed (Object []) r'
              | _ => bind (parse_members fuel r) (fun ms rest => Parsed (Object ms) rest)
              end).
    { assert (Hmembers : rest_below (String.length s)
                (bind (parse_members fuel r) (fun ms rest => Parsed (Object ms) rest))).
      { eapply rest_below_bind; [apply IHm; lia |]. intros ms r' Hr'. simpl. lia. }
      destruct (skip_ws r) as [| d r'] eqn:Hskip'; [exact Hmembers |].
      apply skip_ws_cons in Hskip'.
      destruct d as [[] [] [] [] [] [] [] []]; try exact Hmembers. simpl. lia. }
    assert (Harray : rest_below (String.length s)
              match skip_ws r with
              | String "]" r' => Parsed (Array []) r'
              | _ => bind (parse_elements fuel r) (fun vs rest => Parsed (Array vs) rest)
              end).
    { assert (Helements : rest_below (String.length s)
                (bind (parse_elements fuel r) (fun vs rest => Parsed (Array vs) rest))).
      { eapply rest_below_bind; [apply IHe; lia |]. intros vs r' Hr'. simpl. lia. }
      destruct (skip_ws r) as [| d r'] eqn:Hskip'; [exact Helements |].
      apply skip_ws_cons in Hskip'.
      destruct d as [[] [] [] [] [] [] [] []]; try exact Helements. simpl. lia. }
    destruct c as [[] [] [] [] [] [] [] []];
      first [ exact Hnumber | exact Hobject | exact Harray | apply Hliteral ].
  - cbn [parse_elements].
    eapply rest_below_bind; [apply IHv; lia |]. intros v r Hr.
    destruct (skip_ws r) as [| d r'] eqn:Hskip; [done |].
    apply skip_ws_cons in Hskip.
    assert (Hmore : rest_below (String.length s) (push v (parse_elements fuel r'))).
    { apply rest_below_push. eapply rest_below_mono; [| apply IHe]; lia. }
    destruct d as [[] [] [] [] [] [] [] []];
      first [ done | exact Hmore | simpl; lia ].
  - cbn [parse_members]. destruct (skip_ws s) as [| q r] eqn:Hskip; [done |].
    apply skip_ws_cons in Hskip.
    destruct (Ascii.eqb q dquote); [| done].
    eapply rest_below_bind; [apply parse_string_rest |]. intros k r1 Hr1.
    destruct (skip_ws r1) as [| d r2] eqn:Hskip1; [done |].
    apply skip_ws_cons in Hskip1.
    assert (Hvalue : rest_below (String.length s)
              (bind (parse_value fuel r2) (fun v r3 =>
                 match skip_ws r3 with
                 | String "," r4 => push (k, v) (parse_members fuel r4)
                 | String "}" r4 => Parsed [(k, v)] r4
                 | _ => Malformed
                 end))).
    { eapply rest_below_bind; [apply IHv; lia |]. intros v r3 Hr3.
      destruct (skip_ws r3) as [| d' r4] eqn:Hskip3; [done |].
      apply skip_ws_cons in Hskip3.
      assert (Hmore : rest_below (String.length s) (push (k, v) (parse_members fuel r4))).
      { apply rest_below_push. eapply rest_below_mono; [| apply IHm]; lia. }
      destruct d' as [[] [] [] [] [] [] [] []];
        first [ done | exact Hmore | simpl; lia ]. }
    destruct d as [[] [] [] [] [] [] [] []]; first [ done | exact Hvalue ].
Qed.

(** [JSON.parse] never stops for want of fuel, and what it returns comes
    with nothing left over. *)
Lemma parse_answers (s : string) :
  (exists v, parse s = Parsed v EmptyString) \/ parse s = Malformed.
Proof.
  unfold parse.
  pose proof (proj1 (parse_rest (2 * String.length s + 1)) s ltac:(lia)) as Hrest.
  destruct (parse_value _ s) as [v r | |]; [| by right | done].
  cbn [bind]. destruct (skip_ws r); [left; by exists v | by right].
Qed.

Lemma loadAll_answers (store : gmap string string) :
  (exists v, loadAll store = Parsed v EmptyString) \/ loadAll store = Malformed.
Proof. apply parse_answers. Qed.

End Totality.

(** ** Loading the collection at start-up *)

Lemma mount_answers (store : gmap string string) : mount store <> NoAnswer.
Proof.
  unfold mount. destruct (loadAll_answers store) as [[v ->] | ->]; [| done].
  by destruct (to_chats v).
Qed.

(** C5, as amended.  Loading always ends: it returns the value that the
    stored text denotes, or it throws the parser's SyntaxError.  It returns
    the empty sequence when nothing is stored under the key or the stored
    text is empty, and it returns the saved collection when the store holds
    what [saveAll] wrote.  When the stored text is not empty and is not
    valid JSON, nothing is returned: the SyntaxError is thrown inside the
    state initialiser and the component does not mount. *)
Theorem loadAll_spec :
  (forall store,
     (exists v, loadAll store = JSON.Parsed v EmptyString) \/ loadAll store = JSON.Malformed) /\
  (forall store,
     getItem "chats" store = None \/ getItem "chats" store = Some EmptyString ->
     loadAll store = JSON.Parsed (chats_value []) EmptyString /\
     mount store = Ready (persist (initialState [] store))) /\
  (forall T store,
     loadAll (saveAll T store) = JSON.Parsed (chats_value T) EmptyString /\
     mount (saveAll T store) = Ready (persist (initialState T (saveAll T store)))) /\
  (forall store c s,
     getItem "chats" store = Some (String c s) ->
     JSON.parse (String c s) = JSON.Malformed ->
     loadAll store = JSON.Malformed /\ mount store = SyntaxError).
Proof.
  split; [apply loadAll_answers |]. split; [| split].
  - intros store Hnone.
    assert (Hload : loadAll store = JSON.Parsed (chats_value []) EmptyString).
    { unfold loadAll. by destruct Hnone as [-> | ->]. }
    split; [exact Hload |]. unfold mount. by rewrite Hload.
  - intros T store. pose proof (loadAll_saveAll T store) as Hload.
    split; [exact Hload |]. unfold mount. by rewrite Hload, to_chats_value.
  - intros store c s Hitem Hparse.
    assert (Hload : loadAll store = JSON.Malformed).
    { unfold loadAll. by rewrite Hitem. }
    split; [exact Hload |]. unfold mount. by rewrite Hload.
Qed.

Lemma loadAll_spec_witness :
  (getItem "chats" (∅ : gmap string string) = None /\
   loadAll ∅ = JSON.Parsed (chats_value []) EmptyString) /\
  (getItem "chats" brokenStore = Some "[{" /\
   JSON.parse "[{" = JSON.Malformed /\
   mount brokenStore = SyntaxError).
Proof.
  destruct loadAll_spec as (_ & Hempty & _ & Hbad).
  split.
  - assert (Hnone : getItem "chats" (∅ : gmap string string) = None) by reflexivity.
    split; [exact Hnone |]. exact (proj1 (Hempty ∅ (or_introl Hnone))).
  - assert (Hitem : getItem "chats" brokenStore = Some "[{") by reflexivity.
    assert (Hparse : JSON.parse "[{" = JSON.Malformed) by reflexivity.
    split; [exact Hitem |]. split; [exact Hparse |].
    exact (proj2 (Hbad brokenStore _ _ Hitem Hparse)).
Defined.

(** C5 as stated fails: on a store whose item is cut off, the load does not
    return the empty sequence, it throws; and on a store that holds a
    number, what it returns is no sequence of threads. *)
Lemma malformed_store_throws :
  loadAll brokenStore = JSON.Malformed /\
  loadAll brokenStore <> JSON.Parsed (chats_value []) EmptyString /\
  mount brokenStore = SyntaxError /\
  loadAll numberStore = JSON.Parsed (JSON.Number 3 0) EmptyString /\
  mount numberStore = NotChats (JSON.Number 3 0).
Proof. repeat split; try reflexivity. discriminate. Qed.

(** * Further properties *)

(** ** What a call of [handleSendMessage] leaves behind *)

Section Settled.

Lemma finishSend_settled r p st :
  streaming p st -> llmResponseText p = EmptyString ->
  finishSend r p st = Some (settled r (target p) (updatedChatMessages p) st).
Proof.
  intros Hs Htext. unfold finishSend, settled.
  destruct r as [| | chunks ending]; [done | done |].
  rewrite (readAll_streaming chunks _ _ Hs), Htext.
  destruct ending; reflexivity.
Qed.

(** A fresh send: nothing happens, or the user's message is shown and
    stored, the placeholder is shown, and the response settles the rest. *)
Lemma handleSendMessage_cases message r st :
  (handleSendMessage message None r st = Some st /\
   (selectedChat st = None \/ selectedLLM st = EmptyString)) \/
  (exists chat,
     selectedChat st = Some chat /\ selectedLLM st <> EmptyString /\
     handleSendMessage message None r st
       = Some (settled r chat (messages st ++ [mkMessage message true])
                 (setMessages ((messages st ++ [mkMessage message true])
                                 ++ [mkMessage EmptyString false])
                    (setChats (map (replaceMessages chat (messages st ++ [mkMessage message true]))
                                   (chats st))
                       (setMessages (messages st ++ [mkMessage message true]) st))))).
Proof.
  destruct (selectedChat st) as [chat |] eqn:Hsel.
  - destruct (String.eqb_spec (selectedLLM st) EmptyString) as [Hnone | Hllm].
    + left. split; [| by right].
      unfold handleSendMessage, startSend. rewrite Hsel, Hnone. reflexivity.
    + right. exists chat. split; [done |]. split; [done |].
      destruct (startSend_guarded message None st chat Hsel Hllm) as (st1 & req & p & Hstart).
      destruct (startSend_streaming _ _ _ _ _ _ Hstart) as (Hs & Htext & _ & _).
      destruct (startSend_Some _ _ _ _ _ _ Hstart) as (chat' & Hsel' & _ & _ & Hp & Hst1).
      assert (chat' = chat) as -> by congruence.
      unfold handleSendMessage. rewrite Hstart, (finishSend_settled r p st1 Hs Htext).
      simpl in Hp, Hst1. by rewrite Hp, Hst1.
  - left. split; [| by left].
    unfold handleSendMessage, startSend. by rewrite Hsel.
Qed.

(** An edit: nothing happens (no thread selected), or the view is cut and
    stored, and then either the index was past the end, or no model is
    selected, or a send is started and the response settles the rest. *)
Lemma step_edit_cases index newText r st :
  (selectedChat st = None /\ step (EditMessage index newText r) st = Some st) \/
  (exists chat cut,
     selectedChat st = Some chat /\
     (forall j m, cut !! j = Some m -> m = mkMessage newText (isUser m) \/ messages st !! j = Some m) /\
     let st1 := setChats (map (replaceMessages chat cut) (chats st)) (setMessages cut st) in
     (step (EditMessage index newText r) st = Some st1 \/
      step (EditMessage index newText r) st
        = Some (settled r chat cut (setMessages (cut ++ [mkMessage EmptyString false]) st1)))).
Proof.
  simpl. unfold updateMessage.
  destruct (selectedChat st) as [chat |] eqn:Hsel; [| by left].
  right.
  set (cut := take (index + 1)
                (imap (fun i msg => if (i =? index)%nat then mkMessage newText (isUser msg) else msg)
                      (messages st))).
  exists chat, cut. split; [done |]. split.
  { intros j m Hj. unfold cut in Hj. apply lookup_take_Some in Hj as [Hj _].
    rewrite list_lookup_imap in Hj.
    destruct (messages st !! j) as [x |]; simpl in Hj; [| done].
    destruct (j =? index)%nat; injection Hj as <-; [by left | by right]. }
  cbv zeta. destruct (cut !! index) as [m |]; [| by left].
  destruct (startSend (text m) (Some cut)
              (setChats (map (replaceMessages chat cut) (chats st)) (setMessages cut st)))
    as [st2 [[req p] |]] eqn:Hstart.
  - right.
    destruct (startSend_streaming _ _ _ _ _ _ Hstart) as (Hs & Htext & _ & _).
    destruct (startSend_Some _ _ _ _ _ _ Hstart) as (chat' & Hsel' & _ & _ & Hp & Hst2).
    simpl in Hsel'. assert (chat' = chat) as -> by congruence.
    rewrite (finishSend_settled r p st2 Hs Htext). simpl in Hp, Hst2. by rewrite Hp, Hst2.
  - left. unfold startSend in Hstart. simpl in Hstart. rewrite Hsel in Hstart.
    destruct (String.eqb (selectedLLM st) EmptyString); by injection Hstart as <-.
Qed.

Lemma settled_othersKept r chat base st : othersKept st (settled r chat base st).
Proof.
  unfold settled. destruct r as [| | chunks []]; by repeat split.
Qed.

End Settled.

(** ** Invariants of the reachable states *)

Section Invariants.

Lemma othersKept_refl st : othersKept st st.
Proof. by repeat split. Qed.

Lemma othersKept_trans a b c : othersKept a b -> othersKept b c -> othersKept a c.
Proof.
  unfold othersKept. intros (? & ? & ? & ? & ? & ? & ? & ?) (? & ? & ? & ? & ? & ? & ? & ?).
  repeat split; congruence.
Qed.

Lemma step_send_othersKept message r st st' :
  step (SendMessage message r) st = Some st' -> othersKept st st'.
Proof.
  simpl. destruct (handleSendMessage_cases message r st) as [[-> _] | (chat & _ & _ & ->)].
  - intros [= <-]. apply othersKept_refl.
  - intros [= <-]. eapply othersKept_trans; [| apply settled_othersKept]. by repeat split.
Qed.

Lemma step_edit_othersKept index newText r st st' :
  step (EditMessage index newText r) st = Some st' -> othersKept st st'.
Proof.
  destruct (step_edit_cases index newText r st)
    as [[_ ->] | (chat & cut & _ & _ & [-> | ->])]; intros [= <-].
  - apply othersKept_refl.
  - by repeat split.
  - eapply othersKept_trans; [| apply settled_othersKept]. by repeat split.
Qed.

(** *** The dialogue *)

Lemma step_dialogue e st st' :
  step e st = Some st' -> dialogueConsistent st -> dialogueConsistent st'.
Proof.
  assert (Hkept : forall s, isModalOpen s = isModalOpen st -> chatToDelete s = chatToDelete st ->
            dialogueConsistent st -> dialogueConsistent s).
  { unfold dialogueConsistent. by intros s -> ->. }
  assert (Hothers : forall s, othersKept st s -> dialogueConsistent st -> dialogueConsistent s).
  { intros s (_ & _ & _ & _ & Hm & _ & _ & Hd). by apply Hkept. }
  destruct e; try (simpl; intros [= <-]; by apply Hkept).
  - simpl. intros [= <-]. unfold handleSelectChat. destruct (find _ _); by apply Hkept.
  - simpl. intros [= <-] _. by split.
  - simpl. intros [= <-] Hc. unfold confirmDeleteChat.
    destruct (chatToDelete st); [by split | done].
  - simpl. intros [= <-] _. by split.
  - intros H. apply Hothers. by eapply step_send_othersKept.
  - intros H. apply Hothers. by eapply step_edit_othersKept.
  - simpl. intros [= <-]. unfold fetchModels.
    destruct r as [| | | [| m ms]]; by apply Hkept.
Qed.

Lemma run_dialogue store st es st' :
  mount store = Ready st -> run es st = Some st' -> dialogueConsistent st'.
Proof.
  intros Hmount. destruct (mount_Ready _ _ Hmount) as [cs ->].
  assert (Hinit : dialogueConsistent (persist (initialState cs store))) by (by split).
  clear Hmount. revert Hinit. generalize (persist (initialState cs store)).
  induction es as [| e es IH]; intros s Hs; simpl.
  - by intros [= <-].
  - destruct (step e s) as [s1 |] eqn:Hstep; [| done].
    apply IH. by eapply step_dialogue.
Qed.

(** *** The store *)

Lemma otherKeysKept_refl st : otherKeysKept st st.
Proof. by intros key _. Qed.

Lemma otherKeysKept_trans a b c :
  otherKeysKept a b -> otherKeysKept b c -> otherKeysKept a c.
Proof. intros Hab Hbc key Hkey. by rewrite Hbc, Hab. Qed.

Lemma setChats_store cs st : otherKeysKept st (setChats cs st) /\ stored (setChats cs st).
Proof.
  split.
  - intros key Hkey. unfold getItem. simpl. unfold saveAll, setItem.
    by rewrite lookup_insert_ne.
  - unfold stored, getItem. simpl. unfold saveAll, setItem. by rewrite lookup_insert_eq.
Qed.

Lemma same_store st st' :
  chats st' = chats st -> localStorage st' = localStorage st ->
  otherKeysKept st st' /\ (stored st -> stored st').
Proof.
  intros Hc Hs. split.
  - intros key _. by rewrite Hs.
  - unfold stored. by rewrite Hs, Hc.
Qed.

Lemma settled_store r chat base st :
  otherKeysKept st (settled r chat base st) /\ (stored st -> stored (settled r chat base st)).
Proof.
  unfold settled. destruct r as [| | chunks []]; try by apply same_store.
  destruct (setChats_store
              (map (replaceMessages chat
                      (base ++ [mkMessage (joined (map TextDecoder.decode chunks)) false]))
                   (chats st))
              (setMessages (base ++ [mkMessage (joined (map TextDecoder.decode chunks)) false]) st))
    as [Hkeys Hstored].
  split; [exact Hkeys | by intros _].
Qed.

Lemma step_store e st st' :
  step e st = Some st' -> otherKeysKept st st' /\ (stored st -> stored st').
Proof.
  assert (Hset : forall cs s, chats s = chats st -> localStorage s = localStorage st ->
            otherKeysKept st (setChats cs s) /\ (stored st -> stored (setChats cs s))).
  { intros cs s Hc Hs. destruct (setChats_store cs s) as [Hkeys Hstored].
    split; [| by intros _]. intros key Hkey. rewrite (Hkeys key Hkey). by rewrite Hs. }
  destruct e; try (simpl; intros [= <-]; by apply same_store).
  - simpl. intros [= <-]. unfold handleSelectChat. destruct (find _ _); by apply same_store.
  - simpl. intros [= <-]. by apply (Hset _ st).
  - simpl. intros [= <-]. by apply (Hset _ st).
  - simpl. intros [= <-]. unfold confirmDeleteChat.
    destruct (chatToDelete st); [by apply (Hset _ st) | by apply same_store].
  - simpl. destruct (handleSendMessage_cases message r st) as [[-> _] | (chat & _ & _ & ->)];
      intros [= <-]; [by apply same_store |].
    match goal with
    | |- context [settled r chat ?b ?s] =>
        destruct (settled_store r chat b s) as [Hk Hs];
        destruct (Hset (map (replaceMessages chat b) (chats st)) (setMessages b st)
                    eq_refl eq_refl) as [Hk0 Hs0]
    end.
    split.
    + eapply otherKeysKept_trans; [| exact Hk]. exact Hk0.
    + intros H. apply Hs. exact (Hs0 H).
  - destruct (step_edit_cases index newText r st)
      as [[_ ->] | (chat & cut & _ & _ & [-> | ->])]; intros [= <-].
    + by apply same_store.
    + by apply (Hset _ (setMessages cut st)).
    + match goal with
      | |- context [settled r chat ?b ?s] =>
          destruct (settled_store r chat b s) as [Hk Hs]
      end.
      destruct (Hset (map (replaceMessages chat cut) (chats st)) (setMessages cut st)
                  eq_refl eq_refl) as [Hk0 Hs0].
      split.
      * eapply otherKeysKept_trans; [| exact Hk]. exact Hk0.
      * intros H. apply Hs. exact (Hs0 H).
  - simpl. intros [= <-]. unfold fetchModels.
    destruct r as [| | | [| m ms]]; by apply same_store.
Qed.

Lemma run_store es st st' :
  run es st = Some st' -> otherKeysKept st st' /\ (stored st -> stored st').
Proof.
  revert st. induction es as [| e es IH]; intros st; simpl.
  - intros [= <-]. by apply same_store.
  - destruct (step e st) as [s1 |] eqn:Hstep; [| done].
    intros Hrun. destruct (step_store _ _ _ Hstep) as [Hk1 Hs1].
    destruct (IH _ Hrun) as [Hk2 Hs2].
    split; [by eapply otherKeysKept_trans | tauto].
Qed.

Lemma mount_store store st :
  mount store = Ready st ->
  stored st /\ forall key, key <> "chats" -> getItem key (localStorage st) = getItem key store.
Proof.
  intros Hmount. destruct (mount_Ready _ _ Hmount) as [cs ->]. split.
  - unfold stored, getItem. simpl. unfold saveAll, setItem. by rewrite lookup_insert_eq.
  - intros key Hkey. unfold getItem. simpl. unfold saveAll, setItem.
    by rewrite lookup_insert_ne.
Qed.

Lemma persist_stored st : stored st -> persist st = st.
Proof.
  unfold stored, getItem. intros Hs. destruct st as [cs sel ms sb mo llm mo' tv tm cd ls].
  unfold persist. simpl in *. f_equal. unfold saveAll, setItem. by apply insert_id.
Qed.

Lemma mount_stored st :
  stored st -> mount (localStorage st) = Ready (initialState (chats st) (localStorage st)).
Proof.
  intros Hs. unfold mount.
  assert (Hload : loadAll (localStorage st) = JSON.Parsed (chats_value (chats st)) EmptyString).
  { rewrite <- (loadAll_saveAll (chats st) (localStorage st)). f_equal.
    unfold saveAll, setItem. symmetry. by apply insert_id. }
  rewrite Hload, to_chats_value. f_equal.
  apply (persist_stored (initialState (chats st) (localStorage st))). exact Hs.
Qed.

End Invariants.

(** ** What is shown and what is stored *)

Section View.

Lemma storedMessages_rename cs chatId newName c :
  storedMessages c (map (rename chatId newName) cs) = storedMessages c cs.
Proof.
  unfold storedMessages. induction cs as [| x cs IH]; simpl; [done |].
  assert (Hid : ChatType.id (rename chatId newName x) = ChatType.id x).
  { unfold rename. by destruct (ChatType.id x =? chatId)%Z. }
  assert (Hms : ChatType.messages (rename chatId newName x) = ChatType.messages x).
  { unfold rename. by destruct (ChatType.id x =? chatId)%Z. }
  rewrite Hid. destruct (ChatType.id x =? c)%Z; simpl; [by rewrite Hms | exact IH].
Qed.

Lemma storedMessages_fresh cs (new : ChatType) :
  ~ In (ChatType.id new) (map ChatType.id cs) ->
  storedMessages (ChatType.id new) (cs ++ [new]) = Some (ChatType.messages new).
Proof.
  unfold storedMessages. induction cs as [| x cs IH]; simpl.
  - intros _. by rewrite Z.eqb_refl.
  - intros Hfresh. destruct (Z.eqb_spec (ChatType.id x) (ChatType.id new)) as [Heq | _].
    + exfalso. apply Hfresh. by left.
    + apply IH. intros Hin. apply Hfresh. by right.
Qed.

Lemma storedMessages_old cs (new : ChatType) c ms :
  storedMessages c cs = Some ms -> storedMessages c (cs ++ [new]) = Some ms.
Proof.
  unfold storedMessages. induction cs as [| x cs IH]; simpl; [done |].
  destruct (ChatType.id x =? c)%Z; [done | exact IH].
Qed.

Lemma storedMessages_find cs c chat :
  find (fun x => (ChatType.id x =? c)%Z) cs = Some chat ->
  storedMessages c cs = Some (ChatType.messages chat).
Proof. unfold storedMessages. by intros ->. Qed.

Lemma viewExtendsStored_same st st' :
  chats st' = chats st -> selectedChat st' = selectedChat st -> messages st' = messages st ->
  viewExtendsStored st -> viewExtendsStored st'.
Proof. unfold viewExtendsStored. intros -> -> ->. done. Qed.

Lemma settled_view r chat base st0 :
  selectedChat st0 = Some chat ->
  In chat (map ChatType.id (chats st0)) ->
  storedMessages chat (chats st0) = Some base ->
  viewExtendsStored (settled r chat base (setMessages (base ++ [mkMessage EmptyString false]) st0)).
Proof.
  intros Hsel Hin Hsaved c Hc.
  assert (c = chat) as ->.
  { destruct (settled_othersKept r chat base
                (setMessages (base ++ [mkMessage EmptyString false]) st0)) as [Hs _].
    rewrite Hs in Hc. simpl in Hc. congruence. }
  unfold settled. destruct r as [| | chunks []]; simpl.
  - exists base. split; [done |]. right. by eexists.
  - exists base. split; [done |]. right. by eexists.
  - eexists. split; [by apply storedMessages_replace |]. by left.
  - exists base. split; [done |]. right. by eexists.
Qed.

Lemma step_view e st st' :
  match e with
  | AddChat now _ => ~ In now (map ChatType.id (chats st))
  | _ => True
  end ->
  step e st = Some st' ->
  selectionExists st -> viewExtendsStored st -> viewExtendsStored st'.
Proof.
  intros Hfresh Hstep Hex Hview.
  destruct e; try (simpl in Hstep; injection Hstep as <-; by apply (viewExtendsStored_same st)).
  - simpl in Hstep. injection Hstep as <-. unfold handleSelectChat.
    destruct (find _ (chats st)) as [chat |] eqn:Hfind; [| done].
    intros c [= <-]. simpl. exists (ChatType.messages chat).
    split; [by apply storedMessages_find | by left].
  - simpl in Hstep. injection Hstep as <-. intros c [= <-]. simpl. exists [].
    split; [| by left].
    apply (storedMessages_fresh (chats st) (ChatType.mk now _ today [])). exact Hfresh.
  - simpl in Hstep. injection Hstep as <-. intros c Hc. simpl in *.
    rewrite storedMessages_rename. by apply Hview.
  - simpl in Hstep. injection Hstep as <-. unfold confirmDeleteChat.
    destruct (chatToDelete st); [by intros c | done].
  - simpl in Hstep.
    destruct (handleSendMessage_cases message r st) as [[Hrun _] | (chat & Hsel & _ & Hrun)];
      rewrite Hrun in Hstep; injection Hstep as <-; [done |].
    apply settled_view.
    + done.
    + simpl. rewrite replaceMessages_ids. by apply Hex.
    + simpl. apply storedMessages_replace. by apply Hex.
  - destruct (step_edit_cases index newText r st)
      as [[_ Hrun] | (chat & cut & Hsel & _ & [Hrun | Hrun])];
      rewrite Hrun in Hstep; injection Hstep as <-.
    + done.
    + intros c Hc. simpl in *. assert (c = chat) as -> by congruence.
      exists cut. split; [| by left]. apply storedMessages_replace. by apply Hex.
    + apply settled_view.
      * done.
      * simpl. rewrite replaceMessages_ids. by apply Hex.
      * simpl. apply storedMessages_replace. by apply Hex.
  - simpl in Hstep. injection Hstep as <-. apply (viewExtendsStored_same st); try done;
      unfold fetchModels; by destruct r as [| | | [| m ms]].
Qed.

Lemma run_view es st st' :
  freshAdds es st -> run es st = Some st' ->
  selectionExists st -> viewExtendsStored st -> viewExtendsStored st'.
Proof.
  revert st. induction es as [| e es IH]; intros st; simpl.
  - by intros _ [= <-].
  - destruct (step e st) as [s1 |] eqn:Hstep; [| done].
    intros [Hfresh Hrest] Hrun Hex Hview.
    apply (IH s1); [done | done | by eapply step_selection | by eapply step_view].
Qed.

End View.

(** X1.  In every state reached from a mounted one, the selected id is the
    id of a thread of the collection, so the selected thread always has a
    stored sequence. *)
Theorem selection_is_a_thread (store : gmap string string) (st st' : State)
    (es : list Event) (c : Z) :
  mount store = Ready st -> run es st = Some st' -> selectedChat st' = Some c ->
  In c (map ChatType.id (chats st')) /\
  exists saved, storedMessages c (chats st') = Some saved.
Proof.
  intros Hmount Hrun Hsel.
  pose proof (run_selection _ _ _ _ Hmount Hrun c Hsel) as Hin.
  split; [exact Hin |].
  destruct (find_id_present _ _ Hin) as [chat Hfind].
  exists (ChatType.messages chat). by apply storedMessages_find.
Qed.

Lemma selection_is_a_thread_witness :
  mount ∅ = Ready freshState /\
  exists st',
    run sampleRun freshState = Some st' /\ selectedChat st' = Some 1%Z /\
    In 1%Z (map ChatType.id (chats st')).
Proof.
  assert (Hmount : mount ∅ = Ready freshState) by (vm_compute; reflexivity).
  split; [exact Hmount |].
  destruct (run sampleRun freshState) as [st' |] eqn:Hrun; [| vm_compute in Hrun; discriminate Hrun].
  exists st'. split; [reflexivity |].
  assert (Hsel : selectedChat st' = Some 1%Z) by (pose proof Hrun as Hv; vm_compute in Hv; injection Hv as <-; vm_compute; reflexivity).
  split; [exact Hsel |].
  exact (proj1 (selection_is_a_thread ∅ freshState st' sampleRun 1 Hmount Hrun Hsel)).
Defined.

(** X3.  In every state reached from a mounted one, the dialogue is open
    exactly when a deletion is pending; so whenever the dialogue is open,
    confirming removes the threads with the pending id and closes it. *)
Theorem dialogue_open_iff_pending (store : gmap string string) (st st' : State)
    (es : list Event) :
  mount store = Ready st -> run es st = Some st' ->
  (isModalOpen st' = true <-> chatToDelete st' <> None) /\
  (isModalOpen st' = true ->
   exists d,
     chatToDelete st' = Some d /\
     chats (confirmDeleteChat st') = filter (fun chat => ChatType.id chat <> d) (chats st') /\
     isModalOpen (confirmDeleteChat st') = false /\
     chatToDelete (confirmDeleteChat st') = None).
Proof.
  intros Hmount Hrun. pose proof (run_dialogue _ _ _ _ Hmount Hrun) as Hd.
  split; [exact Hd |]. intros Hopen. apply Hd in Hopen.
  unfold confirmDeleteChat. destruct (chatToDelete st') as [d |]; [| done].
  exists d. by repeat split.
Qed.

Lemma dialogue_open_iff_pending_witness :
  mount ∅ = Ready freshState /\
  exists st',
    run sampleRun freshState = Some st' /\ isModalOpen st' = true /\
    map ChatType.id (chats (confirmDeleteChat st')) = [1%Z].
Proof.
  assert (Hmount : mount ∅ = Ready freshState) by (vm_compute; reflexivity).
  split; [exact Hmount |].
  destruct (run sampleRun freshState) as [st' |] eqn:Hrun; [| vm_compute in Hrun; discriminate Hrun].
  exists st'. split; [reflexivity |].
  assert (Hopen : isModalOpen st' = true) by (pose proof Hrun as Hv; vm_compute in Hv; injection Hv as <-; vm_compute; reflexivity).
  split; [exact Hopen |].
  destruct (proj2 (dialogue_open_iff_pending ∅ freshState st' sampleRun Hmount Hrun) Hopen)
    as (d & Hd & Hchats & _).
  rewrite Hchats. pose proof Hrun as Hv. vm_compute in Hv. injection Hv as <-.
  vm_compute in Hd. injection Hd as <-. vm_compute. reflexivity.
Defined.

(** X4.  The component writes one key of the store only: in every state
    reached from a mounted one, the item under [chats] is the text of the
    collection in memory, and every other key holds what it held before
    the component was mounted. *)
Theorem store_only_chats_key (store : gmap string string) (st st' : State)
    (es : list Event) :
  mount store = Ready st -> run es st = Some st' ->
  getItem "chats" (localStorage st') = Some (JSON.stringify (chats st')) /\
  forall key, key <> "chats" -> getItem key (localStorage st') = getItem key store.
Proof.
  intros Hmount Hrun.
  destruct (mount_store _ _ Hmount) as [Hs0 Hk0].
  destruct (run_store _ _ _ Hrun) as [Hk Hs].
  split; [by apply Hs |].
  intros key Hkey. rewrite (Hk key Hkey). by apply Hk0.
Qed.

Lemma store_only_chats_key_witness :
  exists st st',
    mount themedStore = Ready st /\ run sampleRun st = Some st' /\
    getItem "theme" (localStorage st') = Some "dark".
Proof.
  destruct (mount themedStore) as [st | | |] eqn:Hmount;
    try (vm_compute in Hmount; discriminate Hmount).
  destruct (run sampleRun st) as [st' |] eqn:Hrun.
  - exists st, st'. split; [reflexivity |]. split; [exact Hrun |].
    rewrite (proj2 (store_only_chats_key themedStore st st' sampleRun Hmount Hrun) "theme");
      [reflexivity | discriminate].
  - exfalso. vm_compute in Hmount. injection Hmount as <-. vm_compute in Hrun. discriminate Hrun.
Defined.

(** ** The handlers of the thread list, and sends that end early *)

Section Handlers.

Lemma find_append {A : Type} (f : A -> bool) (l1 l2 : list A) :
  find f (l1 ++ l2) = match find f l1 with Some x => Some x | None => find f l2 end.
Proof.
  induction l1 as [| x l1 IH]; simpl; [done |]. by destruct (f x).
Qed.

Lemma rename_id chatId newName (c : ChatType) :
  ChatType.id (rename chatId newName c) = ChatType.id c.
Proof. unfold rename. by destruct (ChatType.id c =? chatId)%Z. Qed.

Lemma rename_absent cs chatId newName :
  ~ In chatId (map ChatType.id cs) -> map (rename chatId newName) cs = cs.
Proof.
  induction cs as [| c cs IH]; simpl; [done |].
  intros Hnot. rewrite IH by tauto. f_equal.
  unfold rename. destruct (Z.eqb_spec (ChatType.id c) chatId); [tauto | done].
Qed.

(** A fresh send that passes the guard. *)
Lemma step_send_started message r st chat :
  selectedChat st = Some chat -> selectedLLM st <> EmptyString ->
  step (SendMessage message r) st
    = Some (settled r chat (messages st ++ [mkMessage message true])
              (setMessages ((messages st ++ [mkMessage message true])
                              ++ [mkMessage EmptyString false])
                 (setChats (map (replaceMessages chat (messages st ++ [mkMessage message true]))
                                (chats st))
                    (setMessages (messages st ++ [mkMessage message true]) st)))).
Proof.
  intros Hsel Hllm. simpl.
  destruct (handleSendMessage_cases message r st)
    as [[_ [Hnone | Hnone]] | (chat' & Hsel' & _ & ->)]; [congruence | done |].
  by assert (chat' = chat) as -> by congruence.
Qed.

(** An edit within the view that passes the guard. *)
Lemma step_edit_started index newText r st chat m :
  selectedChat st = Some chat -> selectedLLM st <> EmptyString ->
  messages st !! index = Some m ->
  let cut := take index (messages st) ++ [mkMessage newText (isUser m)] in
  step (EditMessage index newText r) st
    = Some (settled r chat cut
              (setMessages (cut ++ [mkMessage EmptyString false])
                 (setChats (map (replaceMessages chat cut) (chats st)) (setMessages cut st)))).
Proof.
  intros Hsel Hllm Hm cut. simpl. unfold updateMessage.
  rewrite Hsel, (edit_truncate _ _ _ _ Hm). fold cut. cbv zeta.
  assert (Hcut : cut !! index = Some (mkMessage newText (isUser m))).
  { unfold cut. apply list_lookup_middle. rewrite length_take.
    pose proof (lookup_lt_Some _ _ _ Hm). lia. }
  rewrite Hcut.
  set (st1 := setChats (map (replaceMessages chat cut) (chats st)) (setMessages cut st)).
  destruct (startSend_guarded newText (Some cut) st1 chat Hsel Hllm) as (st2 & req & p & Hstart).
  simpl. rewrite Hstart.
  destruct (startSend_streaming _ _ _ _ _ _ Hstart) as (Hs & Htext & _ & _).
  destruct (startSend_Some _ _ _ _ _ _ Hstart) as (chat' & Hsel' & _ & _ & Hp & Hst2).
  simpl in Hsel'. assert (chat' = chat) as -> by congruence.
  rewrite (finishSend_settled r p st2 Hs Htext). simpl in Hp, Hst2. by rewrite Hp, Hst2.
Qed.

Lemma imap_edit_past_end (ms : list Message) (index : nat) (newText : string) :
  length ms <= index ->
  take (index + 1)
    (imap (fun i msg => if (i =? index)%nat then mkMessage newText (isUser msg) else msg) ms)
    = ms.
Proof.
  intros Hlen. apply list_eq. intros i.
  rewrite lookup_take, list_lookup_imap.
  destruct (decide (i < index + 1)) as [Hi | Hi].
  - destruct (ms !! i) as [x |] eqn:Hx; simpl; [| done].
    pose proof (lookup_lt_Some _ _ _ Hx).
    destruct (Nat.eqb_spec i index); [lia | done].
  - symmetry. apply lookup_ge_None_2. lia.
Qed.

End Handlers.

(** X6.  Renaming changes names only: every thread keeps its place, id,
    date and messages, and gets the new name exactly when it carries the
    given id; the new name is taken as it is, the empty text included.
    The selection and the view are left alone, the collection is saved,
    and the notice of success is shown in every case, also when no thread
    carries the id and the collection is therefore unchanged. *)
Theorem handleRenameChat_renames_by_id (chatId : Z) (newName : string) (st : State) :
  let st' := handleRenameChat chatId newName st in
  length (chats st') = length (chats st) /\
  (forall i chat, chats st !! i = Some chat ->
     chats st' !! i =
       Some (ChatType.mk (ChatType.id chat)
               (if (ChatType.id chat =? chatId)%Z then newName else ChatType.name chat)
               (ChatType.date chat) (ChatType.messages chat))) /\
  (~ In chatId (map ChatType.id (chats st)) -> chats st' = chats st) /\
  selectedChat st' = selectedChat st /\ messages st' = messages st /\
  isToastVisible st' = true /\ toastMessage st' = "Chat renamed successfully!" /\
  getItem "chats" (localStorage st') = Some (JSON.stringify (chats st')).
Proof.
  cbv zeta. unfold handleRenameChat. simpl.
  split; [by rewrite length_map |]. split.
  { intros i chat Hi. rewrite list_lookup_fmap, Hi. simpl. unfold rename.
    destruct (ChatType.id chat =? chatId)%Z; [done | by destruct chat]. }
  split; [apply rename_absent |].
  repeat split. unfold getItem, saveAll, setItem. apply lookup_insert_eq.
Qed.

(** X7.  A new thread is put last, with no messages and a name made from
    the number of threads; it is selected and the view is emptied.  The
    threads that were there are untouched, so looking up any other id
    gives what it gave before; looking up the new id gives the empty
    sequence, unless an older thread already carries that id, in which
    case the older thread's sequence is found. *)
Theorem handleAddChat_appends (now : Z) (today : string) (st : State) :
  let st' := handleAddChat now today st in
  chats st' =
    chats st ++
      [ChatType.mk now ("Chat " +:+ N_to_string (N.of_nat (length (chats st) + 1))) today []] /\
  selectedChat st' = Some now /\ messages st' = [] /\
  (forall c, c <> now -> storedMessages c (chats st') = storedMessages c (chats st)) /\
  storedMessages now (chats st') =
    Some (default [] (storedMessages now (chats st))) /\
  getItem "chats" (localStorage st') = Some (JSON.stringify (chats st')).
Proof.
  cbv zeta. unfold handleAddChat. simpl.
  split; [done |]. split; [done |]. split; [done |]. split.
  { intros c Hc. unfold storedMessages. rewrite find_append.
    destruct (find _ (chats st)); [done |]. simpl.
    destruct (Z.eqb_spec now c); [congruence | done]. }
  split.
  { unfold storedMessages. rewrite find_append.
    destruct (find _ (chats st)); [done |]. simpl. by rewrite Z.eqb_refl. }
  unfold getItem, saveAll, setItem. apply lookup_insert_eq.
Qed.

(** X9.  Editing at an index at or past the end of the view changes no
    message and sends nothing: the view as it is (an unsaved placeholder
    or partial reply included) is stored as the selected thread's
    sequence, the collection is saved, and then reading the text of the
    missing message throws. *)
Theorem updateMessage_past_the_end (index : nat) (newText : string) (st : State) (chat : Z) :
  selectedChat st = Some chat -> length (messages st) <= index ->
  exists st',
    updateMessage index newText st = TypeError st' /\
    messages st' = messages st /\
    chats st' = map (replaceMessages chat (messages st)) (chats st) /\
    getItem "chats" (localStorage st') = Some (JSON.stringify (chats st')) /\
    othersKept st st'.
Proof.
  intros Hsel Hlen. unfold updateMessage.
  rewrite Hsel, (imap_edit_past_end _ _ _ Hlen). cbv zeta.
  rewrite (lookup_ge_None_2 _ _ Hlen).
  eexists. split; [reflexivity |]. simpl.
  split; [done |]. split; [done |].
  split; [unfold getItem, saveAll, setItem; apply lookup_insert_eq | by repeat split].
Qed.

Lemma updateMessage_past_the_end_witness :
  exists st',
    updateMessage 2 "again" chatting = TypeError st' /\
    messages st' = [mkMessage "hello" true; mkMessage "hi there" false] /\
    selectedLLM st' = "llama3".
Proof.
  destruct (updateMessage_past_the_end 2 "again" chatting 1)
    as (st' & Hedit & Hview & _ & _ & Hkept); [reflexivity | vm_compute; lia |].
  exists st'. split; [exact Hedit |]. split; [by rewrite Hview |].
  destruct Hkept as (_ & _ & _ & Hllm & _). by rewrite Hllm.
Defined.

(** ** Decoding the chunks of a reply *)

Ltac decide_N :=
  repeat match goal with
         | |- context [(?a <=? ?b)%N] => destruct (N.leb_spec a b); try lia
         | |- context [(?a =? ?b)%N] => destruct (N.eqb_spec a b); try lia
         end.

Section Decoding.

Lemma N_of_ascii_of_byte (b : Byte.byte) : N_of_ascii (ascii_of_byte b) = Byte.to_N b.
Proof.
  rewrite ascii_of_byte_via_N. apply N_ascii_embedding.
  pose proof (Byte.to_N_bounded b). lia.
Qed.

Lemma lead_plain (b : Byte.byte) :
  (Byte.to_N b <= 127)%N ->
  TextDecoder.lead (ascii_of_byte b) = (String (ascii_of_byte b) EmptyString, None).
Proof.
  intros Hb. unfold TextDecoder.lead. rewrite N_of_ascii_of_byte. cbv zeta.
  by decide_N.
Qed.

Lemma lead_start (b : Byte.byte) :
  (194 <= Byte.to_N b <= 244)%N ->
  exists p, TextDecoder.lead (ascii_of_byte b) = (EmptyString, Some p).
Proof.
  intros Hb. unfold TextDecoder.lead, TextDecoder.between. rewrite N_of_ascii_of_byte. cbv zeta.
  decide_N; simpl; eauto.
Qed.

Lemma lead_continuation (b : Byte.byte) :
  (128 <= Byte.to_N b <= 191)%N ->
  TextDecoder.lead (ascii_of_byte b) = (TextDecoder.replacement, None).
Proof.
  intros Hb. unfold TextDecoder.lead, TextDecoder.between. rewrite N_of_ascii_of_byte. cbv zeta.
  by decide_N.
Qed.

Lemma string_of_list_byte_app (a b : list Byte.byte) :
  string_of_list_byte (a ++ b) = string_of_list_byte a +:+ string_of_list_byte b.
Proof.
  induction a as [| x a IH]; [done |].
  change (string_of_list_byte ((x :: a) ++ b))
    with (String (ascii_of_byte x) (string_of_list_byte (a ++ b))).
  change (string_of_list_byte (x :: a)) with (String (ascii_of_byte x) (string_of_list_byte a)).
  by rewrite IH, append_cons.
Qed.

Lemma run_plain (pre : list Byte.byte) (rest : list ascii) :
  plain pre ->
  TextDecoder.run (map ascii_of_byte pre ++ rest) None
    = string_of_list_byte pre +:+ TextDecoder.run rest None.
Proof.
  induction 1 as [| b pre Hb _ IH]; [done |].
  simpl. rewrite (lead_plain b Hb), IH.
  change (string_of_list_byte (b :: pre)) with (String (ascii_of_byte b) (string_of_list_byte pre)).
  by rewrite !append_cons, append_nil_l.
Qed.

Lemma strip_bom_other (bytes : list ascii) :
  (forall b rest, bytes = b :: rest -> N_of_ascii b <> 239%N) ->
  TextDecoder.strip_bom bytes = bytes.
Proof.
  intros Hb. destruct bytes as [| b1 [| b2 [| b3 rest]]]; try done.
  simpl. destruct (N.eqb_spec (N_of_ascii b1) 239) as [Heq | _]; [| done].
  by destruct (Hb b1 (b2 :: b3 :: rest) eq_refl).
Qed.

Lemma decode_plain (value : list Byte.byte) :
  plain value -> TextDecoder.decode value = string_of_list_byte value.
Proof.
  intros Hv. unfold TextDecoder.decode. rewrite strip_bom_other.
  - rewrite <- (app_nil_r (map ascii_of_byte value)), (run_plain _ _ Hv). simpl.
    apply append_nil_r.
  - intros b rest Heq. destruct Hv as [| x value Hx _]; [done |].
    injection Heq as <- _. rewrite N_of_ascii_of_byte. lia.
Qed.

End Decoding.

(** X11.  When every chunk of a reply holds bytes below 128 only, the
    text put together from the chunks is the bytes of the stream, one
    character each: how the stream was cut into chunks does not matter. *)
Theorem plain_chunks_join (chunks : list (list Byte.byte)) :
  Forall plain chunks ->
  joined (map TextDecoder.decode chunks) = string_of_list_byte (concat chunks) /\
  joined (map TextDecoder.decode chunks) = TextDecoder.decode (concat chunks).
Proof.
  intros Hall.
  assert (Hjoin : joined (map TextDecoder.decode chunks) = string_of_list_byte (concat chunks)).
  { induction Hall as [| value chunks Hv _ IH]; [done |].
    simpl. by rewrite string_of_list_byte_app, (decode_plain _ Hv), IH. }
  split; [exact Hjoin |]. rewrite Hjoin. symmetry. apply decode_plain.
  unfold plain in *. by apply Forall_concat.
Qed.

Lemma plain_chunks_join_witness :
  Forall plain helloChunks /\ joined (map TextDecoder.decode helloChunks) = "Hello world".
Proof.
  assert (Hall : Forall plain helloChunks).
  { repeat constructor; vm_compute; discriminate. }
  split; [exact Hall |].
  rewrite (proj1 (plain_chunks_join helloChunks Hall)). vm_compute. reflexivity.
Defined.

(** ** The controls on the screen *)

Ltac open_fire H :=
  unfold fire, paneRendered in H; cbv zeta in H;
  repeat match type of H with
         | None = Some _ => discriminate H
         | context [match ?x with _ => _ end] => destruct x eqn:?
         end.

Section Controls.

Lemma editorShown_Some (l : Chat.Local) (ms : list Message) :
  Chat.editorShown l ms = true ->
  exists index m,
    Chat.editingMessageIndex l = Some index /\ ms !! index = Some m /\ isUser m = true.
Proof.
  unfold Chat.editorShown. intros H. apply existsb_exists in H as ([i m] & Hin & Hat).
  apply list_elem_of_In, elem_of_lookup_imap in Hin as (j & y & [= -> ->] & Hj).
  unfold Chat.editorAt in Hat. destruct (Chat.editingMessageIndex l) as [e |]; [| done].
  apply andb_true_iff in Hat as [He Hu]. apply Nat.eqb_eq in He as ->. eauto.
Qed.

Lemma step_total (e : Event) (st : State) : exists st', step e st = Some st'.
Proof.
  destruct e; try (eexists; reflexivity).
  - destruct (handleSendMessage_cases message r st) as [[H _] | (c & _ & _ & H)];
      simpl; rewrite H; eauto.
  - destruct (step_edit_cases index newText r st) as [[_ H] | (c & cut & _ & _ & [H | H])];
      rewrite H; eauto.
Qed.

Lemma run_total (es : list Event) (st : State) : exists st', run es st = Some st'.
Proof.
  revert st. induction es as [| e es IH]; intros st; simpl; [eauto |].
  destruct (step_total e st) as [st1 ->]. apply IH.
Qed.

(** An edit at an index of the view returns. *)
Lemma updateMessage_returns index newText st m :
  messages st !! index = Some m ->
  exists st' started, updateMessage index newText st = Returned st' started.
Proof.
  intros Hm. unfold updateMessage. destruct (selectedChat st) as [c |]; [| eauto].
  rewrite (edit_truncate _ _ _ _ Hm). cbv zeta.
  rewrite list_lookup_middle
    by (rewrite length_take; pose proof (lookup_lt_Some _ _ _ Hm); lia).
  destruct (startSend _ _ _) as [st2 started]. eauto.
Qed.

Lemma fire_save (s : Screen) (r : Response) c sb es :
  fire (ClickSave r) s = Some (c, sb, es) ->
  sb = sidebar s /\
  ((es = [] /\ c = chat s /\ truthy (trim (Chat.editedMessage (chat s))) = false) \/
   (exists index m,
      Chat.editingMessageIndex (chat s) = Some index /\
      messages (app s) !! index = Some m /\ isUser m = true /\
      truthy (trim (Chat.editedMessage (chat s))) = true /\
      es = [EditMessage index (Chat.editedMessage (chat s)) r] /\
      c = Chat.cancelEditing (chat s))).
Proof.
  intros H. unfold fire in H. cbv zeta in H.
  destruct (paneRendered (app s) && Chat.editorShown (chat s) (messages (app s))) eqn:Hr;
    [| done].
  apply andb_true_iff in Hr as [_ Hshown].
  destruct (editorShown_Some _ _ Hshown) as (index & m & He & Hm & Hu).
  unfold Chat.saveEditedMessage in H. rewrite He in H.
  destruct (truthy (trim (Chat.editedMessage (chat s)))) eqn:Ht;
    injection H as <- <- <-; (split; [done |]).
  - right. exists index, m. by repeat split.
  - by left.
Qed.

Lemma fire_send (s : Screen) (r : Response) c sb es :
  fire (PressSend r) s = Some (c, sb, es) ->
  sb = sidebar s /\
  (exists chatId, selectedChat (app s) = Some chatId) /\ models (app s) <> [] /\
  ((es = [] /\ c = chat s /\
    (truthy (trim (Chat.input (chat s))) = false \/ Chat.isSending (chat s) = true)) \/
   (truthy (trim (Chat.input (chat s))) = true /\ Chat.isSending (chat s) = false /\
    es = [SendMessage (Chat.input (chat s)) r] /\
    c = Chat.setInput EmptyString (chat s))).
Proof.
  intros H. unfold fire in H. cbv zeta in H.
  destruct (paneRendered (app s)) eqn:Hr; [| done].
  unfold paneRendered, Chat.bodyShown in Hr. apply andb_true_iff in Hr as [Hm Hsel].
  assert (Hmodels : models (app s) <> []).
  { intros Hnil. rewrite Hnil in Hm. done. }
  assert (Hchat : exists chatId, selectedChat (app s) = Some chatId).
  { destruct (selectedChat (app s)); [eauto | done]. }
  unfold Chat.handleSend in H.
  destruct (truthy (trim (Chat.input (chat s)))) eqn:Ht;
    destruct (Chat.isSending (chat s)) eqn:Hs; simpl in H;
    injection H as <- <- <-; (split; [done |]); (split; [done |]); (split; [done |]);
    try (left; by eauto).
  right. repeat split; try done.
  destruct (chat s). simpl in *. by rewrite Hs.
Qed.

Lemma asked_send message r st req :
  In req (asked (SendMessage message r) st) ->
  exists chatId,
    selectedChat st = Some chatId /\ selectedLLM st <> EmptyString /\
    req = mkRequest message (selectedLLM st) (messages st ++ [mkMessage message true]) chatId.
Proof.
  simpl. destruct (startSend message None st) as [st1 [[req' p] |]] eqn:Hstart; simpl; [| done].
  intros [<- | []].
  destruct (startSend_Some _ _ _ _ _ _ Hstart) as (chatId & Hsel & Hllm & Hreq & _).
  eauto.
Qed.

Lemma asked_edit index newText r st m req :
  messages st !! index = Some m ->
  In req (asked (EditMessage index newText r) st) ->
  exists chatId,
    selectedChat st = Some chatId /\ selectedLLM st <> EmptyString /\
    req = mkRequest newText (selectedLLM st)
            (take index (messages st) ++ [mkMessage newText (isUser m)]) chatId.
Proof.
  intros Hm. simpl. unfold updateMessage.
  destruct (selectedChat st) as [chatId |] eqn:Hsel; [| done].
  rewrite (edit_truncate _ _ _ _ Hm). cbv zeta.
  rewrite list_lookup_middle
    by (rewrite length_take; pose proof (lookup_lt_Some _ _ _ Hm); lia).
  destruct (startSend _ _ _) as [st2 [[req' p] |]] eqn:Hstart; simpl; [| done].
  intros [<- | []].
  destruct (startSend_Some _ _ _ _ _ _ Hstart) as (chatId' & Hsel' & Hllm & Hreq & _).
  simpl in *. exists chatId. split; [done |]. split; [done |]. congruence.
Qed.

(** The calls a control makes: none, one that [App] was offered, or a
    selection followed by the closing of the list. *)
Lemma fire_events (a : Action) (s : Screen) c sb es :
  fire a s = Some (c, sb, es) ->
  es = [] \/ (exists e, es = [e] /\ offered e (app s)) \/
  (exists chatId, es = [SelectChat chatId; CloseSidebar]).
Proof.
  intros H.
  destruct a; open_fire H; injection H as <- <- <-;
    try (by left); try (right; left; eexists; split; [reflexivity | exact I]);
    try (right; right; eexists; reflexivity).
  - right. left. eexists. split; [reflexivity |]. simpl.
    match goal with
    | Hi : context [chats (app s) !! ?i] |- _ =>
        destruct (isSidebarOpen (app s)); [| done];
        apply list_elem_of_lookup_2, list_elem_of_In in Hi
    end.
    by apply (in_map ChatType.id) in Heqo.
  - right. left. eexists. split; [reflexivity |]. simpl.
    match goal with
    | Hb : (_ && existsb _ _) = true |- _ =>
        apply andb_true_iff in Hb as [_ Hb];
        apply existsb_exists in Hb as (x & Hin & Hx)
    end.
    apply String.eqb_eq in Hx. by subst.
Qed.

Lemma fire_isSending (a : Action) (s : Screen) c sb es :
  fire a s = Some (c, sb, es) ->
  Chat.isSending (chat s) = false -> Chat.isSending c = false.
Proof.
  intros H Hs.
  destruct a; try (open_fire H; by injection H as <- <- <-).
  - destruct (fire_send _ _ _ _ _ H) as (_ & _ & _ & [(_ & -> & _) | (_ & _ & _ & ->)]); done.
  - destruct (fire_save _ _ _ _ _ H) as (_ & [(_ & -> & _) | (i & m & _ & _ & _ & _ & _ & ->)]);
      done.
Qed.

Lemma settled_ids r chatId base st :
  map ChatType.id (chats (settled r chatId base st)) = map ChatType.id (chats st).
Proof.
  unfold settled. destruct r as [| | chunks []]; try done. simpl. apply replaceMessages_ids.
Qed.

(** Sends and edits keep the ids of the threads. *)
Lemma step_send_ids message r st st' :
  step (SendMessage message r) st = Some st' ->
  map ChatType.id (chats st') = map ChatType.id (chats st).
Proof.
  simpl. destruct (handleSendMessage_cases message r st) as [[-> _] | (c & _ & _ & ->)];
    intros [= <-]; [done |].
  rewrite settled_ids. simpl. apply replaceMessages_ids.
Qed.

Lemma step_edit_ids index newText r st st' :
  step (EditMessage index newText r) st = Some st' ->
  map ChatType.id (chats st') = map ChatType.id (chats st).
Proof.
  destruct (step_edit_cases index newText r st)
    as [[_ ->] | (c & cut & _ & _ & [-> | ->])]; intros [= <-]; [done | |].
  - simpl. apply replaceMessages_ids.
  - rewrite settled_ids. simpl. apply replaceMessages_ids.
Qed.

Lemma step_pending e st st' :
  step e st = Some st' -> offered e st -> pendingExists st -> pendingExists st'.
Proof.
  unfold pendingExists. intros Hstep Hoff Hp.
  destruct e; try (simpl in Hstep; injection Hstep as <-; first [exact Hp | by intros d]).
  - (* SelectChat *)
    simpl in Hstep. injection Hstep as <-. unfold handleSelectChat.
    by destruct (find _ (chats st)).
  - (* AddChat *)
    simpl in Hstep. injection Hstep as <-. simpl. intros d Hd.
    rewrite map_app. apply in_or_app. left. by apply Hp.
  - (* RenameChat *)
    simpl in Hstep. injection Hstep as <-. simpl. intros d Hd.
    rewrite map_map. erewrite map_ext; [by apply Hp |]. intros c. apply rename_id.
  - (* DeleteChat *)
    simpl in Hstep. injection Hstep as <-. simpl. by intros d [= <-].
  - (* ConfirmDelete *)
    simpl in Hstep. injection Hstep as <-. unfold confirmDeleteChat.
    destruct (chatToDelete st) eqn:Hd; [done |]. intros d Hd'. congruence.
  - (* SendMessage *)
    pose proof (step_send_othersKept _ _ _ _ Hstep) as (_ & _ & _ & _ & _ & _ & _ & Hd).
    rewrite (step_send_ids _ _ _ _ Hstep), Hd. exact Hp.
  - (* EditMessage *)
    pose proof (step_edit_othersKept _ _ _ _ _ Hstep) as (_ & _ & _ & _ & _ & _ & _ & Hd).
    rewrite (step_edit_ids _ _ _ _ _ Hstep), Hd. exact Hp.
  - (* ModelsFetched *)
    simpl in Hstep. injection Hstep as <-. unfold fetchModels.
    destruct r as [| | | [| m ms]]; exact Hp.
Qed.

Lemma step_model e st st' :
  step e st = Some st' -> offered e st -> modelChosen st -> modelChosen st'.
Proof.
  unfold modelChosen. intros Hstep Hoff Hm.
  destruct e; try (simpl in Hstep; injection Hstep as <-; exact Hm).
  - simpl in Hstep. injection Hstep as <-. unfold handleSelectChat.
    by destruct (find _ (chats st)).
  - simpl in Hstep. injection Hstep as <-. unfold confirmDeleteChat.
    by destruct (chatToDelete st).
  - pose proof (step_send_othersKept _ _ _ _ Hstep) as (_ & _ & Hmo & Hl & _).
    by rewrite Hmo, Hl.
  - pose proof (step_edit_othersKept _ _ _ _ _ Hstep) as (_ & _ & Hmo & Hl & _).
    by rewrite Hmo, Hl.
  - simpl in Hstep. injection Hstep as <-. simpl. by intros _.
  - simpl in Hstep. injection Hstep as <-. unfold fetchModels.
    destruct r as [| | | [| m ms]]; try exact Hm; simpl; [done | by left].
Qed.

Lemma act_app (a : Action) (s s' : Screen) :
  act a s = Some s' ->
  exists c sb es, fire a s = Some (c, sb, es) /\ run es (app s) = Some (app s').
Proof.
  unfold act. destruct (fire a s) as [[[c sb] es] |]; [| done].
  destruct (run es (app s)) as [st' |] eqn:Hrun; [| done].
  intros [= <-]. exists c, sb, es. split; [done |].
  unfold remount. by destruct (0 <? length _)%nat.
Qed.

Lemma act_consistent (a : Action) (s s' : Screen) :
  act a s = Some s' ->
  pendingExists (app s) /\ modelChosen (app s) /\ Chat.isSending (chat s) = false ->
  pendingExists (app s') /\ modelChosen (app s') /\ Chat.isSending (chat s') = false.
Proof.
  intros Hact (Hp & Hm & Hs). split; [| split].
  - destruct (act_app _ _ _ Hact) as (c & sb & es & Hfire & Hrun).
    destruct (fire_events _ _ _ _ _ Hfire) as [-> | [(e & -> & Hoff) | (chatId & ->)]].
    + by injection Hrun as <-.
    + simpl in Hrun. destruct (step e (app s)) as [st1 |] eqn:Hstep; [| done].
      injection Hrun as <-. by apply (step_pending e (app s)).
    + simpl in Hrun. injection Hrun as Hrun. rewrite <- Hrun.
      change (pendingExists (handleSelectChat chatId (app s))).
      by apply (step_pending (SelectChat chatId) (app s)).
  - destruct (act_app _ _ _ Hact) as (c & sb & es & Hfire & Hrun).
    destruct (fire_events _ _ _ _ _ Hfire) as [-> | [(e & -> & Hoff) | (chatId & ->)]].
    + by injection Hrun as <-.
    + simpl in Hrun. destruct (step e (app s)) as [st1 |] eqn:Hstep; [| done].
      injection Hrun as <-. by apply (step_model e (app s)).
    + simpl in Hrun. injection Hrun as Hrun. rewrite <- Hrun.
      change (modelChosen (handleSelectChat chatId (app s))).
      by apply (step_model (SelectChat chatId) (app s)).
  - unfold act in Hact. destruct (fire a s) as [[[c sb] es] |] eqn:Hfire; [| done].
    destruct (run es (app s)) as [st' |]; [| done].
    injection Hact as <-. unfold remount.
    destruct (0 <? length _)%nat; simpl; [| done].
    by apply (fire_isSending a s c sb es).
Qed.

Lemma perform_consistent (store : gmap string string) (st : State) (acts : list Action)
    (s : Screen) :
  mount store = Ready st -> perform acts (firstScreen st) = Some s ->
  pendingExists (app s) /\ modelChosen (app s) /\ Chat.isSending (chat s) = false.
Proof.
  intros Hmount. destruct (mount_Ready _ _ Hmount) as [cs ->].
  assert (Hinit : let s0 := firstScreen (persist (initialState cs store)) in
                  pendingExists (app s0) /\ modelChosen (app s0) /\
                  Chat.isSending (chat s0) = false).
  { cbv zeta. split; [by intros d | split; [by intros H | done]]. }
  revert Hinit. generalize (firstScreen (persist (initialState cs store))). cbv zeta.
  induction acts as [| a acts IH]; intros s0 H0; simpl.
  - by intros [= <-].
  - destruct (act a s0) as [s1 |] eqn:Hact; [| done].
    apply IH. by apply (act_consistent a s0).
Qed.

(** The states of [App] that the screen goes through are states that
    events lead to. *)
Lemma perform_run (acts : list Action) (s s' : Screen) :
  perform acts s = Some s' -> exists es, run es (app s) = Some (app s').
Proof.
  revert s. induction acts as [| a acts IH]; intros s; simpl.
  - intros [= <-]. by exists [].
  - destruct (act a s) as [s1 |] eqn:Hact; [| done].
    intros Hrest. destruct (IH _ Hrest) as [es2 Hes2].
    destruct (act_app _ _ _ Hact) as (_ & _ & es1 & _ & Hes1).
    exists (es1 ++ es2). clear - Hes1 Hes2. revert Hes1. generalize (app s).
    induction es1 as [| e es1 IH1]; intros st; simpl.
    + by intros [= ->].
    + destruct (step e st); [apply IH1 | done].
Qed.

Lemma filter_removes (d : Z) (cs : list ChatType) :
  In d (map ChatType.id cs) ->
  length (filter (fun c => ChatType.id c <> d) cs) < length cs /\
  ~ In d (map ChatType.id (filter (fun c => ChatType.id c <> d) cs)).
Proof.
  intros Hin. split.
  - induction cs as [| c cs IH]; [done |].
    pose proof (length_filter (fun c => ChatType.id c <> d) cs) as Hle.
    rewrite filter_cons. destruct (decide (ChatType.id c <> d)) as [Hne | Heq]; simpl.
    + destruct Hin as [Hc | Hin]; [done |]. specialize (IH Hin). lia.
    + lia.
  - intros Hd. apply in_map_iff in Hd as (c & Hid & Hc).
    apply list_elem_of_In, list_elem_of_filter in Hc as [Hne _]. done.
Qed.

End Controls.

(** X13.  Every control that is on the screen can be used: it leads to a
    next screen, and no call it makes into [App] throws.  In particular
    Save is rendered only inside a user message of the view, so
    [updateMessage] is never called with an index past the end. *)
Theorem no_control_throws (a : Action) (s : Screen) (c : Chat.Local) (sb : Sidebar.Local)
    (es : list Event) :
  fire a s = Some (c, sb, es) ->
  (exists s', act a s = Some s') /\ forall e, In e es -> throws e (app s) = false.
Proof.
  intros H. split.
  { unfold act. rewrite H. destruct (run_total es (app s)) as [st' ->]. eauto. }
  intros e He.
  destruct a;
    try (open_fire H; injection H as <- <- <-; simpl in He;
         repeat (destruct He as [<- | He]; [reflexivity |]); by destruct He).
  destruct (fire_save _ _ _ _ _ H) as [_ [(-> & _) | (index & m & _ & Hm & _ & _ & -> & _)]];
    [done |].
  destruct He as [<- | []]. simpl.
  by destruct (updateMessage_returns index (Chat.editedMessage (chat s)) (app s) m Hm)
    as (st' & started & ->).
Qed.

Lemma no_control_throws_witness :
  exists s', act (ClickSave NoBody) sampleScreen = Some s'.
Proof.
  destruct (fire (ClickSave NoBody) sampleScreen) as [[[c sb] es] |] eqn:Hfire.
  - exact (proj1 (no_control_throws (ClickSave NoBody) sampleScreen c sb es Hfire)).
  - vm_compute in Hfire. discriminate Hfire.
Defined.

(** X14.  Whatever control starts a request, the request carries a text
    that is not blank, the selected model (not the empty name) and the
    selected thread, and its history is a beginning of the view followed
    by that text as a user message. *)
Theorem requests_carry_the_message (a : Action) (s : Screen) (c : Chat.Local)
    (sb : Sidebar.Local) (es : list Event) (e : Event) (req : Request) :
  fire a s = Some (c, sb, es) -> In e es -> In req (asked e (app s)) ->
  truthy (trim (content req)) = true /\
  (exists earlier,
     earlier `prefix_of` messages (app s) /\
     history req = earlier ++ [mkMessage (content req) true]) /\
  model req = selectedLLM (app s) /\ model req <> EmptyString /\
  selectedChat (app s) = Some (chat_id req).
Proof.
  intros H He Hreq.
  destruct a;
    try (open_fire H; injection H as <- <- <-; simpl in He;
         repeat (destruct He as [<- | He]; [by destruct Hreq |]); by destruct He).
  - destruct (fire_send _ _ _ _ _ H) as (_ & _ & _ & [(-> & _) | (Ht & _ & -> & _)]); [done |].
    destruct He as [<- | []].
    destruct (asked_send _ _ _ _ Hreq) as (chatId & Hsel & Hllm & ->). simpl.
    split; [done |]. split; [by exists (messages (app s)) |]. done.
  - destruct (fire_save _ _ _ _ _ H)
      as [_ [(-> & _) | (index & m & _ & Hm & Hu & Ht & -> & _)]]; [done |].
    destruct He as [<- | []].
    destruct (asked_edit _ _ _ _ _ _ Hm Hreq) as (chatId & Hsel & Hllm & ->). simpl.
    split; [done |]. split; [| done].
    exists (take index (messages (app s))). split; [| by rewrite Hu].
    exists (drop index (messages (app s))). by rewrite take_drop.
Qed.

Lemma requests_carry_the_message_witness :
  exists req,
    In req (asked (EditMessage 0 "hey" NoBody) (app sampleScreen)) /\
    history req = [mkMessage "hey" true] /\ model req = "llama3".
Proof.
  destruct (fire (ClickSave NoBody) sampleScreen) as [[[c sb] es] |] eqn:Hfire;
    [| vm_compute in Hfire; discriminate Hfire].
  assert (He : In (EditMessage 0 "hey" NoBody) es).
  { vm_compute in Hfire. injection Hfire as _ _ <-. by left. }
  destruct (asked (EditMessage 0 "hey" NoBody) (app sampleScreen)) as [| req rest] eqn:Hasked;
    [vm_compute in Hasked; discriminate Hasked |].
  assert (Hreq : In req (asked (EditMessage 0 "hey" NoBody) (app sampleScreen))).
  { rewrite Hasked. by left. }
  exists req. split; [by rewrite <- Hasked |].
  destruct (requests_carry_the_message _ _ _ _ _ _ req Hfire He Hreq)
    as (_ & _ & Hmodel & _ & _).
  split; [| rewrite Hmodel; vm_compute; reflexivity].
  vm_compute in Hasked. by injection Hasked as <- _.
Defined.

(** X15.  At the screen a message that is not blank always goes out.
    After any sequence of actions from a mounted state, as long as no
    model has the empty name, pressing Send with a text that is not blank
    issues exactly one request, with the text as typed (not trimmed), the
    selected model and the view followed by the text as history, and
    empties the field; with a blank text nothing happens.  Neither of the
    guard's conditions on the selection, nor [isSending], ever blocks. *)
Theorem send_goes_out (store : gmap string string) (st : State) (acts : list Action)
    (s : Screen) (r : Response) (c : Chat.Local) (sb : Sidebar.Local) (es : list Event) :
  mount store = Ready st -> perform acts (firstScreen st) = Some s ->
  ~ In EmptyString (models (app s)) ->
  fire (PressSend r) s = Some (c, sb, es) ->
  Chat.isSending (chat s) = false /\ Chat.isSending c = false /\
  (truthy (trim (Chat.input (chat s))) = false -> es = [] /\ c = chat s) /\
  (truthy (trim (Chat.input (chat s))) = true ->
   exists chatId,
     selectedChat (app s) = Some chatId /\
     es = [SendMessage (Chat.input (chat s)) r] /\
     asked (SendMessage (Chat.input (chat s)) r) (app s)
       = [mkRequest (Chat.input (chat s)) (selectedLLM (app s))
            (messages (app s) ++ [mkMessage (Chat.input (chat s)) true]) chatId] /\
     Chat.input c = EmptyString).
Proof.
  intros Hmount Hperform Hnames Hfire.
  destruct (perform_consistent _ _ _ _ Hmount Hperform) as (_ & Hmodel & Hs).
  split; [exact Hs |]. split; [by apply (fire_isSending _ _ _ _ _ Hfire) |].
  destruct (fire_send _ _ _ _ _ Hfire)
    as (_ & [chatId Hsel] & Hmodels & [(-> & -> & Hblank) | (Ht & _ & -> & ->)]).
  - split; [done |]. intros Ht. destruct Hblank; congruence.
  - split; [congruence |]. intros _. exists chatId. split; [done |]. split; [done |].
    split; [| done].
    assert (Hllm : selectedLLM (app s) <> EmptyString).
    { intros Hempty. apply Hnames. rewrite <- Hempty. by apply Hmodel. }
    simpl.
    destruct (startSend_guarded (Chat.input (chat s)) None (app s) chatId Hsel Hllm)
      as (st1 & req & p & Hstart).
    rewrite Hstart. simpl.
    destruct (startSend_Some _ _ _ _ _ _ Hstart) as (chatId' & Hsel' & _ & -> & _).
    simpl. by replace chatId' with chatId by congruence.
Qed.

Lemma send_goes_out_witness :
  mount ∅ = Ready freshState /\
  perform sampleActs (firstScreen freshState) = Some sampleScreen /\
  exists c sb,
    fire (PressSend NoBody) sampleScreen = Some (c, sb, [SendMessage "more" NoBody]) /\
    Chat.input c = EmptyString.
Proof.
  assert (Hmount : mount ∅ = Ready freshState) by (vm_compute; reflexivity).
  assert (Hperform : perform sampleActs (firstScreen freshState) = Some sampleScreen)
    by (vm_compute; reflexivity).
  split; [exact Hmount |]. split; [exact Hperform |].
  destruct (fire (PressSend NoBody) sampleScreen) as [[[c sb] es] |] eqn:Hfire;
    [| vm_compute in Hfire; discriminate Hfire].
  assert (Hnames : ~ In EmptyString (models (app sampleScreen))).
  { vm_compute. intros [H | H]; [discriminate H | exact H]. }
  destruct (send_goes_out ∅ freshState sampleActs sampleScreen NoBody c sb es
              Hmount Hperform Hnames Hfire) as (_ & _ & _ & Hsent).
  destruct Hsent as (chatId & _ & -> & _ & Hinput); [vm_compute; reflexivity |].
  exists c, sb. split; [| exact Hinput].
  vm_compute. reflexivity.
Defined.

(** X16.  At the screen, the thread to delete always exists: after any
    sequence of actions from a mounted state, whenever the dialogue shows
    its Confirm button a deletion is pending for the id of a thread of the
    collection, and confirming removes the threads with that id, so the
    collection gets shorter and the id is gone. *)
Theorem confirm_removes_a_thread (store : gmap string string) (st : State)
    (acts : list Action) (s : Screen) (c : Chat.Local) (sb : Sidebar.Local)
    (es : list Event) :
  mount store = Ready st -> perform acts (firstScreen st) = Some s ->
  fire ClickConfirm s = Some (c, sb, es) ->
  exists d s',
    chatToDelete (app s) = Some d /\ In d (map ChatType.id (chats (app s))) /\
    act ClickConfirm s = Some s' /\
    chats (app s') = filter (fun chat => ChatType.id chat <> d) (chats (app s)) /\
    length (chats (app s')) < length (chats (app s)) /\
    ~ In d (map ChatType.id (chats (app s'))).
Proof.
  intros Hmount Hperform Hfire.
  destruct (perform_consistent _ _ _ _ Hmount Hperform) as (Hpending & _ & _).
  destruct (perform_run _ _ _ Hperform) as [evs Hrun].
  pose proof (run_dialogue _ _ _ _ Hmount Hrun) as Hdialogue.
  unfold fire in Hfire. cbv zeta in Hfire.
  destruct (isModalOpen (app s)) eqn:Hopen; [| done].
  injection Hfire as <- <- <-.
  destruct (chatToDelete (app s)) as [d |] eqn:Hd; [| by apply Hdialogue in Hopen].
  pose proof (Hpending d Hd) as Hin.
  destruct (filter_removes d (chats (app s)) Hin) as [Hshort Hgone].
  exists d. eexists. split; [done |]. split; [done |].
  split.
  { unfold act, fire. cbv zeta. rewrite Hopen. simpl. unfold confirmDeleteChat.
    rewrite Hd. reflexivity. }
  unfold remount. simpl. by destruct (0 <? length (models (app s)))%nat.
Qed.

Lemma confirm_removes_a_thread_witness :
  mount ∅ = Ready freshState /\
  perform sampleActs (firstScreen freshState) = Some sampleScreen /\
  exists s', act ClickConfirm sampleScreen = Some s' /\ chats (app s') = [].
Proof.
  assert (Hmount : mount ∅ = Ready freshState) by (vm_compute; reflexivity).
  assert (Hperform : perform sampleActs (firstScreen freshState) = Some sampleScreen)
    by (vm_compute; reflexivity).
  split; [exact Hmount |]. split; [exact Hperform |].
  destruct (fire ClickConfirm sampleScreen) as [[[c sb] es] |] eqn:Hfire;
    [| vm_compute in Hfire; discriminate Hfire].
  destruct (confirm_removes_a_thread ∅ freshState sampleActs sampleScreen c sb es
              Hmount Hperform Hfire) as (d & s' & Hd & _ & Hact & Hchats & _).
  exists s'. split; [exact Hact |]. rewrite Hchats.
  vm_compute in Hd. injection Hd as <-. vm_compute. reflexivity.
Defined.

(** ** Splitting a message into text and code *)

Section Fences.

Lemma strip_prefix_Some (p s r : string) :
  strip_prefix p s = Some r <-> s = p +:+ r.
Proof.
  revert s. induction p as [| a p IH]; intros s; simpl.
  - rewrite append_nil_l. split; congruence.
  - destruct s as [| b s]; [by rewrite append_cons |].
    rewrite append_cons. destruct (Ascii.eqb_spec a b) as [-> | Hne].
    + rewrite IH. split; congruence.
    + split; [done | congruence].
Qed.

Lemma until_fence_eq (s : string) :
  until_fence s =
    match strip_prefix fence s with
    | Some rest => Some (EmptyString, rest)
    | None =>
        match s with
        | String c r =>
            match until_fence r with
            | Some (body, rest) => Some (String c body, rest)
            | None => None
            end
        | EmptyString => None
        end
    end.
Proof. by destruct s. Qed.

Lemma exec_eq (s : string) :
  exec s =
    match match_here s with
    | Some m => Some (EmptyString, m)
    | None =>
        match s with
        | String c r =>
            match exec r with
            | Some (before, m) => Some (String c before, m)
            | None => None
            end
        | EmptyString => None
        end
    end.
Proof. by destruct s. Qed.

Lemma until_fence_Some (s body rest : string) :
  until_fence s = Some (body, rest) -> s = body +:+ fence +:+ rest.
Proof.
  revert body rest. induction s as [| c s IH]; intros body rest; rewrite until_fence_eq.
  - destruct (strip_prefix fence EmptyString) as [r |] eqn:Hp; [| done].
    intros [= <- <-]. apply strip_prefix_Some in Hp. by rewrite append_nil_l.
  - destruct (strip_prefix fence (String c s)) as [r |] eqn:Hp.
    + intros [= <- <-]. apply strip_prefix_Some in Hp. by rewrite append_nil_l.
    + destruct (until_fence s) as [[body' rest'] |]; [| done].
      intros [= <- <-]. by rewrite append_cons, <- (IH body' rest' eq_refl).
Qed.

Lemma until_fence_found (a b : string) : until_fence (a +:+ fence +:+ b) <> None.
Proof.
  induction a as [| c a IH]; rewrite until_fence_eq.
  - rewrite append_nil_l.
    assert (H : strip_prefix fence (fence +:+ b) = Some b) by by apply strip_prefix_Some.
    by rewrite H.
  - rewrite append_cons. destruct (strip_prefix _ _); [done |].
    by destruct (until_fence (a +:+ fence +:+ b)) as [[body rest] |].
Qed.

Lemma until_fence_None (s : string) : until_fence s = None <-> fenceFree s.
Proof.
  split.
  - intros Hnone a b ->. by apply (until_fence_found a b).
  - intros Hfree. destruct (until_fence s) as [[body rest] |] eqn:Hs; [| done].
    by destruct (Hfree body rest (until_fence_Some _ _ _ Hs)).
Qed.

Lemma fenceFree_tail (c : ascii) (s : string) : fenceFree (String c s) -> fenceFree s.
Proof.
  intros Hfree a b ->. apply (Hfree (String c a) b). by rewrite append_cons.
Qed.

Lemma fenceFree_start (s : string) : fenceFree s -> strip_prefix fence s = None.
Proof.
  intros Hfree. destruct (strip_prefix fence s) as [r |] eqn:Hp; [| done].
  apply strip_prefix_Some in Hp. destruct (Hfree EmptyString r). by rewrite append_nil_l.
Qed.

Lemma match_here_start (s : string) :
  strip_prefix fence s = None -> match_here s = None.
Proof. unfold match_here. by intros ->. Qed.

(** Without a fence there is no match. *)
Lemma exec_fenceFree (s : string) : fenceFree s -> exec s = None.
Proof.
  induction s as [| c s IH]; intros Hfree; rewrite exec_eq;
    rewrite (match_here_start _ (fenceFree_start _ Hfree)); [done |].
  by rewrite (IH (fenceFree_tail _ _ Hfree)).
Qed.

Lemma span_word_eq (s w r : string) : span_word s = (w, r) -> s = w +:+ r.
Proof.
  revert w r. induction s as [| c s IH]; intros w r; simpl.
  - by intros [= <- <-].
  - destruct (is_word c).
    + destruct (span_word s) as [w' r']. intros [= <- <-].
      by rewrite append_cons, <- (IH w' r' eq_refl).
    + intros [= <- <-]. by rewrite append_nil_l.
Qed.

Lemma span_word_run (lang rest : string) :
  all_word lang = true ->
  span_word (lang +:+ String newline rest) = (lang, String newline rest).
Proof.
  induction lang as [| c lang IH]; intros Hw.
  - by rewrite append_nil_l.
  - simpl in Hw. apply andb_true_iff in Hw as [Hc Hw].
    rewrite append_cons. simpl. by rewrite Hc, (IH Hw).
Qed.

(** The first fence of [body ++ fence ++ post] is the one written. *)
Lemma until_fence_first (body post : string) :
  fenceFree (body +:+ "``") ->
  until_fence (body +:+ fence +:+ post) = Some (body, post).
Proof.
  induction body as [| c body IH]; intros Hfree; rewrite until_fence_eq.
  - rewrite append_nil_l.
    assert (H : strip_prefix fence (fence +:+ post) = Some post) by by apply strip_prefix_Some.
    by rewrite H.
  - destruct (strip_prefix fence (String c body +:+ fence +:+ post)) as [r |] eqn:Hp.
    + exfalso. apply strip_prefix_Some in Hp. unfold fence in Hp.
      rewrite !append_cons, !append_nil_l in Hp.
      destruct body as [| c2 [| c3 body]].
      * rewrite !append_nil_l in Hp. injection Hp as -> _.
        apply (Hfree EmptyString EmptyString). reflexivity.
      * rewrite !append_cons, !append_nil_l in Hp. injection Hp as -> -> _.
        apply (Hfree EmptyString "`"). reflexivity.
      * rewrite !append_cons in Hp. injection Hp as -> -> -> _.
        apply (Hfree EmptyString (body +:+ "``")). reflexivity.
    + rewrite append_cons, IH; [done |].
      apply (fenceFree_tail c). by rewrite <- append_cons.
Qed.

Lemma match_here_block (lang body post : string) :
  all_word lang = true -> fenceFree (body +:+ "``") ->
  match_here (block lang body +:+ post)
    = Some (mkMatch (match lang with EmptyString => None | String _ _ => Some lang end)
                    body post).
Proof.
  intros Hw Hfree. unfold match_here, block.
  assert (Hp : strip_prefix fence
                 ((fence +:+ lang +:+ String newline body +:+ fence) +:+ post)
               = Some (lang +:+ String newline (body +:+ fence +:+ post))).
  { apply strip_prefix_Some. by rewrite !append_assoc, append_cons. }
  rewrite Hp, (span_word_run _ _ Hw), Ascii.eqb_refl, (until_fence_first _ _ Hfree).
  reflexivity.
Qed.

(** Before the fence that ends a text without fences, the expression does
    not match: three backquotes that reach into the fence are followed by
    a backquote. *)
Lemma match_here_before (c : ascii) (p x : string) :
  fenceFree (String c p) -> match_here (String c p +:+ fence +:+ x) = None.
Proof.
  intros Hfree. unfold match_here.
  destruct (strip_prefix fence (String c p +:+ fence +:+ x)) as [s1 |] eqn:Hp; [| done].
  apply strip_prefix_Some in Hp. unfold fence in Hp.
  rewrite !append_cons, !append_nil_l in Hp.
  destruct p as [| c2 [| c3 p]].
  - rewrite !append_nil_l in Hp. injection Hp as -> <-. reflexivity.
  - rewrite !append_cons, !append_nil_l in Hp. injection Hp as -> -> <-. reflexivity.
  - rewrite !append_cons in Hp. injection Hp as -> -> -> _.
    by destruct (Hfree EmptyString p).
Qed.

Lemma exec_skip (pre x : string) :
  fenceFree pre ->
  exec (pre +:+ fence +:+ x) =
    match exec (fence +:+ x) with
    | Some (before, m) => Some (pre +:+ before, m)
    | None => None
    end.
Proof.
  induction pre as [| c pre IH]; intros Hfree.
  - rewrite append_nil_l. destruct (exec (fence +:+ x)) as [[before m] |]; [| done].
    by rewrite append_nil_l.
  - rewrite exec_eq, (match_here_before c pre x Hfree), append_cons.
    rewrite (IH (fenceFree_tail _ _ Hfree)).
    by destruct (exec (fence +:+ x)) as [[before m] |].
Qed.

Lemma fenceFree_suffix (a b : string) : fenceFree (a +:+ b) -> fenceFree b.
Proof.
  induction a as [| c a IH]; [by rewrite append_nil_l |].
  rewrite append_cons. intros H. apply IH. by apply (fenceFree_tail c).
Qed.

(** A common beginning can be cancelled. *)
Lemma append_cut (u tail f z : string) :
  u +:+ tail = f +:+ z -> String.length u <= String.length f ->
  exists k, tail = k +:+ z.
Proof.
  revert f. induction u as [| c u IH]; intros f.
  - rewrite append_nil_l. intros -> _. by exists f.
  - destruct f as [| d f]; simpl; [lia |].
    rewrite !append_cons. intros [= _ H] Hlen. apply (IH f H). lia.
Qed.

Lemma match_here_open (u tail : string) :
  String.length u <= 3 -> fenceFree tail -> match_here (u +:+ tail) = None.
Proof.
  intros Hlen Hfree. unfold match_here.
  destruct (strip_prefix fence (u +:+ tail)) as [s1 |] eqn:Hp; [| done].
  apply strip_prefix_Some in Hp.
  destruct (span_word s1) as [w s2] eqn:Hw. apply span_word_eq in Hw.
  destruct s2 as [| c s3]; [done |].
  destruct (Ascii.eqb c newline); [| done].
  destruct (until_fence s3) as [[body rest] |] eqn:Hu; [| done].
  exfalso. apply until_fence_Some in Hu. subst s1 s3.
  assert (H : u +:+ tail = (fence +:+ w +:+ String c body) +:+ fence +:+ rest).
  { by rewrite Hp, !append_assoc, ?append_cons. }
  destruct (append_cut u tail _ _ H) as [k Hk].
  { rewrite !length_append. simpl. lia. }
  by destruct (Hfree k rest).
Qed.

(** A text with one fence only has no match. *)
Lemma exec_open (tail : string) : fenceFree tail -> exec (fence +:+ tail) = None.
Proof.
  intros Hfree.
  pose proof (match_here_open "```" tail ltac:(simpl; lia) Hfree) as H3.
  pose proof (match_here_open "``" tail ltac:(simpl; lia) Hfree) as H2.
  pose proof (match_here_open "`" tail ltac:(simpl; lia) Hfree) as H1.
  unfold fence. rewrite !append_cons, append_nil_l in *.
  rewrite exec_eq, H3, exec_eq, H2, exec_eq, H1.
  by rewrite (exec_fenceFree _ Hfree).
Qed.

(** What is taken for the code holds no fence, also not with the first
    backquotes of the fence that ends it. *)
Lemma until_fence_body (s body rest : string) :
  until_fence s = Some (body, rest) -> fenceFree (body +:+ "``").
Proof.
  revert body rest. induction s as [| c s IH]; intros body rest; rewrite until_fence_eq.
  - by destruct (strip_prefix fence EmptyString) eqn:Hp.
  - destruct (strip_prefix fence (String c s)) as [r |] eqn:Hp.
    + intros [= <- <-] a b H. apply (f_equal String.length) in H.
      rewrite !length_append in H. simpl in H. lia.
    + destruct (until_fence s) as [[body' rest'] |] eqn:Hs; [| done].
      intros [= <- <-]. specialize (IH body' rest' eq_refl).
      apply until_fence_Some in Hs. subst s.
      intros [| d a] b H.
      * rewrite append_nil_l in H. unfold fence in H. rewrite !append_cons, append_nil_l in H.
        enough (Hstart : exists r, String c (body' +:+ fence +:+ rest')  = fence +:+ r).
        { destruct Hstart as [r Hr]. apply strip_prefix_Some in Hr. congruence. }
        unfold fence. destruct body' as [| c2 [| c3 body']].
        -- rewrite !append_nil_l in *. injection H as -> _. eauto.
        -- rewrite !append_cons, !append_nil_l in *. injection H as -> -> _. eauto.
        -- rewrite !append_cons in *. injection H as -> -> -> _. eauto.
      * rewrite !append_cons in H. injection H as _ H. by apply (IH a b).
Qed.

Lemma span_word_all (s w r : string) : span_word s = (w, r) -> all_word w = true.
Proof.
  revert w r. induction s as [| c s IH]; intros w r; simpl.
  - by intros [= <- <-].
  - destruct (is_word c) eqn:Hc.
    + destruct (span_word s) as [w' r']. intros [= <- <-]. simpl.
      by rewrite Hc, (IH w' r' eq_refl).
    + by intros [= <- <-].
Qed.

(** A match is a code block as written, followed by the rest. *)
Lemma match_here_sound (s : string) (m : Match) :
  match_here s = Some m ->
  exists lang,
    s = block lang (group2 m) +:+ after m /\
    all_word lang = true /\ fenceFree (group2 m +:+ "``") /\
    group1 m = match lang with EmptyString => None | String _ _ => Some lang end.
Proof.
  unfold match_here.
  destruct (strip_prefix fence s) as [s1 |] eqn:Hp; [| done].
  apply strip_prefix_Some in Hp.
  destruct (span_word s1) as [w s2] eqn:Hw.
  pose proof (span_word_all _ _ _ Hw) as Hall. apply span_word_eq in Hw.
  destruct s2 as [| c s3]; [done |].
  destruct (Ascii.eqb_spec c newline) as [-> |]; [| done].
  destruct (until_fence s3) as [[body rest] |] eqn:Hu; [| done].
  intros [= <-]. simpl. exists w.
  pose proof (until_fence_body _ _ _ Hu) as Hfree. apply until_fence_Some in Hu.
  split; [| done]. unfold block. subst. by rewrite !append_assoc, ?append_cons.
Qed.

Lemma exec_sound (s before : string) (m : Match) :
  exec s = Some (before, m) ->
  exists rest, s = before +:+ rest /\ match_here rest = Some m.
Proof.
  revert before. induction s as [| c s IH]; intros before; rewrite exec_eq.
  - destruct (match_here EmptyString) as [m' |] eqn:Hm; [| done].
    intros [= <- <-]. by exists EmptyString.
  - destruct (match_here (String c s)) as [m' |] eqn:Hm.
    + intros [= <- <-]. by exists (String c s).
    + destruct (exec s) as [[before' m'] |]; [| done].
      intros [= <- <-]. destruct (IH before' eq_refl) as (rest & -> & Hrest).
      exists rest. by rewrite append_cons.
Qed.

Lemma exec_shorter (s before : string) (m : Match) :
  exec s = Some (before, m) -> String.length (after m) < String.length s.
Proof.
  intros H. destruct (exec_sound _ _ _ H) as (rest & -> & Hm).
  destruct (match_here_sound _ _ Hm) as (lang & -> & _).
  unfold block. rewrite !length_append. simpl. lia.
Qed.

Lemma parts_from_eq (fuel : nat) (s : string) :
  parts_from (S fuel) s =
    match exec s with
    | Some (before, m) =>
        match parts_from fuel (after m) with
        | Some parts =>
            Some (textPart before ++
                  MessagePart.mk MessagePart.Code (group2 m)
                    (Some (match group1 m with Some w => w | None => "plaintext" end))
                  :: parts)
        | None => None
        end
    | None => Some (textPart s)
    end.
Proof. reflexivity. Qed.

Lemma parts_from_enough (fuel : nat) (s : string) :
  String.length s < fuel -> exists parts, parts_from fuel s = Some parts.
Proof.
  revert s. induction fuel as [| fuel IH]; intros s Hlen; [lia |].
  rewrite parts_from_eq. destruct (exec s) as [[before m] |] eqn:He; [| eauto].
  pose proof (exec_shorter _ _ _ He).
  destruct (IH (after m)) as [parts ->]; [lia | eauto].
Qed.

Lemma parts_from_more (fuel fuel' : nat) (s : string) (parts : list MessagePart) :
  parts_from fuel s = Some parts -> fuel <= fuel' -> parts_from fuel' s = Some parts.
Proof.
  revert fuel' s parts. induction fuel as [| fuel IH]; intros fuel' s parts; [done |].
  destruct fuel' as [| fuel']; [lia |]. rewrite !parts_from_eq.
  destruct (exec s) as [[before m] |]; [| done].
  destruct (parts_from fuel (after m)) as [ps |] eqn:Hps; [| done].
  intros [= <-] Hle. by rewrite (IH fuel' _ _ Hps ltac:(lia)).
Qed.

Lemma parseMessage_answers (text : string) : exists parts, parseMessage text = Some parts.
Proof. apply parts_from_enough. lia. Qed.

(** One turn of the loop. *)
Lemma parseMessage_eq (text : string) :
  parseMessage text =
    match exec text with
    | Some (before, m) =>
        match parseMessage (after m) with
        | Some parts =>
            Some (textPart before ++
                  MessagePart.mk MessagePart.Code (group2 m)
                    (Some (match group1 m with Some w => w | None => "plaintext" end))
                  :: parts)
        | None => None
        end
    | None => Some (textPart text)
    end.
Proof.
  unfold parseMessage at 1. rewrite parts_from_eq.
  destruct (exec text) as [[before m] |] eqn:He; [| done].
  destruct (parseMessage_answers (after m)) as [parts Hparts]. rewrite Hparts.
  pose proof (exec_shorter _ _ _ He).
  by rewrite (parts_from_more _ (String.length text) _ _ Hparts ltac:(lia)).
Qed.

Lemma fenceFree_prefix (a b : string) : fenceFree (a +:+ b) -> fenceFree a.
Proof.
  intros Hfree x y ->. apply (Hfree x (y +:+ b)). by rewrite !append_assoc.
Qed.

Lemma truthy_true (s : string) : truthy s = true <-> s <> EmptyString.
Proof. unfold truthy. destruct (String.eqb_spec s EmptyString); split; done. Qed.

Lemma word_or_default (lang : string) :
  match match lang with EmptyString => None | String _ _ => Some lang end with
  | Some w => w
  | None => "plaintext"
  end = if truthy lang then lang else "plaintext".
Proof. by destruct lang. Qed.

Lemma parts_from_wellFormed (fuel : nat) (s : string) (parts : list MessagePart) :
  parts_from fuel s = Some parts -> Forall wellFormed parts.
Proof.
  revert s parts. induction fuel as [| fuel IH]; intros s parts; [done |].
  rewrite parts_from_eq.
  assert (Htext : forall t, Forall wellFormed (textPart t)).
  { intros t. unfold textPart. destruct (truthy t) eqn:Ht; constructor; [| constructor].
    split; [by apply truthy_true | done]. }
  destruct (exec s) as [[before m] |] eqn:He.
  - destruct (parts_from fuel (after m)) as [ps |] eqn:Hps; [| done].
    intros [= <-]. apply Forall_app. split; [apply Htext |].
    constructor; [| by apply (IH (after m))].
    destruct (exec_sound _ _ _ He) as (rest & _ & Hm).
    destruct (match_here_sound _ _ Hm) as (lang & _ & Hall & Hfree & Hg).
    split; simpl; [by apply (fenceFree_prefix _ "``") |].
    rewrite Hg, word_or_default. eexists. split; [reflexivity |].
    destruct lang; [done | by rewrite (proj2 (truthy_true _))].
  - intros [= <-]. apply Htext.
Qed.

Lemma parts_from_spelled (fuel : nat) (s : string) (parts : list MessagePart) :
  parts_from fuel s = Some parts ->
  exists ws, Forall2 spelled parts ws /\ joined ws = s.
Proof.
  revert s parts. induction fuel as [| fuel IH]; intros s parts; [done |].
  rewrite parts_from_eq.
  assert (Htext : forall t, exists ws, Forall2 spelled (textPart t) ws /\ joined ws = t).
  { intros t. unfold textPart. destruct (truthy t) eqn:Ht.
    - exists [t]. split; [by repeat constructor | apply append_nil_r].
    - exists []. split; [constructor |]. unfold truthy in Ht.
      by destruct (String.eqb_spec t EmptyString). }
  assert (Hjoin : forall a b, joined (a ++ b) = joined a +:+ joined b).
  { intros a b. induction a as [| x a IHa]; [done |]. simpl. by rewrite IHa, append_assoc. }
  destruct (exec s) as [[before m] |] eqn:He; [| intros [= <-]; apply Htext].
  destruct (parts_from fuel (after m)) as [ps |] eqn:Hps; [| done].
  intros [= <-].
  destruct (IH _ _ Hps) as (ws2 & Hws2 & Hj2).
  destruct (Htext before) as (ws1 & Hws1 & Hj1).
  destruct (exec_sound _ _ _ He) as (rest & -> & Hm).
  destruct (match_here_sound _ _ Hm) as (lang & -> & Hall & _ & Hg).
  exists (ws1 ++ block lang (group2 m) :: ws2). split.
  - apply Forall2_app; [done |]. constructor; [| done].
    exists lang. simpl. by rewrite Hg, word_or_default.
  - rewrite Hjoin. simpl. by rewrite Hj1, Hj2.
Qed.

End Fences.

(** X17.  A message that holds no run of three backquotes is shown as it
    is: one text part with the whole message, or no part when the message
    is empty. *)
Theorem text_without_fence_is_one_part (text : string) :
  fenceFree text ->
  parseMessage text
    = Some (if truthy text then [MessagePart.mk MessagePart.Text text None] else []).
Proof.
  intros Hfree. by rewrite parseMessage_eq, (exec_fenceFree _ Hfree).
Qed.

Lemma text_without_fence_is_one_part_witness :
  fenceFree "Use `map`." /\
  parseMessage "Use `map`." = Some [MessagePart.mk MessagePart.Text "Use `map`." None].
Proof.
  assert (Hfree : fenceFree "Use `map`.") by (apply until_fence_None; reflexivity).
  split; [exact Hfree |]. exact (text_without_fence_is_one_part _ Hfree).
Defined.

(** X19.  A fence that is never closed makes no code block: a message with
    one run of backquotes only, as a reply is while its code block is
    still arriving, is shown whole as one text part. *)
Theorem open_fence_is_text (pre tail : string) :
  fenceFree pre -> fenceFree tail ->
  parseMessage (pre +:+ fence +:+ tail)
    = Some [MessagePart.mk MessagePart.Text (pre +:+ fence +:+ tail) None].
Proof.
  intros Hpre Htail.
  rewrite parseMessage_eq, (exec_skip pre tail Hpre), (exec_open tail Htail).
  unfold textPart. rewrite (proj2 (truthy_true _)); [done |].
  by destruct pre.
Qed.

Lemma open_fence_is_text_witness :
  parseMessage partialReply = Some [MessagePart.mk MessagePart.Text partialReply None].
Proof.
  apply (open_fence_is_text ("Use `map`:" +:+ lineFeed) ("js" +:+ lineFeed +:+ "xs.ma"));
    apply until_fence_None; reflexivity.
Defined.

(** X20.  The parts of every message are well formed: the loop ends, no
    text part is empty, the content of a code part holds no fence, and the
    language of a code part is a non-empty run of word characters. *)
Theorem parts_are_well_formed (text : string) :
  exists parts, parseMessage text = Some parts /\ Forall wellFormed parts.
Proof.
  destruct (parseMessage_answers text) as [parts Hparts].
  exists parts. split; [exact Hparts |]. by apply (parts_from_wellFormed _ _ _ Hparts).
Qed.

(** X21.  Nothing of a message is lost or moved: the message is its parts
    put end to end, each text part as its content and each code part as
    a block (fence, language, line feed, code, fence) with its language,
    or with no language where the language is [plaintext]. *)
Theorem parts_spell_the_message (text : string) :
  exists parts ws,
    parseMessage text = Some parts /\ Forall2 spelled parts ws /\ joined ws = text.
Proof.
  destruct (parseMessage_answers text) as [parts Hparts].
  destruct (parts_from_spelled _ _ _ Hparts) as (ws & Hws & Hjoin).
  by exists parts, ws.
Qed.

(** ** Local state of the components and the state of [App] *)

(** X22.  Saving a name in the thread list renames the thread of that
    item with what the field holds, whatever it is (the empty text
    included: the field is not checked), and leaves the editing mode: the
    thread keeps its place, id, date and messages, the field is emptied. *)
Theorem save_name_renames_the_item (i : nat) (s : Screen) (c : Chat.Local)
    (sb : Sidebar.Local) (es : list Event) :
  fire (ClickSaveName i) s = Some (c, sb, es) ->
  exists item s',
    chats (app s) !! i = Some item /\
    Sidebar.editingChatId (sidebar s) = Some (ChatType.id item) /\
    es = [RenameChat (ChatType.id item) (Sidebar.newChatName (sidebar s))] /\
    act (ClickSaveName i) s = Some s' /\
    chats (app s') !! i
      = Some (ChatType.mk (ChatType.id item) (Sidebar.newChatName (sidebar s))
                (ChatType.date item) (ChatType.messages item)) /\
    sidebar s' = Sidebar.initial.
Proof.
  intros Hfire. pose proof Hfire as H. unfold fire in H. cbv zeta in H.
  destruct (isSidebarOpen (app s)); [| done].
  destruct (chats (app s) !! i) as [item |] eqn:Hi; [| done].
  destruct (Sidebar.editing (sidebar s) item) eqn:He; [| done].
  simpl in H. injection H as <- <- <-.
  unfold Sidebar.editing in He.
  destruct (Sidebar.editingChatId (sidebar s)) as [e |] eqn:Hid; [| done].
  apply Z.eqb_eq in He as ->.
  exists item. eexists. split; [done |]. split; [done |]. split; [done |]. split.
  { unfold act. rewrite Hfire. simpl. reflexivity. }
  unfold remount. simpl.
  assert (Hrenamed : map (rename (ChatType.id item) (Sidebar.newChatName (sidebar s)))
                       (chats (app s)) !! i
                     = Some (ChatType.mk (ChatType.id item) (Sidebar.newChatName (sidebar s))
                               (ChatType.date item) (ChatType.messages item))).
  { rewrite list_lookup_fmap, Hi. simpl. unfold rename. by rewrite Z.eqb_refl. }
  by destruct (0 <? length (models (app s)))%nat.
Qed.

Lemma save_name_renames_the_item_witness :
  exists s1 s2 s3,
    act (ClickRename 0) sampleScreen = Some s1 /\
    act (TypeName 0 "Holiday") s1 = Some s2 /\
    act (ClickSaveName 0) s2 = Some s3 /\
    map ChatType.name (chats (app s3)) = ["Holiday"].
Proof.
  destruct (act (ClickRename 0) sampleScreen) as [s1 |] eqn:H1;
    [| vm_compute in H1; discriminate H1].
  destruct (act (TypeName 0 "Holiday") s1) as [s2 |] eqn:H2;
    [| vm_compute in H1; injection H1 as <-; vm_compute in H2; discriminate H2].
  destruct (fire (ClickSaveName 0) s2) as [[[c sb] es] |] eqn:Hfire;
    [| vm_compute in H1; injection H1 as <-; vm_compute in H2; injection H2 as <-;
       vm_compute in Hfire; discriminate Hfire].
  destruct (save_name_renames_the_item 0 s2 c sb es Hfire)
    as (item & s3 & Hitem & _ & _ & Hact & Hrenamed & _).
  exists s1, s2, s3. split; [reflexivity |]. split; [exact H2 |]. split; [exact Hact |].
  vm_compute in H1. injection H1 as <-. vm_compute in H2. injection H2 as <-.
  vm_compute in Hact. injection Hact as <-. vm_compute. reflexivity.
Defined.

(** X23.  The editor of the message pane is tied to an index, not to a
    message: selecting another thread while a message is being edited
    keeps the index and the typed text, so when the other thread has a
    user message at that index, Save is shown there and replaces that
    message with the text typed for the first thread. *)
Theorem editor_follows_the_index (s : Screen) (i j : nat) (narrow : bool)
    (item : ChatType) (m : Message) (r : Response) :
  isSidebarOpen (app s) = true -> models (app s) <> [] ->
  chats (app s) !! i = Some item ->
  storedMessages (ChatType.id item) (chats (app s)) = Some (ChatType.messages item) ->
  Chat.editingMessageIndex (chat s) = Some j ->
  truthy (trim (Chat.editedMessage (chat s))) = true ->
  ChatType.messages item !! j = Some m -> isUser m = true ->
  exists s',
    act (ClickChat i narrow) s = Some s' /\
    selectedChat (app s') = Some (ChatType.id item) /\
    messages (app s') = ChatType.messages item /\
    chat s' = chat s /\
    fire (ClickSave r) s'
      = Some (Chat.cancelEditing (chat s), sidebar s,
              [EditMessage j (Chat.editedMessage (chat s)) r]).
Proof.
  intros Hopen Hmodels Hi Hstored Hj Htext Hm Hu.
  assert (Hlen : (0 <? length (models (app s)))%nat = true).
  { destruct (models (app s)); [done | reflexivity]. }
  assert (Hfind : exists first,
             find (fun c => (ChatType.id c =? ChatType.id item)%Z) (chats (app s)) = Some first /\
             ChatType.messages first = ChatType.messages item).
  { unfold storedMessages in Hstored.
    destruct (find _ (chats (app s))) as [first |]; [| done].
    injection Hstored as Hstored. eauto. }
  destruct Hfind as (first & Hfind & Hsame).
  set (st' := handleSelectChat (ChatType.id item) (app s)).
  assert (Hst' : selectedChat st' = Some (ChatType.id item) /\
                 messages st' = ChatType.messages item /\ models st' = models (app s)).
  { unfold st', handleSelectChat. rewrite Hfind. simpl. by rewrite Hsame. }
  destruct Hst' as (Hsel & Hview & Hmo).
  exists (mkScreen (if narrow then setSidebarOpen false st' else st') (chat s) (sidebar s)).
  assert (Hact : act (ClickChat i narrow) s
                 = Some (mkScreen (if narrow then setSidebarOpen false st' else st')
                           (chat s) (sidebar s))).
  { unfold act, fire. cbv zeta. rewrite Hopen, Hi.
    destruct narrow; simpl; unfold remount; simpl; fold st'; by rewrite Hmo, Hlen. }
  split; [exact Hact |].
  split; [by destruct narrow |]. split; [by destruct narrow |]. split; [done |].
  unfold fire. cbv zeta. simpl.
  assert (Hpane : paneRendered (if narrow then setSidebarOpen false st' else st') = true).
  { unfold paneRendered. destruct narrow; simpl; by rewrite Hmo, Hlen, Hsel. }
  assert (Hshown : Chat.editorShown (chat s)
                     (messages (if narrow then setSidebarOpen false st' else st')) = true).
  { replace (messages (if narrow then setSidebarOpen false st' else st'))
      with (ChatType.messages item) by by destruct narrow.
    unfold Chat.editorShown. apply existsb_exists. exists (j, m). split.
    - apply list_elem_of_In, elem_of_lookup_imap. by exists j, m.
    - unfold Chat.editorAt. by rewrite Hj, Nat.eqb_refl, Hu. }
  rewrite Hpane, Hshown. simpl. unfold Chat.saveEditedMessage. by rewrite Hj, Htext.
Qed.

Lemma editor_follows_the_index_witness :
  exists s',
    act (ClickChat 0 false) editingScreen = Some s' /\
    selectedChat (app s') = Some 1%Z /\
    fire (ClickSave NoBody) s'
      = Some (Chat.cancelEditing (chat editingScreen), sidebar editingScreen,
              [EditMessage 0 "hey" NoBody]).
Proof.
  destruct (editor_follows_the_index editingScreen 0 0 false
              (ChatType.mk 1 "Chat 1" "11/2/2026"
                 [mkMessage "hi" true; mkMessage "Hello world" false])
              (mkMessage "hi" true) NoBody)
    as (s' & Hact & Hsel & _ & _ & Hfire);
    try (vm_compute; reflexivity); [vm_compute; discriminate |].
  exists s'. split; [exact Hact |]. split; [exact Hsel |].
  rewrite Hfire. vm_compute. reflexivity.
Defined.

(** ** White space *)

Section WhiteSpace.

Lemma trimStart_white (w rest : string) :
  In w whiteSpace -> trimStart (w +:+ rest) = trimStart rest.
Proof.
  intros Hw. unfold whiteSpace in Hw. simpl in Hw.
  repeat (destruct Hw as [<- | Hw]; [reflexivity |]). destruct Hw.
Qed.

Lemma trim_white (ws : list string) :
  Forall (fun w => In w whiteSpace) ws -> trim (joined ws) = EmptyString.
Proof.
  intros Hall. unfold trim.
  assert (Hstart : trimStart (joined ws) = EmptyString).
  { induction Hall as [| w ws Hw _ IH]; [done |]. simpl. by rewrite (trimStart_white _ _ Hw). }
  by rewrite Hstart.
Qed.

End WhiteSpace.

(** X24.  Text made of white space only is never sent: for an input that
    consists of white-space characters, [handleSend] calls nothing and
    leaves the field as it is, and for such an edited text
    [saveEditedMessage] calls nothing and leaves the editor open. *)
Theorem white_space_is_not_sent (ws : list string) (l : Chat.Local) :
  Forall (fun w => In w whiteSpace) ws ->
  (Chat.input l = joined ws -> Chat.handleSend l = (l, None)) /\
  (Chat.editedMessage l = joined ws -> Chat.saveEditedMessage l = (l, None)).
Proof.
  intros Hall. pose proof (trim_white ws Hall) as Htrim. split; intros Heq.
  - unfold Chat.handleSend. by rewrite Heq, Htrim.
  - unfold Chat.saveEditedMessage. rewrite Heq, Htrim.
    by destruct (Chat.editingMessageIndex l).
Qed.

Lemma white_space_is_not_sent_witness :
  Chat.handleSend (Chat.setInput blankInput Chat.initial)
    = (Chat.setInput blankInput Chat.initial, None).
Proof.
  apply (white_space_is_not_sent [" "; emSpace; lineFeed]).
  - repeat constructor; vm_compute; tauto.
  - reflexivity.
Defined.

(** X25.  The model picker always shows one of its options: after any
    sequence of actions from a mounted state, when there are models the
    selected model is one of them. *)
Theorem selected_model_is_an_option (store : gmap string string) (st : State)
    (acts : list Action) (s : Screen) :
  mount store = Ready st -> perform acts (firstScreen st) = Some s ->
  models (app s) <> [] -> In (selectedLLM (app s)) (models (app s)).
Proof.
  intros Hmount Hperform. by destruct (perform_consistent _ _ _ _ Hmount Hperform) as (_ & H & _).
Qed.

Lemma selected_model_is_an_option_witness :
  mount ∅ = Ready freshState /\
  perform sampleActs (firstScreen freshState) = Some sampleScreen /\
  In (selectedLLM (app sampleScreen)) (models (app sampleScreen)).
Proof.
  assert (Hmount : mount ∅ = Ready freshState) by (vm_compute; reflexivity).
  assert (Hperform : perform sampleActs (firstScreen freshState) = Some sampleScreen)
    by (vm_compute; reflexivity).
  split; [exact Hmount |]. split; [exact Hperform |].
  apply (selected_model_is_an_option ∅ freshState sampleActs sampleScreen Hmount Hperform).
  vm_compute. discriminate.
Defined.

(** * Sends in flight, and what the code holds *)

(** ** Sends in flight *)

Section Flights.

Lemma joined_app (a b : list string) : joined (a ++ b) = joined a +:+ joined b.
Proof. induction a as [| x a IH]; [done |]. simpl. by rewrite IH, append_assoc. Qed.

(** A chunk update in any state: the running text grows by the decoded
    chunk, the rest of the closure stays, and only the view changes. *)
Lemma onChunk_any value p st st' p' :
  onChunk value p st = Some (st', p') ->
  llmResponseText p' = llmResponseText p +:+ TextDecoder.decode value /\
  target p' = target p /\ updatedChatMessages p' = updatedChatMessages p /\
  llmResponseIndex p' = llmResponseIndex p /\
  chats st' = chats st /\ localStorage st' = localStorage st /\ othersKept st st'.
Proof.
  unfold onChunk. destruct (array_set _ _ _) as [view |]; [| done].
  intros [= <- <-]. by repeat split.
Qed.

Lemma onChunk_within value p st :
  llmResponseIndex p < length (messages st) ->
  onChunk value p st
    = Some (setMessages
              (<[llmResponseIndex p :=
                   mkMessage (llmResponseText p +:+ TextDecoder.decode value) false]>
                 (messages st)) st,
            mkPending (target p) (updatedChatMessages p) (llmResponseIndex p)
              (llmResponseText p +:+ TextDecoder.decode value)).
Proof.
  intros Hidx. unfold onChunk, array_set, array_assign.
  destruct (Nat.ltb_spec (llmResponseIndex p) (length (messages st))); [| lia].
  by rewrite dense_Some.
Qed.

Lemma resume_sameCall p f st st' f' :
  resume f st = Some (st', f') -> sameCall p f -> sameCall p f'.
Proof.
  unfold resume, sameCall.
  destruct (script f) as [[| | chunks ending] | [| value chunks] ending |]; try done;
    try (intros [= <- <-]; simpl; tauto).
  - destruct ending; intros [= <- <-]; simpl; tauto.
  - destruct (onChunk value (closure f) st) as [[st1 p1] |] eqn:Hc; [| done].
    intros [= <- <-]. simpl.
    destruct (onChunk_any _ _ _ _ _ Hc) as (_ & -> & -> & -> & _). tauto.
Qed.

Lemma resume_reading chunks ending f st st' f' :
  resume f st = Some (st', f') -> reading chunks ending f -> reading chunks ending f'.
Proof.
  unfold resume, reading.
  destruct (script f) as [[| | chunks0 ending0] | [| value pending] e |]; try done;
    try (intros [= <- <-]; simpl; tauto).
  - intros [= <- <-] [[= -> ->] Htext]. simpl. split; [done |]. by exists [].
  - destruct e; intros [= <- <-]; simpl; tauto.
  - destruct (onChunk value (closure f) st) as [[st1 p1] |] eqn:Hc; [| done].
    intros [= <- <-] (-> & read & -> & Htext). simpl. split; [done |].
    exists (read ++ [value]). split; [by rewrite <- app_assoc |].
    destruct (onChunk_any _ _ _ _ _ Hc) as (-> & _).
    rewrite map_app, joined_app, Htext. simpl. by rewrite append_nil_r.
Qed.

(** Whatever happens, a flight stays the call it is and its running text
    stays the decoded chunks read so far. *)
Lemma happen_flight h sys sys' k f p chunks ending :
  happen h sys = Some sys' -> flights sys !! k = Some f ->
  sameCall p f -> reading chunks ending f ->
  exists f', flights sys' !! k = Some f' /\ sameCall p f' /\ reading chunks ending f'.
Proof.
  intros Hh Hk Hsame Hread.
  assert (Hlaunch : forall started r,
            launch started r (flights sys) !! k = Some f).
  { intros [[req p0] |] r; simpl; [| done]. by apply lookup_app_l_Some. }
  destruct h as [e | j]; simpl in Hh.
  - destruct e;
      try (injection Hh as <-; by exists f).
    + destruct (startSend message None (present sys)) as [st1 started].
      injection Hh as <-. exists f. simpl. by rewrite Hlaunch.
    + destruct (updateMessage index newText (present sys)) as [st1 started | st1];
        injection Hh as <-; exists f; simpl; by rewrite ?Hlaunch.
  - destruct (flights sys !! j) as [fj |] eqn:Hj; [| done].
    destruct (resume fj (present sys)) as [[st1 fj'] |] eqn:Hres; [| done].
    injection Hh as <-. simpl.
    destruct (decide (j = k)) as [-> | Hne].
    + assert (fj = f) as -> by congruence.
      exists fj'. split; [| split].
      * apply list_lookup_insert_eq. by apply lookup_lt_Some with f.
      * by apply (resume_sameCall p f (present sys) st1).
      * by apply (resume_reading chunks ending f (present sys) st1).
    + exists f. by rewrite list_lookup_insert_ne.
Qed.

Lemma play_flight hs sys sys' k f p chunks ending :
  play hs sys = Some sys' -> flights sys !! k = Some f ->
  sameCall p f -> reading chunks ending f ->
  exists f', flights sys' !! k = Some f' /\ sameCall p f' /\ reading chunks ending f'.
Proof.
  revert sys f. induction hs as [| h hs IH]; intros sys f; simpl.
  - intros [= <-]. eauto.
  - destruct (happen h sys) as [sys1 |] eqn:Hh; [| done].
    intros Hplay Hk Hsame Hread.
    destruct (happen_flight _ _ _ _ _ _ _ _ Hh Hk Hsame Hread) as (f1 & Hk1 & Hs1 & Hr1).
    by apply (IH sys1 f1).
Qed.


Lemma insert_last {A : Type} (l : list A) (x y : A) :
  <[length l := y]> (l ++ [x]) = l ++ [y].
Proof.
  replace (length l) with (length l + 0) by lia. by rewrite insert_app_r.
Qed.

(** The reads of a flight with nothing in between are [readAll]. *)
Lemma play_reads fs chunks ending p st :
  play (replicate (length chunks) (Resumes (length fs)))
       (mkSystem st (fs ++ [mkFlight p (ToRead chunks ending)]))
    = match readAll chunks p st with
      | Some (st', p') => Some (mkSystem st' (fs ++ [mkFlight p' (ToRead [] ending)]))
      | None => None
      end.
Proof.
  revert p st. induction chunks as [| value chunks IH]; intros p st; [done |].
  cbn [length replicate play happen flights present readAll].
  rewrite lookup_app_r, Nat.sub_diag by done.
  cbn [lookup list_lookup resume script closure].
  destruct (onChunk value p st) as [[st1 p1] |]; [| done].
  rewrite insert_last. apply IH.
Qed.


End Flights.

(** ** What the code holds and writes *)

Section Held.





Lemma hold_messages (ms : list Message) :
  JSValue.hold (JSON.Array (map message_value ms)) = Some (JSValue.Array (map messageHeld ms)).
Proof.
  cbn [JSValue.hold].
  induction ms as [| m ms IH]; [done |].
  cbn [map]. 
  destruct ((fix all (l : list JSON.value) : option (list JSValue) :=
               match l with
               | [] => Some []
               | x :: l' =>
                   match JSValue.hold x, all l' with
                   | Some a, Some r => Some (a :: r)
                   | _, _ => None
                   end
               end) (map message_value ms)) as [l |] eqn:Hl; [| done].
  injection IH as <-. reflexivity.
Qed.

Lemma hold_chat (c : ChatType) :
  safe (ChatType.id c) = true -> JSValue.hold (chat_value c) = Some (chatHeld c).
Proof.
  intros Hsafe. unfold chat_value, chatHeld.
  pose proof (hold_messages (ChatType.messages c)) as Hms.
  cbn [JSValue.hold map fst JSValue.plain_keys] in *.
  unfold JSValue.of_number. cbn [Z.leb Z.compare Z.pow Z.pow_pos Pos.iter].
  rewrite Z.mul_1_r, Hsafe.
  destruct ((fix all (l : list JSON.value) : option (list JSValue) :=
               match l with
               | [] => Some []
               | x :: l' =>
                   match JSValue.hold x, all l' with
                   | Some a, Some r => Some (a :: r)
                   | _, _ => None
                   end
               end) (map message_value (ChatType.messages c))) as [l |]; [| done].
  injection Hms as <-. reflexivity.
Qed.

Lemma hold_chats (cs : list ChatType) :
  safeIds cs -> JSValue.hold (chats_value cs) = Some (chatsHeld cs).
Proof.
  intros Hsafe. unfold chats_value, chatsHeld. cbn [JSValue.hold].
  induction Hsafe as [| c cs Hc _ IH]; [done |].
  cbn [map]. rewrite (hold_chat c Hc).
  destruct ((fix all (l : list JSON.value) : option (list JSValue) :=
               match l with
               | [] => Some []
               | x :: l' =>
                   match JSValue.hold x, all l' with
                   | Some a, Some r => Some (a :: r)
                   | _, _ => None
                   end
               end) (map chat_value cs)) as [l |]; [| done].
  injection IH as <-. reflexivity.
Qed.

End Held.

(** ** Safe ids stay safe, and the store follows the collection *)

Section SafeIds.

Lemma safeIds_ids (cs cs' : list ChatType) :
  map ChatType.id cs' = map ChatType.id cs -> safeIds cs -> safeIds cs'.
Proof.
  unfold safeIds. intros Hids Hsafe.
  apply (Forall_fmap ChatType.id (fun z => safe z = true)).
  apply (Forall_fmap ChatType.id (fun z => safe z = true)) in Hsafe.
  change (fmap ChatType.id cs') with (map ChatType.id cs').
  change (fmap ChatType.id cs) with (map ChatType.id cs) in Hsafe.
  by rewrite Hids.
Qed.

Lemma step_safeIds e st st' :
  step e st = Some st' -> timed e -> safeIds (chats st) -> safeIds (chats st').
Proof.
  intros Hstep Htimed Hsafe.
  destruct e; try (simpl in Hstep; injection Hstep as <-; exact Hsafe).
  - simpl in Hstep. injection Hstep as <-. unfold handleSelectChat.
    by destruct (find _ (chats st)).
  - simpl in Hstep. injection Hstep as <-. simpl.
    apply Forall_app. split; [exact Hsafe |]. by constructor.
  - simpl in Hstep. injection Hstep as <-. simpl.
    apply (safeIds_ids (chats st)); [| exact Hsafe].
    rewrite map_map. apply map_ext. intros c. apply rename_id.
  - simpl in Hstep. injection Hstep as <-. unfold confirmDeleteChat.
    destruct (chatToDelete st) as [d |]; [| exact Hsafe]. simpl.
    unfold safeIds in *. apply Forall_forall. intros c Hc.
    apply list_elem_of_filter in Hc as [_ Hc]. by apply (proj1 (Forall_forall _ _) Hsafe).
  - apply (safeIds_ids (chats st)); [| exact Hsafe]. by apply step_send_ids with message r.
  - apply (safeIds_ids (chats st)); [| exact Hsafe].
    by apply step_edit_ids with index newText r.
  - simpl in Hstep. injection Hstep as <-. unfold fetchModels.
    destruct r as [| | | [| m ms]]; exact Hsafe.
Qed.

Lemma run_safeIds es st st' :
  run es st = Some st' -> Forall timed es -> safeIds (chats st) -> safeIds (chats st').
Proof.
  revert st. induction es as [| e es IH]; intros st; simpl.
  - by intros [= <-].
  - destruct (step e st) as [st1 |] eqn:Hstep; [| done].
    intros Hrun Htimed Hsafe. apply Forall_cons in Htimed as [He Hes].
    apply (IH st1 Hrun Hes). by apply (step_safeIds e st).
Qed.





Lemma loadValue_saved (cs : list ChatType) (store : gmap string string) :
  safeIds cs -> loadValue (saveAll cs store) = Some (chatsHeld cs).
Proof.
  intros Hsafe. unfold loadValue. by rewrite loadAll_saveAll, hold_chats.
Qed.

End SafeIds.

Section HeldAfter.

Lemma tracked_loadValue st st' :
  tracked st st' -> safeIds (chats st') ->
  loadValue (localStorage st) = Some (chatsHeld (chats st)) ->
  loadValue (localStorage st') = Some (chatsHeld (chats st')).
Proof.
  intros [[Hc Hs] | [store Hstore]] Hsafe Hl.
  - by rewrite Hs, Hc.
  - rewrite Hstore. by apply loadValue_saved.
Qed.

Lemma mount_loadValue store st :
  mount store = Ready st -> safeIds (chats st) ->
  loadValue (localStorage st) = Some (chatsHeld (chats st)).
Proof.
  intros Hmount Hsafe. destruct (mount_Ready _ _ Hmount) as [cs ->].
  simpl in *. by apply loadValue_saved.
Qed.


End HeldAfter.




(** X5.  Reloading restores the collection and nothing else: when the ids
    loaded at the start and the ids that [Date.now()] gives are safe
    integers, mounting again on the store of any state reached from a
    mounted one gives the start state with the same collection and the
    same store, no thread selected, an empty view and no models; and the
    value that the code then holds for the collection is the value it held
    before. *)
Theorem reload_restores_collection (store : gmap string string) (st st' : State)
    (es : list Event) :
  mount store = Ready st -> safeIds (chats st) -> Forall timed es ->
  run es st = Some st' ->
  safeIds (chats st') /\
  mount (localStorage st') = Ready (initialState (chats st') (localStorage st')) /\
  loadValue (localStorage st') = Some (chatsHeld (chats st')).
Proof.
  intros Hmount Hsafe Htimed Hrun.
  pose proof (run_safeIds _ _ _ Hrun Htimed Hsafe) as Hsafe'.
  split; [exact Hsafe' |]. split.
  - apply mount_stored.
    destruct (mount_store _ _ Hmount) as [Hs0 _].
    by apply (proj2 (run_store _ _ _ Hrun)).
  - apply (tracked_loadValue st); [by eapply run_tracked | done |].
    by apply (mount_loadValue store).
Qed.

Lemma reload_restores_collection_witness :
  mount ∅ = Ready freshState /\
  exists st',
    run sampleRun freshState = Some st' /\
    mount (localStorage st') = Ready (initialState (chats st') (localStorage st')).
Proof.
  assert (Hmount : mount ∅ = Ready freshState) by (vm_compute; reflexivity).
  split; [exact Hmount |].
  destruct (run sampleRun freshState) as [st' |] eqn:Hrun;
    [| vm_compute in Hrun; discriminate Hrun].
  exists st'. split; [reflexivity |].
  apply (reload_restores_collection ∅ freshState st' sampleRun Hmount);
    [constructor | | exact Hrun].
  repeat constructor.
Defined.

(** ** A reply on its way *)

Section InFlight.

Lemma launched_flight p chunks ending :
  llmResponseText p = EmptyString ->
  sameCall p (mkFlight p (ToSettle (Body chunks ending))) /\
  reading chunks ending (mkFlight p (ToSettle (Body chunks ending))).
Proof. intros Htext. by repeat split. Qed.


Lemma resume_chunk sys k f value pending ending m :
  flights sys !! k = Some f -> script f = ToRead (value :: pending) ending ->
  messages (present sys) !! llmResponseIndex (closure f) = Some m ->
  happen (Resumes k) sys
    = Some (mkSystem
              (setMessages
                 (<[llmResponseIndex (closure f) :=
                      mkMessage (llmResponseText (closure f) +:+ TextDecoder.decode value) false]>
                    (messages (present sys)))
                 (present sys))
              (<[k := mkFlight
                        (mkPending (target (closure f)) (updatedChatMessages (closure f))
                           (llmResponseIndex (closure f))
                           (llmResponseText (closure f) +:+ TextDecoder.decode value))
                        (ToRead pending ending)]> (flights sys))).
Proof.
  intros Hk Hs Hm. simpl. unfold resume. rewrite Hk, Hs.
  by rewrite (onChunk_within value _ _ (lookup_lt_Some _ _ _ Hm)).
Qed.

End InFlight.




(** ** A chunk update at or past the end of the view *)

Section Growth.

Lemma array_assign_end {A : Type} (a : list A) (i : nat) (x : A) :
  length a <= i ->
  length (array_assign a i x) = S i /\
  array_assign a i x !! i = Some (Some x) /\
  (forall j y, a !! j = Some y -> array_assign a i x !! j = Some (Some y)) /\
  (forall j, length a <= j < i -> array_assign a i x !! j = Some None).
Proof.
  intros Hi. unfold array_assign.
  destruct (Nat.ltb_spec i (length a)); [lia |].
  split; [rewrite !length_app, length_fmap, length_replicate; simpl; lia |].
  split.
  { rewrite lookup_app_r by (rewrite length_fmap; lia).
    rewrite lookup_app_r by (rewrite length_fmap, length_replicate; lia).
    rewrite length_fmap, length_replicate.
    by replace (i - length a - (i - length a)) with 0 by lia. }
  split.
  { intros j y Hj. rewrite lookup_app_l by (rewrite length_fmap; by eapply lookup_lt_Some).
    by rewrite list_lookup_fmap, Hj. }
  intros j Hj. rewrite lookup_app_r by (rewrite length_fmap; lia).
  rewrite lookup_app_l by (rewrite length_fmap, length_replicate; lia).
  rewrite length_fmap. apply lookup_replicate_2. lia.
Qed.

Lemma onChunk_end value p st :
  llmResponseIndex p = length (messages st) ->
  onChunk value p st
    = Some (setMessages
              (messages st
                 ++ [mkMessage (llmResponseText p +:+ TextDecoder.decode value) false]) st,
            mkPending (target p) (updatedChatMessages p) (llmResponseIndex p)
              (llmResponseText p +:+ TextDecoder.decode value)).
Proof. intros Hidx. unfold onChunk. by rewrite Hidx, array_set_end. Qed.

Lemma onChunk_past value p st :
  length (messages st) < llmResponseIndex p -> onChunk value p st = None.
Proof.
  intros Hidx. unfold onChunk.
  by destruct (array_set_past (messages st) (llmResponseIndex p)
                 (mkMessage (llmResponseText p +:+ TextDecoder.decode value) false) Hidx)
    as (_ & _ & ->).
Qed.

End Growth.

(** C10, as amended.  The placeholder index of a send is the length of the
    history sent with the request (for a fresh send: the view followed by
    the user's message).  A chunk update in a state whose view has a
    message at that index replaces that message and keeps the number of
    messages and the message at every other index, and the collection, the
    selection and the store; this is so at every read of a send between
    whose steps nothing else runs.  A chunk update in a state whose view
    is shorter (the view was replaced in mid-stream) makes the view
    [index + 1] long: the messages shown stay, the new message comes at the
    index, and the slots in between are empty; at [index] exactly the
    message is added at the end. *)
Theorem chunk_update_frame :
  (forall (st st1 : State) (message : string) (updatedMessages : option (list Message))
          (req : Request) (p : Pending) (before : list (list Byte.byte))
          (value : list Byte.byte),
     startSend message updatedMessages st = (st1, Some (req, p)) ->
     llmResponseIndex p = length (history req) /\
     (updatedMessages = None -> history req = messages st ++ [mkMessage message true]) /\
     exists st_k p_k st' p',
       readAll before p st1 = Some (st_k, p_k) /\
       onChunk value p_k st_k = Some (st', p') /\
       llmResponseIndex p_k = llmResponseIndex p /\
       llmResponseIndex p' = llmResponseIndex p /\
       length (messages st') = length (messages st_k) /\
       messages st' !! llmResponseIndex p
         = Some (mkMessage (llmResponseText p_k +:+ TextDecoder.decode value) false) /\
       (forall j, j <> llmResponseIndex p -> messages st' !! j = messages st_k !! j) /\
       chats st' = chats st_k /\ selectedChat st' = selectedChat st_k /\
       localStorage st' = localStorage st_k) /\
  (forall (st : State) (p : Pending) (value : list Byte.byte),
     llmResponseIndex p < length (messages st) ->
     exists st' p',
       onChunk value p st = Some (st', p') /\
       length (messages st') = length (messages st) /\
       messages st' !! llmResponseIndex p
         = Some (mkMessage (llmResponseText p +:+ TextDecoder.decode value) false) /\
       (forall j, j <> llmResponseIndex p -> messages st' !! j = messages st !! j) /\
       chats st' = chats st /\ selectedChat st' = selectedChat st /\
       localStorage st' = localStorage st) /\
  (forall (st : State) (p : Pending) (value : list Byte.byte),
     length (messages st) <= llmResponseIndex p ->
     let update := mkMessage (llmResponseText p +:+ TextDecoder.decode value) false in
     let slots := array_assign (messages st) (llmResponseIndex p) update in
     length slots = S (llmResponseIndex p) /\
     length slots <> length (messages st) /\
     slots !! llmResponseIndex p = Some (Some update) /\
     (forall j m, messages st !! j = Some m -> slots !! j = Some (Some m)) /\
     (forall j, length (messages st) <= j < llmResponseIndex p -> slots !! j = Some None) /\
     (llmResponseIndex p = length (messages st) ->
      exists st' p',
        onChunk value p st = Some (st', p') /\
        messages st' = messages st ++ [update]) /\
     (length (messages st) < llmResponseIndex p -> onChunk value p st = None)) /\
  (forall (sys : System) (k : nat) (f : Flight) (value : list Byte.byte)
          (pending : list (list Byte.byte)) (ending : StreamEnd) (m : Message),
     flights sys !! k = Some f -> script f = ToRead (value :: pending) ending ->
     messages (present sys) !! llmResponseIndex (closure f) = Some m ->
     exists sys',
       happen (Resumes k) sys = Some sys' /\
       length (messages (present sys')) = length (messages (present sys)) /\
       messages (present sys') !! llmResponseIndex (closure f)
         = Some (mkMessage (llmResponseText (closure f) +:+ TextDecoder.decode value) false) /\
       (forall j, j <> llmResponseIndex (closure f) ->
          messages (present sys') !! j = messages (present sys) !! j)).
Proof.
  split; [| split; [| split]].
  - intros st st1 message updatedMessages req p before value Hstart.
    destruct (startSend_streaming _ _ _ _ _ _ Hstart) as (Hs & Htext & Hbase & Htarget).
    split; [destruct Hs as [_ Hidx]; by rewrite Hidx, Hbase |].
    split.
    { intros ->. by destruct (startSend_Some _ _ _ _ _ _ Hstart) as (c & _ & _ & -> & _). }
    pose proof (readAll_streaming before _ _ Hs) as Hread.
    pose proof (streaming_next_all before _ _ Hs) as Hs_k.
    eexists _, _, _, _. split; [exact Hread |].
    split; [exact (onChunk_streaming value _ _ Hs_k) |].
    destruct Hs as [_ Hidx]. simpl. rewrite Hidx.
    split; [done |]. split; [done |].
    split; [by rewrite !length_app |].
    split; [by rewrite list_lookup_middle |].
    split; [| done].
    intros j Hj.
    destruct (Nat.lt_ge_cases j (length (updatedChatMessages p))) as [Hlt | Hge].
    + by rewrite !lookup_app_l.
    + rewrite !lookup_app_r by done.
      destruct (j - length (updatedChatMessages p)) as [| n] eqn:Hn; [lia | done].
  - intros st p value Hidx. rewrite (onChunk_within value p st Hidx).
    eexists _, _. split; [reflexivity |]. simpl.
    split; [apply length_insert |].
    split; [by apply list_lookup_insert_eq |].
    split; [intros j Hj; by apply list_lookup_insert_ne |]. done.
  - intros st p value Hidx update slots.
    destruct (array_assign_end (messages st) (llmResponseIndex p) update Hidx)
      as (Hlen & Hat & Hkept & Hholes).
    split; [exact Hlen |]. split; [fold slots in Hlen; lia |].
    split; [exact Hat |]. split; [exact Hkept |]. split; [exact Hholes |].
    split.
    + intros Heq. rewrite (onChunk_end value p st Heq). by eexists _, _.
    + apply onChunk_past.
  - intros sys k f value pending ending m Hk Hs Hm.
    pose proof (lookup_lt_Some _ _ _ Hm) as Hlt.
    eexists. split; [exact (resume_chunk sys k f value pending ending m Hk Hs Hm) |].
    cbn [present messages setMessages].
    split; [apply length_insert |].
    split; [by apply list_lookup_insert_eq |].
    intros j Hj. by apply list_lookup_insert_ne.
Qed.

Lemma chunk_update_frame_witness :
  exists st1 req p,
    startSend "hi" None chatting = (st1, Some (req, p)) /\
    llmResponseIndex p = 3 /\
    exists st_k p_k st' p',
      readAll [list_byte_of_string "Hel"] p st1 = Some (st_k, p_k) /\
      onChunk (list_byte_of_string "lo w") p_k st_k = Some (st', p') /\
      length (messages st') = length (messages st_k).
Proof.
  destruct (startSend "hi" None chatting) as [st1 [[req p] |]] eqn:Hstart;
    [| discriminate Hstart].
  exists st1, req, p. split; [reflexivity |].
  destruct (proj1 chunk_update_frame chatting st1 "hi" None req p
              [list_byte_of_string "Hel"] (list_byte_of_string "lo w") Hstart)
    as (Hidx & _ & st_k & p_k & st' & p' & Hread & Hchunk & _ & _ & Hlen & _).
  split.
  - rewrite Hidx. injection Hstart as _ <- _. reflexivity.
  - exists st_k, p_k, st', p'. by repeat split.
Defined.

(** C10 as stated fails when the view is replaced in mid-stream.  The
    thread of a send is clicked in the list while the reply is on its way:
    the view becomes the stored sequence, the user's message alone, and
    the next chunk update makes it two messages long.  With the empty
    thread selected instead, the update of a send whose placeholder index
    is 3 makes a view of no message four slots long. *)
Lemma chunk_update_grows_the_view :
  (exists sys sys',
     play reselected (mkSystem freshState []) = Some sys /\
     messages (present sys) = [mkMessage "hi" true] /\
     (llmResponseIndex ∘ closure) <$> flights sys !! 0 = Some 1 /\
     happen (Resumes 0) sys = Some sys' /\
     messages (present sys') = [mkMessage "hi" true; mkMessage "Hel" false] /\
     length (messages (present sys')) <> length (messages (present sys))) /\
  (exists st1 req p,
     startSend "hi" None chatting = (st1, Some (req, p)) /\
     llmResponseIndex p = 3 /\
     messages (handleSelectChat 2 st1) = [] /\
     array_assign (messages (handleSelectChat 2 st1)) (llmResponseIndex p)
                  (mkMessage "Hel" false)
       = [None; None; None; Some (mkMessage "Hel" false)]).
Proof.
  split.
  - destruct (play reselected (mkSystem freshState [])) as [sys |] eqn:Hplay;
      [| vm_compute in Hplay; discriminate Hplay].
    destruct (happen (Resumes 0) sys) as [sys' |] eqn:Hnext;
      [| vm_compute in Hplay; injection Hplay as <-; vm_compute in Hnext; discriminate Hnext].
    exists sys, sys'. split; [reflexivity |].
    vm_compute in Hplay. injection Hplay as <-.
    vm_compute in Hnext. injection Hnext as <-.
    vm_compute. repeat split. discriminate.
  - eexists _, _, _. split; [reflexivity |]. vm_compute. by repeat split.
Qed.

(** C2 as stated fails when the selected model has the empty name.  The
    list of models that arrives holds one model, named by the empty
    string; it becomes the selected model and the pane is shown.  The
    first message of the first thread is edited and saved: the edit is
    applied and stored, and no send is started. *)
Lemma edit_with_unnamed_model_sends_nothing :
  exists st0 s s',
    mount savedStore = Ready st0 /\
    perform unnamedActs (firstScreen st0) = Some s /\
    paneRendered (app s) = true /\
    models (app s) = [EmptyString] /\ selectedLLM (app s) = EmptyString /\
    selectedChat (app s) = Some 1%Z /\
    messages (app s) = [mkMessage "hello" true; mkMessage "hi there" false] /\
    fire (ClickSave NoBody) s
      = Some (Chat.initial, sidebar s, [EditMessage 0 "good morning" NoBody]) /\
    asked (EditMessage 0 "good morning" NoBody) (app s) = [] /\
    length (asked (EditMessage 0 "good morning" NoBody) (app s)) <> 1 /\
    act (ClickSave NoBody) s = Some s' /\
    messages (app s') = [mkMessage "good morning" true] /\
    storedMessages 1 (chats (app s')) = Some [mkMessage "good morning" true].
Proof.
  destruct (mount savedStore) as [st0 | | |] eqn:Hmount;
    try (vm_compute in Hmount; discriminate Hmount).
  destruct (perform unnamedActs (firstScreen st0)) as [s |] eqn:Hs;
    [| vm_compute in Hmount; injection Hmount as <-; vm_compute in Hs; discriminate Hs].
  destruct (act (ClickSave NoBody) s) as [s' |] eqn:Hs';
    [| vm_compute in Hmount; injection Hmount as <-; vm_compute in Hs; injection Hs as <-;
       vm_compute in Hs'; discriminate Hs'].
  exists st0, s, s'. split; [reflexivity |]. split; [exact Hs |].
  vm_compute in Hmount. injection Hmount as <-.
  vm_compute in Hs. injection Hs as <-.
  vm_compute in Hs'. injection Hs' as <-.
  vm_compute. repeat split. discriminate.
Qed.

(** ** Sends in turn *)

Section InTurn.

Lemma play_app a b sys :
  play (a ++ b) sys = match play a sys with
                      | Some sys1 => play b sys1
                      | None => None
                      end.
Proof.
  revert sys. induction a as [| h a IH]; intros sys; simpl; [done |].
  destruct (happen h sys); [apply IH | done].
Qed.

(** The waits of a call, one after the other with nothing in between, are
    [finishSend]. *)
Lemma play_waits r p st fs :
  streaming p st ->
  exists p',
    play (replicate (waits r) (Resumes (length fs)))
         (mkSystem st (fs ++ [mkFlight p (ToSettle r)]))
      = match finishSend r p st with
        | Some st' => Some (mkSystem st' (fs ++ [mkFlight p' Over]))
        | None => None
        end.
Proof.
  intros Hs. destruct r as [| | chunks ending].
  - exists p. cbn [waits replicate play happen flights present finishSend].
    rewrite lookup_app_r, Nat.sub_diag by done.
    cbn [lookup list_lookup resume script closure]. by rewrite insert_last.
  - exists p. cbn [waits replicate play happen flights present finishSend].
    rewrite lookup_app_r, Nat.sub_diag by done.
    cbn [lookup list_lookup resume script closure]. by rewrite insert_last.
  - eexists. cbn [waits finishSend].
    change (replicate (S (S (length chunks))) (Resumes (length fs)))
      with (Resumes (length fs) :: replicate (S (length chunks)) (Resumes (length fs))).
    cbn [play happen flights present].
    rewrite lookup_app_r, Nat.sub_diag by done.
    cbn [lookup list_lookup resume script closure]. rewrite insert_last.
    replace (S (length chunks)) with (length chunks + 1) by lia.
    rewrite replicate_add.
    rewrite play_app, play_reads, (readAll_streaming chunks _ _ Hs).
    cbn [replicate play happen flights present].
    rewrite lookup_app_r, Nat.sub_diag by done.
    cbn [lookup list_lookup resume script closure].
    destruct ending; by rewrite insert_last.
Qed.

(** An event with the waits of the call it starts is [step]. *)
Lemma step_in_turn e st st' fs :
  step e st = Some st' ->
  exists fs',
    play (Does e :: match awaited e st with
                    | Some r => replicate (waits r) (Resumes (length fs))
                    | None => []
                    end)
         (mkSystem st fs) = Some (mkSystem st' fs') /\
    length fs' = match awaited e st with Some _ => S (length fs) | None => length fs end.
Proof.
  destruct e; try (simpl; intros [= <-]; by eexists).
  - (* a send *)
    cbn [step awaited]. unfold handleSendMessage.
    destruct (startSend message None st) as [st1 [[req p] |]] eqn:Hstart.
    + intros Hfinish. cbn [snd play happen present flights]. rewrite Hstart. cbn [launch].
      destruct (startSend_streaming _ _ _ _ _ _ Hstart) as (Hs & _).
      destruct (play_waits r p st1 fs Hs) as [p' ->]. rewrite Hfinish.
      eexists. split; [reflexivity |]. rewrite length_app. simpl. lia.
    + intros [= <-]. cbn [snd play happen present flights]. rewrite Hstart. by eexists.
  - (* an edit *)
    cbn [step awaited].
    destruct (updateMessage index newText st) as [st1 [[req p] |] | st1] eqn:Hedit.
    + intros Hfinish. cbn [play happen present flights]. rewrite Hedit. cbn [launch].
      assert (Hs : streaming p st1).
      { unfold updateMessage in Hedit.
        destruct (selectedChat st) as [chat |]; [| done].
        destruct (_ !! index) as [m |]; [| done].
        destruct (startSend _ _ _) as [st2 started] eqn:Hstart.
        injection Hedit as <- ->.
        by destruct (startSend_streaming _ _ _ _ _ _ Hstart) as (Hs & _). }
      destruct (play_waits r p st1 fs Hs) as [p' ->]. rewrite Hfinish.
      eexists. split; [reflexivity |]. rewrite length_app. simpl. lia.
    + intros [= <-]. cbn [play happen present flights]. rewrite Hedit. by eexists.
    + intros [= <-]. cbn [play happen present flights]. rewrite Hedit. by eexists.
Qed.

(** A run of events is the play of the events in turn. *)
Lemma run_in_turn es st st' fs :
  run es st = Some st' ->
  exists fs', play (inTurn es st (length fs)) (mkSystem st fs) = Some (mkSystem st' fs').
Proof.
  revert st fs. induction es as [| e es IH]; intros st fs; cbn [run inTurn].
  - intros [= <-]. by eexists.
  - destruct (step e st) as [st1 |] eqn:Hstep; [| done].
    intros Hrun. destruct (step_in_turn e st st1 fs Hstep) as (fs1 & Hplay & Hlen).
    rewrite app_comm_cons, play_app, Hplay.
    rewrite <- Hlen. by apply IH.
Qed.

End InTurn.

(** ** What is shown, stored and replayed when sends run in turn *)

Section Awaited.

Lemma awaited_send message r st chat :
  selectedChat st = Some chat -> selectedLLM st <> EmptyString ->
  awaited (SendMessage message r) st = Some r.
Proof.
  intros Hsel Hllm. cbn [awaited].
  by destruct (startSend_guarded message None st chat Hsel Hllm) as (st1 & req & p & ->).
Qed.

Lemma awaited_edit index newText r st chat m :
  selectedChat st = Some chat -> selectedLLM st <> EmptyString ->
  messages st !! index = Some m ->
  awaited (EditMessage index newText r) st = Some r.
Proof.
  intros Hsel Hllm Hm. cbn [awaited]. unfold updateMessage.
  rewrite Hsel, (edit_truncate _ _ _ _ Hm). cbv zeta.
  rewrite list_lookup_middle
    by (rewrite length_take; pose proof (lookup_lt_Some _ _ _ Hm); lia).
  match goal with
  | |- context [startSend ?t ?u ?s] =>
      destruct (startSend_guarded t u s chat Hsel Hllm) as (st2 & req & p & ->)
  end.
  done.
Qed.

(** While the reads of a flight are to be rejected, no wait of it that
    ends changes the collection or the store. *)
Lemma resume_rejected sys sys' k f chunks :
  flights sys !! k = Some f -> reading chunks ReadRejected f ->
  happen (Resumes k) sys = Some sys' ->
  chats (present sys') = chats (present sys) /\
  localStorage (present sys') = localStorage (present sys) /\
  exists f', flights sys' !! k = Some f' /\ reading chunks ReadRejected f'.
Proof.
  intros Hk Hread. cbn [happen]. rewrite Hk.
  destruct (resume f (present sys)) as [[st' f'] |] eqn:Hres; [| done].
  intros [= <-]. cbn [present flights].
  pose proof (resume_reading _ _ _ _ _ _ Hres Hread) as Hread'.
  assert (Hkept : chats st' = chats (present sys) /\
                  localStorage st' = localStorage (present sys)).
  { unfold resume, reading in *.
    destruct (script f) as [[| | chunks0 ending0] | [| value pending] e |]; try done;
      try (injection Hres as <- _; done).
    - destruct Hread as [-> _]. by injection Hres as <- _.
    - destruct (onChunk value (closure f) (present sys)) as [[st1 p1] |] eqn:Hc; [| done].
      injection Hres as <- _.
      by destruct (onChunk_any _ _ _ _ _ Hc) as (_ & _ & _ & _ & ? & ? & _). }
  destruct Hkept as [Hc Hs]. split; [exact Hc |]. split; [exact Hs |].
  exists f'. split; [| exact Hread'].
  apply list_lookup_insert_eq. by eapply lookup_lt_Some.
Qed.

End Awaited.

(** X2.  When every call of [handleSendMessage] has all its waits before
    anything else happens, and each new thread gets an id not yet in use:
    in every state reached from a mounted one, the view is the stored
    sequence of the selected thread, followed by at most one assistant
    message that is not stored (the placeholder or a partial reply). *)
Theorem view_extends_stored (store : gmap string string) (st st' : State)
    (es : list Event) (c : Z) :
  mount store = Ready st -> freshAdds es st -> run es st = Some st' ->
  selectedChat st' = Some c ->
  (exists fs, play (inTurn es st 0) (mkSystem st []) = Some (mkSystem st' fs)) /\
  exists saved,
    storedMessages c (chats st') = Some saved /\
    (messages st' = saved \/ exists t, messages st' = saved ++ [mkMessage t false]).
Proof.
  intros Hmount Hfresh Hrun Hsel.
  split; [exact (run_in_turn es st st' [] Hrun) |].
  destruct (mount_Ready _ _ Hmount) as [cs ->].
  apply (run_view es _ st' Hfresh Hrun); [by intros x | by intros x | exact Hsel].
Qed.

Lemma view_extends_stored_witness :
  mount ∅ = Ready freshState /\ freshAdds sampleRun freshState /\
  exists st',
    run sampleRun freshState = Some st' /\ selectedChat st' = Some 1%Z /\
    exists saved,
      storedMessages 1 (chats st') = Some saved /\
      (messages st' = saved \/ exists t, messages st' = saved ++ [mkMessage t false]).
Proof.
  assert (Hmount : mount ∅ = Ready freshState) by (vm_compute; reflexivity).
  assert (Hfresh : freshAdds sampleRun freshState).
  { cbn. repeat split; try exact I; intros H; cbn in H;
      repeat (destruct H as [H | H]; [discriminate H |]); exact H. }
  split; [exact Hmount |]. split; [exact Hfresh |].
  destruct (run sampleRun freshState) as [st' |] eqn:Hrun; [| vm_compute in Hrun; discriminate Hrun].
  exists st'. split; [reflexivity |].
  assert (Hsel : selectedChat st' = Some 1%Z) by (pose proof Hrun as Hv; vm_compute in Hv; injection Hv as <-; vm_compute; reflexivity).
  split; [exact Hsel |].
  exact (proj2 (view_extends_stored ∅ freshState st' sampleRun 1 Hmount Hfresh Hrun Hsel)).
Defined.

(** Without that proviso the view need not extend the stored sequence: a
    chunk that arrives after another thread has been selected is written
    into the view of that thread, over the message shown at the
    placeholder index. *)
Example chunk_lands_in_another_view :
  exists sys,
    play [Does (ModelsFetched (ModelList ["llama3"]));
          Does (AddChat 1 "11/2/2026");
          Does (SendMessage "a" (Body [list_byte_of_string "x"] Done));
          Resumes 0; Resumes 0; Resumes 0;
          Does (AddChat 2 "11/2/2026");
          Does (SendMessage "hi" (Body helloChunks Done)); Resumes 1;
          Does (SelectChat 1);
          Resumes 1]
         (mkSystem freshState []) = Some sys /\
    selectedChat (present sys) = Some 1%Z /\
    storedMessages 1 (chats (present sys))
      = Some [mkMessage "a" true; mkMessage "x" false] /\
    messages (present sys) = [mkMessage "a" true; mkMessage "Hel" false].
Proof.
  eexists. split; [vm_compute; reflexivity |]. vm_compute. by repeat split.
Qed.

(** X8.  When the reads of the reply break off, the text received so far
    is not stored: whatever runs between the waits of the call, as long as
    no chunk update leaves empty slots in the view, none of them changes
    the collection or the store when it ends.  When nothing
    runs in between, the text received so far stays in the view, the
    stored sequence of the selected thread ends with the user's message,
    and that is what the store holds. *)
Theorem interrupted_stream_is_not_stored :
  (forall (sys sys' sys'' : System) (k : nat) (p : Pending)
          (chunks : list (list Byte.byte)) (hs : list Happening),
     flights sys !! k = Some (mkFlight p (ToSettle (Body chunks ReadRejected))) ->
     llmResponseText p = EmptyString ->
     play hs sys = Some sys' ->
     happen (Resumes k) sys' = Some sys'' ->
     chats (present sys'') = chats (present sys') /\
     localStorage (present sys'') = localStorage (present sys')) /\
  (forall (message : string) (chunks : list (list Byte.byte)) (st : State) (chat : Z)
          (fs : list Flight),
     selectedChat st = Some chat -> selectedLLM st <> EmptyString ->
     exists st' fs',
       play (Does (SendMessage message (Body chunks ReadRejected))
               :: replicate (waits (Body chunks ReadRejected)) (Resumes (length fs)))
            (mkSystem st fs) = Some (mkSystem st' fs') /\
       step (SendMessage message (Body chunks ReadRejected)) st = Some st' /\
       messages st' =
         messages st ++
           [mkMessage message true; mkMessage (joined (map TextDecoder.decode chunks)) false] /\
       chats st' =
         map (replaceMessages chat (messages st ++ [mkMessage message true])) (chats st) /\
       (In chat (map ChatType.id (chats st)) ->
        storedMessages chat (chats st') = Some (messages st ++ [mkMessage message true])) /\
       getItem "chats" (localStorage st') = Some (JSON.stringify (chats st'))).
Proof.
  split.
  { intros sys sys' sys'' k p chunks hs Hk Htext Hplay Hnext.
    destruct (launched_flight p chunks ReadRejected Htext) as [Hsame Hread].
    destruct (play_flight hs sys sys' k _ p chunks ReadRejected Hplay Hk Hsame Hread)
      as (f & Hf & _ & Hread').
    by destruct (resume_rejected sys' sys'' k f chunks Hf Hread' Hnext) as (? & ? & _). }
  intros message chunks st chat fs Hsel Hllm.
  pose proof (step_send_started message (Body chunks ReadRejected) st chat Hsel Hllm) as Hstep.
  destruct (step_in_turn _ st _ fs Hstep) as (fs' & Hplay & _).
  rewrite (awaited_send message _ st chat Hsel Hllm) in Hplay.
  eexists _, fs'. split; [exact Hplay |]. split; [exact Hstep |]. simpl.
  split; [by rewrite <- app_assoc |]. split; [done |].
  split; [apply storedMessages_replace |].
  unfold getItem, saveAll, setItem. apply lookup_insert_eq.
Qed.

Lemma interrupted_stream_is_not_stored_witness :
  exists st',
    step (SendMessage "more" (Body helloChunks ReadRejected)) chatting = Some st' /\
    textAt 3 (messages st') = Some "Hello world" /\
    storedMessages 1 (chats st')
      = Some [mkMessage "hello" true; mkMessage "hi there" false; mkMessage "more" true].
Proof.
  destruct (proj2 interrupted_stream_is_not_stored "more" helloChunks chatting 1%Z [])
    as (st' & fs' & _ & Hstep & Hview & _ & Hstored & _); [reflexivity | discriminate |].
  exists st'. split; [exact Hstep |]. split.
  - rewrite Hview. vm_compute. reflexivity.
  - rewrite Hstored; [reflexivity | vm_compute; tauto].
Defined.

(** X10.  An edit replays the conversation from the edited message, when
    nothing runs between the waits of the call it starts: with a thread
    and a model selected, editing the message at an index of the view and
    receiving the whole reply leaves, in the view and in the selected
    thread's stored sequence, the messages before the index, the edited
    message with its role kept, and one assistant message with the reply;
    everything after the index is gone.  If the reads break off, the view
    ends with the text received and the stored sequence with the edited
    message; if the request fails, the view ends with the empty
    placeholder and the stored sequence with the edited message. *)
Theorem edit_replays_from_index (index : nat) (newText : string) (r : Response)
    (st : State) (chat : Z) (m : Message) (fs : list Flight) :
  selectedChat st = Some chat -> selectedLLM st <> EmptyString ->
  messages st !! index = Some m ->
  let cut := take index (messages st) ++ [mkMessage newText (isUser m)] in
  exists st' fs',
    play (Does (EditMessage index newText r) :: replicate (waits r) (Resumes (length fs)))
         (mkSystem st fs) = Some (mkSystem st' fs') /\
    step (EditMessage index newText r) st = Some st' /\
    othersKept st st' /\
    match r with
    | Body chunks Done =>
        let reply := mkMessage (joined (map TextDecoder.decode chunks)) false in
        messages st' = cut ++ [reply] /\
        chats st' = map (replaceMessages chat (cut ++ [reply])) (chats st)
    | Body chunks ReadRejected =>
        messages st' = cut ++ [mkMessage (joined (map TextDecoder.decode chunks)) false] /\
        chats st' = map (replaceMessages chat cut) (chats st)
    | Rejected | NoBody =>
        messages st' = cut ++ [mkMessage EmptyString false] /\
        chats st' = map (replaceMessages chat cut) (chats st)
    end.
Proof.
  intros Hsel Hllm Hm cut.
  pose proof (step_edit_started index newText r st chat m Hsel Hllm Hm) as Hstep.
  cbv zeta in Hstep. fold cut in Hstep.
  destruct (step_in_turn _ st _ fs Hstep) as (fs' & Hplay & _).
  rewrite (awaited_edit index newText r st chat m Hsel Hllm Hm) in Hplay.
  eexists _, fs'. split; [exact Hplay |]. split; [exact Hstep |]. split.
  { eapply othersKept_trans; [| apply settled_othersKept]. by repeat split. }
  destruct r as [| | chunks []]; simpl; try done.
  split; [done |]. rewrite map_map. apply map_ext. intros c.
  unfold replaceMessages. destruct (ChatType.id c =? chat)%Z eqn:Hc; simpl; by rewrite Hc.
Qed.

Lemma edit_replays_from_index_witness :
  exists st',
    step (EditMessage 0 "hey" (Body helloChunks Done)) chatting = Some st' /\
    messages st' = [mkMessage "hey" true; mkMessage "Hello world" false] /\
    storedMessages 1 (chats st') = Some [mkMessage "hey" true; mkMessage "Hello world" false].
Proof.
  destruct (edit_replays_from_index 0 "hey" (Body helloChunks Done) chatting 1
              (mkMessage "hello" true) [])
    as (st' & fs' & _ & Hstep & _ & Hview & Hchats); [reflexivity | discriminate | reflexivity |].
  exists st'. split; [exact Hstep |]. split.
  - rewrite Hview. vm_compute. reflexivity.
  - rewrite Hchats. vm_compute. reflexivity.
Defined.

(** ** A character cut by the end of a chunk *)

Section Characters.

Lemma to_N_inj (a b : Byte.byte) : Byte.to_N a = Byte.to_N b -> a = b.
Proof.
  intros H. pose proof (Byte.of_to_N a) as Ha. rewrite H, Byte.of_to_N in Ha. congruence.
Qed.

(** What the decoder keeps of a first byte. *)
Lemma lead_shape (b : Byte.byte) p :
  TextDecoder.lead (ascii_of_byte b) = (EmptyString, Some p) ->
  TextDecoder.seen p = String (ascii_of_byte b) EmptyString /\
  1 <= TextDecoder.needed p /\
  (194 <= Byte.to_N b <= 244)%N /\
  (Byte.to_N b = 239%N -> TextDecoder.needed p = 2 /\
                          TextDecoder.lower p = 128%N /\ TextDecoder.upper p = 191%N).
Proof.
  unfold TextDecoder.lead, TextDecoder.between. rewrite N_of_ascii_of_byte. cbv zeta.
  destruct (N.leb_spec (Byte.to_N b) 127); [done |].
  destruct (N.leb_spec 194 (Byte.to_N b)); simpl.
  - destruct (N.leb_spec (Byte.to_N b) 223); simpl.
    { intros [= <-]. simpl. repeat split; lia. }
    destruct (N.leb_spec 224 (Byte.to_N b)); simpl; [| lia].
    destruct (N.leb_spec (Byte.to_N b) 239); simpl.
    { intros [= <-]. simpl. repeat split; try lia.
      - destruct (N.eqb_spec (Byte.to_N b) 224); [lia | done].
      - destruct (N.eqb_spec (Byte.to_N b) 237); [lia | done]. }
    destruct (N.leb_spec 240 (Byte.to_N b)); simpl; [| lia].
    destruct (N.leb_spec (Byte.to_N b) 244); simpl; [| done].
    intros [= <-]. simpl. repeat split; lia.
  - destruct (N.leb_spec 224 (Byte.to_N b)); simpl; [lia |].
    destruct (N.leb_spec 240 (Byte.to_N b)); simpl; [lia | done].
Qed.

Lemma continuation_between (c : Byte.byte) :
  continuation c -> TextDecoder.between 128 (Byte.to_N c) 191 = true.
Proof.
  unfold continuation, TextDecoder.between. intros Hc.
  destruct (N.leb_spec 128 (Byte.to_N c)); [| lia].
  destruct (N.leb_spec (Byte.to_N c) 191); [done | lia].
Qed.

Lemma follows_next (cs : list Byte.byte) seen k :
  Forall continuation cs -> follows (TextDecoder.mkPartial seen k 128 191) cs.
Proof.
  intros Hcs. destruct Hcs as [| c cs Hc Hcs]; [done |].
  split; [by apply continuation_between | done].
Qed.

(** A sequence in progress that gets all its bytes is copied. *)
Lemma run_whole (conts : list Byte.byte) (rest : list ascii) p :
  length conts = TextDecoder.needed p -> 1 <= TextDecoder.needed p -> follows p conts ->
  TextDecoder.run (map ascii_of_byte conts ++ rest) (Some p)
    = (TextDecoder.seen p +:+ string_of_list_byte conts) +:+ TextDecoder.run rest None.
Proof.
  revert p. induction conts as [| c cs IH]; intros p Hlen Hpos Hf; [simpl in Hlen; lia |].
  destruct Hf as [Hc Hcs]. cbn [map]. rewrite <- app_comm_cons. cbn [TextDecoder.run].
  rewrite N_of_ascii_of_byte, Hc.
  change (string_of_list_byte (c :: cs)) with (String (ascii_of_byte c) (string_of_list_byte cs)).
  destruct (TextDecoder.needed p) as [| [| k]] eqn:Hn; [lia | |].
  - destruct cs; [| simpl in Hlen; lia]. done.
  - rewrite (IH (TextDecoder.mkPartial _ (S k) 128 191)); simpl in *;
      [| lia | lia | by apply follows_next].
    f_equal. by rewrite append_assoc, append_cons, append_nil_l.
Qed.

(** A sequence in progress that the end of the chunk cuts short gives one
    replacement character. *)
Lemma run_cut (conts : list Byte.byte) p :
  length conts < TextDecoder.needed p -> follows p conts ->
  TextDecoder.run (map ascii_of_byte conts) (Some p) = TextDecoder.replacement.
Proof.
  revert p. induction conts as [| c cs IH]; intros p Hlen Hf; [done |].
  destruct Hf as [Hc Hcs]. cbn [map TextDecoder.run].
  rewrite N_of_ascii_of_byte, Hc.
  destruct (TextDecoder.needed p) as [| [| k]] eqn:Hn; simpl in Hlen; [lia | lia |].
  apply IH; simpl; [lia | by apply follows_next].
Qed.

(** Bytes that continue nothing give a replacement character each. *)
Lemma run_continuations (conts : list Byte.byte) (rest : list ascii) :
  Forall continuation conts ->
  TextDecoder.run (map ascii_of_byte conts ++ rest) None
    = joined (replicate (length conts) TextDecoder.replacement) +:+ TextDecoder.run rest None.
Proof.
  induction 1 as [| c cs Hc _ IH]; [done |].
  cbn [map length replicate joined]. rewrite <- app_comm_cons. cbn [TextDecoder.run].
  by rewrite (lead_continuation c Hc), IH, append_assoc.
Qed.

Lemma run_plain_all (post : list Byte.byte) :
  plain post -> TextDecoder.run (map ascii_of_byte post) None = string_of_list_byte post.
Proof.
  intros Hpost. rewrite <- (app_nil_r (map ascii_of_byte post)), (run_plain _ _ Hpost).
  apply append_nil_r.
Qed.

Lemma follows_split p c1 c2 :
  follows p (c1 ++ c2) -> Forall continuation (c1 ++ c2) ->
  follows p c1 /\ Forall continuation c2.
Proof.
  intros Hf Hall. apply Forall_app in Hall as [H1 H2]. split; [| done].
  destruct c1 as [| c cs]; [done |]. destruct Hf as [Hc _]. split; [done |].
  by inversion H1.
Qed.

End Characters.

(** X12.  Every chunk is decoded on its own.  A character of more than
    one byte that the end of a chunk cuts in two, between plain text, is
    therefore shown as replacement characters (U+FFFD): one for the bytes
    that end the chunk, and one for each of its bytes that start the
    following chunk; so two for a character of two bytes, and three for a
    character of three bytes cut after its first byte.  The same bytes in
    one chunk give the character itself, unless they are a byte order
    mark at the very start of the chunk, which is dropped. *)
Theorem split_character_is_replaced (pre post : list Byte.byte) (b1 : Byte.byte)
    (c1 c2 : list Byte.byte) :
  plain pre -> plain post -> character b1 (c1 ++ c2) -> c2 <> [] ->
  joined (map TextDecoder.decode [pre ++ b1 :: c1; c2 ++ post])
    = string_of_list_byte pre +:+ TextDecoder.replacement
        +:+ joined (replicate (length c2) TextDecoder.replacement)
        +:+ string_of_list_byte post /\
  2 <= 1 + length c2 /\
  ((pre = [] -> b1 :: c1 ++ c2 <> byteOrderMark) ->
   TextDecoder.decode (pre ++ (b1 :: c1 ++ c2) ++ post)
     = string_of_list_byte (pre ++ (b1 :: c1 ++ c2) ++ post)).
Proof.
  intros Hpre Hpost (p & Hlead & Hlen & Hall & Hfirst) Hc2.
  destruct (lead_shape b1 p Hlead) as (Hseen & Hpos & Hb1 & Hbom).
  assert (Hf : follows p (c1 ++ c2)).
  { destruct (c1 ++ c2) as [| c cs] eqn:Hcs; [done |]. split; [done | by inversion Hall]. }
  destruct (follows_split p c1 c2 Hf Hall) as [Hf1 Hall2].
  assert (Hshort : length c1 < TextDecoder.needed p).
  { rewrite <- Hlen, length_app. destruct c2; [done | simpl; lia]. }
  split; [| split].
  - assert (H1 : TextDecoder.decode (pre ++ b1 :: c1)
                 = string_of_list_byte pre +:+ TextDecoder.replacement).
    { unfold TextDecoder.decode.
      assert (Hs : TextDecoder.strip_bom (map ascii_of_byte (pre ++ b1 :: c1))
                   = map ascii_of_byte (pre ++ b1 :: c1)).
      { destruct Hpre as [| x pre Hx _].
        - destruct (N.eq_dec (Byte.to_N b1) 239%N) as [Heq | Hne].
          + destruct (Hbom Heq) as (Hn & _). rewrite Hn in Hshort.
            destruct c1 as [| a [| a' c1]]; simpl in Hshort; try lia; done.
          + apply strip_bom_other. intros b rest [= <- _]. by rewrite N_of_ascii_of_byte.
        - apply strip_bom_other. intros b rest [= <- _]. rewrite N_of_ascii_of_byte. lia. }
      rewrite Hs, map_app, (run_plain _ _ Hpre). f_equal.
      cbn [map TextDecoder.run]. rewrite Hlead, append_nil_l.
      by apply run_cut. }
    assert (H2 : TextDecoder.decode (c2 ++ post)
                 = joined (replicate (length c2) TextDecoder.replacement)
                     +:+ string_of_list_byte post).
    { unfold TextDecoder.decode. rewrite strip_bom_other.
      - by rewrite map_app, (run_continuations _ _ Hall2), (run_plain_all _ Hpost).
      - intros b rest Heq. destruct Hall2 as [| c cs Hc _]; [done |].
        simpl in Heq. injection Heq as <- _. rewrite N_of_ascii_of_byte.
        unfold continuation in Hc. lia. }
    cbn [map joined]. by rewrite H1, H2, append_nil_r, !append_assoc.
  - destruct c2; [done | simpl; lia].
  - intros Hnot. unfold TextDecoder.decode.
    assert (Hs : TextDecoder.strip_bom (map ascii_of_byte (pre ++ (b1 :: c1 ++ c2) ++ post))
                 = map ascii_of_byte (pre ++ (b1 :: c1 ++ c2) ++ post)).
    { destruct Hpre as [| x pre Hx _].
      - destruct (N.eq_dec (Byte.to_N b1) 239%N) as [Heq | Hne].
        + destruct (Hbom Heq) as (Hn & _). rewrite Hn in Hlen.
          destruct (c1 ++ c2) as [| a [| a' [| a'' cs]]] eqn:Hcs; simpl in Hlen; try lia.
          simpl. rewrite !N_of_ascii_of_byte, Heq.
          destruct (N.eqb_spec (Byte.to_N a) 187) as [Ha | _]; [| done].
          destruct (N.eqb_spec (Byte.to_N a') 191) as [Ha' | _]; [| by rewrite andb_false_r].
          exfalso. apply (Hnot eq_refl). unfold byteOrderMark.
          f_equal; [| f_equal; [| f_equal]].
          * apply to_N_inj. by rewrite Heq.
          * apply to_N_inj. by rewrite Ha.
          * apply to_N_inj. by rewrite Ha'.
        + apply strip_bom_other. intros b rest [= <- _]. by rewrite N_of_ascii_of_byte.
      - apply strip_bom_other. intros b rest [= <- _]. rewrite N_of_ascii_of_byte. lia. }
    rewrite Hs, !map_app, (run_plain _ _ Hpre), !string_of_list_byte_app. f_equal.
    rewrite <- map_app. cbn [map]. rewrite <- !app_comm_cons. cbn [map TextDecoder.run].
    rewrite Hlead, append_nil_l.
    rewrite map_app, (run_whole (c1 ++ c2) _ p Hlen Hpos Hf), Hseen, (run_plain_all _ Hpost).
    change (string_of_list_byte (b1 :: c1 ++ c2))
      with (String (ascii_of_byte b1) (string_of_list_byte (c1 ++ c2))).
    by rewrite append_cons, append_nil_l.
Qed.

(** ** The fence that closes a code block *)

Section ClosingFence.

(** A text without a fence that does not end in a backquote makes no fence
    with the first backquotes of a fence that follows it. *)
Lemma fenceFree_closing (body : string) :
  fenceFree body -> endsPlain body -> fenceFree (body +:+ "``").
Proof.
  induction body as [| c r IH]; intros Hfree Hend.
  - rewrite append_nil_l. apply until_fence_None. reflexivity.
  - intros a b Heq. destruct a as [| c' a'].
    + rewrite append_nil_l in Heq. unfold fence in Heq.
      rewrite !append_cons, !append_nil_l in Heq.
      destruct r as [| c2 [| c3 r3]].
      * rewrite append_nil_l in Heq. injection Heq as -> _.
        apply (Hend EmptyString). reflexivity.
      * rewrite !append_cons, !append_nil_l in Heq. injection Heq as -> -> _.
        apply (Hend "`"). reflexivity.
      * rewrite !append_cons in Heq. injection Heq as -> -> -> _.
        apply (Hfree EmptyString r3). reflexivity.
    + rewrite !append_cons in Heq. injection Heq as _ Heq.
      apply (IH (fenceFree_tail _ _ Hfree)) in Heq; [done |].
      intros x ->. apply (Hend (String c x)). by rewrite append_cons.
Qed.

Lemma endsPlain_cons (c : ascii) (s : string) :
  s <> EmptyString -> endsPlain s -> endsPlain (String c s).
Proof.
  intros Hs Hend [| c' a'].
  - rewrite append_nil_l. intros [= _ ->]. by apply Hs.
  - rewrite append_cons. intros [= _ ->]. by apply (Hend a').
Qed.

Lemma endsPlain_one (c : ascii) :
  c <> "`"%char -> endsPlain (String c EmptyString).
Proof.
  intros Hc [| c' a'].
  - rewrite append_nil_l. intros [= ->]. by apply Hc.
  - rewrite append_cons. intros [= _ H]. by destruct a'.
Qed.

End ClosingFence.

(** X18.  A code block is taken out of the text around it.  When the text
    before it holds no fence, its language is a (possibly empty) run of
    word characters and its code holds no fence and does not end in a
    backquote, the message gives: the text before as a text part unless
    it is empty, the code as a code part with the language, or
    [plaintext] when none is written, and then the parts of what follows
    the block.  (A code that ends in a backquote is cut short: the
    expression closes the block at the first three backquotes it
    meets.) *)
Theorem code_block_is_split_off (pre lang body post : string) :
  fenceFree pre -> all_word lang = true -> fenceFree body -> endsPlain body ->
  exists parts,
    parseMessage post = Some parts /\
    parseMessage (pre +:+ block lang body +:+ post)
      = Some ((if truthy pre then [MessagePart.mk MessagePart.Text pre None] else [])
              ++ MessagePart.mk MessagePart.Code body
                   (Some (if truthy lang then lang else "plaintext"))
              :: parts).
Proof.
  intros Hpre Hlang Hfree Hend.
  pose proof (fenceFree_closing body Hfree Hend) as Hbody.
  destruct (parseMessage_answers post) as [parts Hparts].
  exists parts. split; [exact Hparts |].
  rewrite parseMessage_eq.
  assert (Hexec : exec (pre +:+ block lang body +:+ post)
                  = Some (pre, mkMatch (match lang with
                                        | EmptyString => None
                                        | String _ _ => Some lang
                                        end) body post)).
  { pose proof (match_here_block lang body post Hlang Hbody) as Hm.
    unfold block in *. rewrite !append_assoc in *.
    rewrite (exec_skip pre _ Hpre), exec_eq, Hm. by rewrite append_nil_r. }
  rewrite Hexec. simpl. by rewrite Hparts, word_or_default.
Qed.

Lemma code_block_is_split_off_witness :
  parseMessage sampleReply
    = Some [MessagePart.mk MessagePart.Text ("Use `map`:" +:+ lineFeed) None;
            MessagePart.mk MessagePart.Code ("xs.map(f)" +:+ lineFeed) (Some "js");
            MessagePart.mk MessagePart.Text " Done." None].
Proof.
  destruct (code_block_is_split_off ("Use `map`:" +:+ lineFeed) "js"
              ("xs.map(f)" +:+ lineFeed) " Done.") as (parts & Hpost & Hall).
  - apply until_fence_None. reflexivity.
  - reflexivity.
  - apply until_fence_None. reflexivity.
  - let s := eval vm_compute in ("xs.map(f)" +:+ lineFeed) in
    change (endsPlain s).
    repeat (apply endsPlain_cons; [discriminate |]). apply endsPlain_one. discriminate.
  - unfold sampleReply. rewrite Hall. f_equal.
    vm_compute in Hpost. injection Hpost as <-. reflexivity.
Defined.

(** A code that ends in a backquote: the block is closed one character
    early, and the backquote left over is text. *)
Example backquote_closes_the_block_early :
  fenceFree "x`" /\
  parseMessage (block "js" "x`")
    = Some [MessagePart.mk MessagePart.Code "x" (Some "js");
            MessagePart.mk MessagePart.Text "`" None].
Proof. split; [apply until_fence_None; reflexivity | vm_compute; reflexivity]. Qed.

Lemma split_character_is_replaced_witness :
  joined (map TextDecoder.decode [cafBytes ++ [Byte.xe2]; [Byte.x82; Byte.xac]])
    = "caf" +:+ TextDecoder.replacement +:+ TextDecoder.replacement
        +:+ TextDecoder.replacement /\
  TextDecoder.decode (cafBytes ++ euro) = string_of_list_byte (cafBytes ++ euro) /\
  joined (map TextDecoder.decode [cafBytes ++ [fst eAcute]; [snd eAcute]])
    = "caf" +:+ TextDecoder.replacement +:+ TextDecoder.replacement.
Proof.
  assert (Hcaf : plain cafBytes) by (repeat constructor; vm_compute; discriminate).
  assert (Hnil : plain []) by constructor.
  assert (Heuro : character Byte.xe2 ([] ++ [Byte.x82; Byte.xac])).
  { eexists. split; [vm_compute; reflexivity |]. split; [reflexivity |].
    split; [| reflexivity].
    repeat constructor; vm_compute; discriminate. }
  assert (Hacute : character (fst eAcute) ([] ++ [snd eAcute])).
  { eexists. split; [vm_compute; reflexivity |]. split; [reflexivity |].
    split; [| reflexivity].
    repeat constructor; vm_compute; discriminate. }
  destruct (split_character_is_replaced cafBytes [] Byte.xe2 [] [Byte.x82; Byte.xac]
              Hcaf Hnil Heuro ltac:(discriminate)) as (Hsplit & _ & Hwhole).
  destruct (split_character_is_replaced cafBytes [] (fst eAcute) [] [snd eAcute]
              Hcaf Hnil Hacute ltac:(discriminate)) as (Hsplit2 & _ & _).
  split; [| split].
  - rewrite app_nil_r in Hsplit. rewrite Hsplit. vm_compute. reflexivity.
  - specialize (Hwhole ltac:(discriminate)).
    rewrite app_nil_r in Hwhole. exact Hwhole.
  - rewrite app_nil_r in Hsplit2. rewrite Hsplit2. vm_compute. reflexivity.
Defined.

